(** * A dancing-links Sudoku solver: shallow embedding and verification

    The development follows [Sudoku.h] and [Sudoku.cpp]: the link matrix of
    namespace [dl] (cells, columns, [cover] and [uncover]), then the
    [Sudoku] object (construction of the matrix, [insertRow],
    [printSolution], [search] and [loadGridAndSolve]).

    Pointers into the two arrays [columns] and [cells] are values of type
    [ptr]; the two arrays are finite maps.  A [int32_t] is a [Z]: every
    number the program computes stays below [2^31], and [/] and [%] are
    [Z.quot] and [Z.rem], as in C++.  Loops that follow pointers take a
    fuel argument and answer [OutOfFuel] when it runs out; an access outside
    an array, or a read of a value that was never written, answers
    [Undef]. *)

From stdpp Require Import gmap list.
From Stdlib Require Import ZArith Lia.
Local Open Scope Z_scope.
#[local] Set Warnings "-clear-no-such-hyp".

(** ** Outcomes *)

Inductive res (A : Type) : Type :=
  | Ok (a : A)
  | OutOfFuel
  | Undef.
Arguments Ok {A} a.
Arguments OutOfFuel {A}.
Arguments Undef {A}.

Global Instance res_bind : MBind res := fun A B f m =>
  match m with Ok a => f a | OutOfFuel => OutOfFuel | Undef => Undef end.
Global Instance res_ret : MRet res := fun A a => Ok a.

(** [r ⊑ r']: the answer [r'], obtained with more fuel, agrees with [r]. *)
Definition approx {A : Type} (r r' : res A) : Prop := r = OutOfFuel ∨ r = r'.

(** ** Namespace [dl]: the link matrix *)

Module dl.

(** A [Cell*] points either into [columns] (the [Cell] base of a
    [Column]) or into [cells]. *)
Inductive ptr : Type :=
  | PCol (i : Z)
  | PCell (r k : Z).

Global Instance ptr_eq_dec : EqDecision ptr.
Proof. solve_decision. Defined.

(** [col] is a [Column*], that is an index into [columns].  [row] is
    never written for a column header, hence the option. *)
Record Cell : Type := mkCell {
  up : ptr;
  down : ptr;
  left : ptr;
  right : ptr;
  col : Z;
  row : option Z }.

(** [Column : public Cell], with its live-cell count.  The [name] string
    is a diagnostic label that no function reads; it is left out. *)
Record Column : Type := mkColumn {
  hd : Cell;
  count : Z }.

Definition null_cell : Cell := mkCell (PCol 0) (PCol 0) (PCol 0) (PCol 0) 0 None.
Global Instance Cell_inhabited : Inhabited Cell := populate null_cell.
Global Instance Column_inhabited : Inhabited Column := populate (mkColumn null_cell 0).

Record Heap : Type := mkHeap {
  columns : gmap Z Column;
  cells : gmap (Z * Z) Cell }.

(** Dereference of a [Cell*]. *)
Definition deref (h : Heap) (p : ptr) : Cell :=
  match p with
  | PCol i => hd (columns h !!! i)
  | PCell r k => cells h !!! (r, k)
  end.

(** Assignment through a [Cell*]. *)
Definition modify (f : Cell -> Cell) (p : ptr) (h : Heap) : Heap :=
  match p with
  | PCol i =>
      mkHeap (<[i := mkColumn (f (hd (columns h !!! i))) (count (columns h !!! i))]> (columns h))
             (cells h)
  | PCell r k =>
      mkHeap (columns h) (<[(r, k) := f (cells h !!! (r, k))]> (cells h))
  end.

Definition up_ (h : Heap) (p : ptr) : ptr := up (deref h p).
Definition down_ (h : Heap) (p : ptr) : ptr := down (deref h p).
Definition left_ (h : Heap) (p : ptr) : ptr := left (deref h p).
Definition right_ (h : Heap) (p : ptr) : ptr := right (deref h p).
Definition col_ (h : Heap) (p : ptr) : Z := col (deref h p).
Definition row_ (h : Heap) (p : ptr) : option Z := row (deref h p).
Definition get_count (h : Heap) (c : Z) : Z := count (columns h !!! c).

Definition set_up (p v : ptr) : Heap -> Heap :=
  modify (fun c => mkCell v (down c) (left c) (right c) (col c) (row c)) p.
Definition set_down (p v : ptr) : Heap -> Heap :=
  modify (fun c => mkCell (up c) v (left c) (right c) (col c) (row c)) p.
Definition set_left (p v : ptr) : Heap -> Heap :=
  modify (fun c => mkCell (up c) (down c) v (right c) (col c) (row c)) p.
Definition set_right (p v : ptr) : Heap -> Heap :=
  modify (fun c => mkCell (up c) (down c) (left c) v (col c) (row c)) p.
Definition set_col (p : ptr) (v : Z) : Heap -> Heap :=
  modify (fun c => mkCell (up c) (down c) (left c) (right c) v (row c)) p.
Definition set_row (p : ptr) (v : option Z) : Heap -> Heap :=
  modify (fun c => mkCell (up c) (down c) (left c) (right c) (col c) v) p.
Definition set_count (c : Z) (v : Z) (h : Heap) : Heap :=
  mkHeap (<[c := mkColumn (hd (columns h !!! c)) v]> (columns h)) (cells h).

(** [cell->right->left = cell->left; cell->left->right = cell->right;] *)
Definition unlink_header (cell : ptr) (h : Heap) : Heap :=
  let h1 := set_left (right_ h cell) (left_ h cell) h in
  set_right (left_ h1 cell) (right_ h1 cell) h1.

(** [cell->right->left = cell; cell->left->right = cell;] *)
Definition relink_header (cell : ptr) (h : Heap) : Heap :=
  let h1 := set_left (right_ h cell) cell h in
  set_right (left_ h1 cell) cell h1.

(** [j->down->up = j->up; j->up->down = j->down; --j->col->count;] *)
Definition unlink_cell (j : ptr) (h : Heap) : Heap :=
  let h1 := set_up (down_ h j) (up_ h j) h in
  let h2 := set_down (up_ h1 j) (down_ h1 j) h1 in
  set_count (col_ h2 j) (get_count h2 (col_ h2 j) - 1) h2.

(** [++j->col->count; j->down->up = j; j->up->down = j;] *)
Definition relink_cell (j : ptr) (h : Heap) : Heap :=
  let h1 := set_count (col_ h j) (get_count h (col_ h j) + 1) h in
  let h2 := set_up (down_ h1 j) j h1 in
  set_down (up_ h2 j) j h2.

(** The inner loop of [cover]: [for (j = i->right; j != i; j = j->right)]. *)
Fixpoint cover_row (n : nat) (i j : ptr) (h : Heap) : res Heap :=
  match n with
  | O => OutOfFuel
  | S n' =>
      if decide (j = i) then Ok h
      else let h' := unlink_cell j h in cover_row n' i (right_ h' j) h'
  end.

(** The outer loop of [cover]: [for (i = cell->down; i != cell; i = i->down)]. *)
Fixpoint cover_col (n : nat) (cell i : ptr) (h : Heap) : res Heap :=
  match n with
  | O => OutOfFuel
  | S n' =>
      if decide (i = cell) then Ok h
      else h' ← cover_row n' i (right_ h i) h; cover_col n' cell (down_ h' i) h'
  end.

Definition cover (n : nat) (c : Z) (h : Heap) : res Heap :=
  let cell := PCol c in
  let h1 := unlink_header cell h in
  cover_col n cell (down_ h1 cell) h1.

(** The inner loop of [uncover]: [for (j = i->left; j != i; j = j->left)]. *)
Fixpoint uncover_row (n : nat) (i j : ptr) (h : Heap) : res Heap :=
  match n with
  | O => OutOfFuel
  | S n' =>
      if decide (j = i) then Ok h
      else let h' := relink_cell j h in uncover_row n' i (left_ h' j) h'
  end.

(** The outer loop of [uncover]: [for (i = cell->up; i != cell; i = i->up)]. *)
Fixpoint uncover_col (n : nat) (cell i : ptr) (h : Heap) : res Heap :=
  match n with
  | O => OutOfFuel
  | S n' =>
      if decide (i = cell) then Ok h
      else h' ← uncover_row n' i (left_ h i) h; uncover_col n' cell (up_ h' i) h'
  end.

Definition uncover (n : nat) (c : Z) (h : Heap) : res Heap :=
  let cell := PCol c in
  h1 ← uncover_col n cell (up_ h cell) h;
  Ok (relink_header cell h1).

End dl.
Export dl.

(** ** The [Sudoku] object *)

Definition grid_size : Z := 81.
Definition constraints : Z := grid_size * 4.
Definition row_size : Z := 729.
Definition cells_per_row : Z := 4.
Definition column_size : Z := constraints + 1.

(** [out] is the standard output: the grids printed so far.  An entry of
    [solution] is [None] until it is written. *)
Record Sudoku : Type := mkSudoku {
  row_count : Z;
  heap : Heap;
  root : Z;
  solution : list (option Z);
  out : list (list (list Z)) }.

Definition with_heap (s : Sudoku) (h : Heap) : Sudoku :=
  mkSudoku (row_count s) h (root s) (solution s) (out s).

(** The two arrays before the constructor body runs. *)
Definition raw_columns : gmap Z Column :=
  list_to_map ((fun i => (i, mkColumn null_cell 0)) <$> seqZ 0 column_size).
Definition raw_cells : gmap (Z * Z) Cell :=
  list_to_map (r ← seqZ 0 row_size; k ← seqZ 0 cells_per_row; [((r, k), null_cell)]).
Definition raw_heap : Heap := mkHeap raw_columns raw_cells.

(** Body of the first loop of the constructor. *)
Definition init_column (i : Z) (h : Heap) : Heap :=
  let h1 := set_up (PCol i) (PCol i) h in
  let h2 := set_down (PCol i) (PCol i) h1 in
  let h3 := set_right (PCol i) (PCol ((i + 1) `rem` column_size)) h2 in
  let h4 := set_left (PCol i) (PCol ((column_size - 1 + i) `rem` column_size)) h3 in
  let h5 := set_count i 0 h4 in
  set_col (PCol i) i h5.

Fixpoint init_columns (n : nat) (i : Z) (h : Heap) : Heap :=
  match n with
  | O => h
  | S n' => init_columns n' (i + 1) (init_column i h)
  end.

(** Body of the loop of [insertRow], for the cell [cells[row_count][i]]. *)
Definition insert_cell (rc : Z) (items : list Z) (i : Z) (h : Heap) : res Heap :=
  match items !! Z.to_nat i with
  | None => Undef
  | Some it =>
      if decide (0 <= it < column_size) then
        let cell := PCell rc i in
        let h1 := set_col cell it h in
        let h2 := set_row cell (Some rc) h1 in
        let h3 := set_count (col_ h2 cell) (get_count h2 (col_ h2 cell) + 1) h2 in
        let h4 := set_up cell (up_ h3 (PCol (col_ h3 cell))) h3 in
        let h5 := set_down cell (PCol (col_ h4 cell)) h4 in
        let h6 := set_down (up_ h5 (PCol (col_ h5 cell))) cell h5 in
        let h7 := set_up (PCol (col_ h6 cell)) cell h6 in
        let h8 := set_right cell (PCell rc ((i + 1) `rem` cells_per_row)) h7 in
        Ok (set_left cell (PCell rc ((cells_per_row - 1 + i) `rem` cells_per_row)) h8)
      else Undef
  end.

Fixpoint insert_cells (n : nat) (rc : Z) (items : list Z) (i : Z) (h : Heap) : res Heap :=
  match n with
  | O => Ok h
  | S n' => h' ← insert_cell rc items i h; insert_cells n' rc items (i + 1) h'
  end.

Definition insertRow (items : list Z) (s : Sudoku) : res Sudoku :=
  if decide (0 <= row_count s < row_size) then
    h ← insert_cells (Z.to_nat cells_per_row) (row_count s) items 0 (heap s);
    Ok (mkSudoku (row_count s + 1) h (root s) (solution s) (out s))
  else Undef.

(** The four constraint columns of candidate [i], as the constructor
    computes them. *)
Definition row_items (i : Z) : list Z :=
  let col := (i `quot` 9) `rem` 9 in
  let row := i `quot` 81 in
  let num := i `rem` 9 in
  let col_block_group := col `quot` 3 in
  let row_block_group := row `quot` 3 in
  let cell_constraint := i `quot` 9 in
  let row_constraint := row * 9 + num in
  let column_constraint := i `rem` 81 in
  let block_constraint := row_block_group * 27 + col_block_group * 9 + num in
  [cell_constraint; 81 + row_constraint; 162 + column_constraint; 243 + block_constraint].

Fixpoint build_rows (n : nat) (i : Z) (s : Sudoku) : res Sudoku :=
  match n with
  | O => Ok s
  | S n' => s' ← insertRow (row_items i) s; build_rows n' (i + 1) s'
  end.

(** [Sudoku::Sudoku()]. *)
Definition new_Sudoku : res Sudoku :=
  let h := init_columns (Z.to_nat column_size) 0 raw_heap in
  build_rows (Z.to_nat row_size) 0
    (mkSudoku 0 h (column_size - 1) (replicate (Z.to_nat grid_size) None) []).

(** *** [printSolution] *)

(** [grid_solution[r][c] = v], on the local array of [printSolution],
    whose entries are unwritten at first. *)
Definition grid_write (g : list (list (option Z))) (r c v : Z)
  : res (list (list (option Z))) :=
  if decide (0 <= r < 9 ∧ 0 <= c < 9) then
    match g !! Z.to_nat r with
    | Some line => Ok (<[Z.to_nat r := <[Z.to_nat c := Some v]> line]> g)
    | None => Undef
    end
  else Undef.

Fixpoint decode_loop (n : nat) (k : Z) (sol : list (option Z))
    (g : list (list (option Z))) : res (list (list (option Z))) :=
  match n with
  | O => Ok g
  | S n' =>
      match sol !! Z.to_nat k with
      | Some (Some s) =>
          let col := (s `quot` 9) `rem` 9 in
          let row := s `quot` 81 in
          let num := s `rem` 9 in
          g' ← grid_write g row col num;
          decode_loop n' (k + 1) sol g'
      | _ => Undef
      end
  end.

Definition print_cell (x : option Z) : res Z :=
  match x with Some v => Ok (v + 1) | None => Undef end.

Fixpoint mapM {A B : Type} (f : A -> res B) (l : list A) : res (list B) :=
  match l with
  | [] => Ok []
  | x :: l' => y ← f x; ys ← mapM f l'; Ok (y :: ys)
  end.

Definition printSolution (s : Sudoku) : res Sudoku :=
  g ← decode_loop (Z.to_nat grid_size) 0 (solution s) (replicate 9 (replicate 9 None));
  lines ← mapM (mapM print_cell) g;
  Ok (mkSudoku (row_count s) (heap s) (root s) (solution s) (out s ++ [lines])).

(** *** [search] *)

(** The scan for the column with the least count. *)
Fixpoint choose (n : nat) (rt candidate c : ptr) (h : Heap) : res ptr :=
  match n with
  | O => OutOfFuel
  | S n' =>
      if decide (candidate = rt) then Ok c
      else
        let c' := if decide (get_count h (col_ h candidate) < get_count h (col_ h c))
                  then candidate else c in
        choose n' rt (right_ h candidate) c' h
  end.

(** [for (j = r->right; j != r; j = j->right) cover(j->col);] *)
Fixpoint cover_others (n : nat) (r j : ptr) (h : Heap) : res Heap :=
  match n with
  | O => OutOfFuel
  | S n' =>
      if decide (j = r) then Ok h
      else h' ← cover n' (col_ h j) h; cover_others n' r (right_ h' j) h'
  end.

(** [for (j = r->left; j != r; j = j->left) uncover(j->col);] *)
Fixpoint uncover_others (n : nat) (r j : ptr) (h : Heap) : res Heap :=
  match n with
  | O => OutOfFuel
  | S n' =>
      if decide (j = r) then Ok h
      else h' ← uncover n' (col_ h j) h; uncover_others n' r (left_ h' j) h'
  end.

(** [solution[k] = v]. *)
Definition set_solution (k : Z) (v : option Z) (s : Sudoku) : res Sudoku :=
  if decide (0 <= k < grid_size) then
    Ok (mkSudoku (row_count s) (heap s) (root s) (<[Z.to_nat k := v]> (solution s)) (out s))
  else Undef.

(** The loop over the rows of the chosen column; [rec] is the recursive
    call [search(k + 1)]. *)
Fixpoint search_rows (rec : Sudoku -> res Sudoku) (n : nat) (k : Z) (c r : ptr)
    (s : Sudoku) : res Sudoku :=
  match n with
  | O => OutOfFuel
  | S n' =>
      if decide (r = c) then Ok s
      else
        s1 ← set_solution k (row_ (heap s) r) s;
        h2 ← cover_others n' r (right_ (heap s1) r) (heap s1);
        s3 ← rec (with_heap s1 h2);
        h4 ← uncover_others n' r (left_ (heap s3) r) (heap s3);
        search_rows rec n' k c (down_ h4 r) (with_heap s3 h4)
  end.

Fixpoint search (n : nat) (k : Z) (s : Sudoku) : res Sudoku :=
  match n with
  | O => OutOfFuel
  | S n' =>
      let rt := PCol (root s) in
      if decide (right_ (heap s) rt = rt) then printSolution s
      else
        c ← choose n' rt (right_ (heap s) rt) (right_ (heap s) rt) (heap s);
        h1 ← cover n' (col_ (heap s) c) (heap s);
        s2 ← search_rows (search n' (k + 1)) n' k c (down_ h1 c) (with_heap s h1);
        h3 ← uncover n' (col_ (heap s2) c) (heap s2);
        Ok (with_heap s2 h3)
  end.

(** *** [loadGridAndSolve] *)

Definition grid_at (grid : list (list Z)) (i j : Z) : res Z :=
  match grid !! Z.to_nat i with
  | Some line => match line !! Z.to_nat j with Some v => Ok v | None => Undef end
  | None => Undef
  end.

(** [for (k = 0; k < cells_per_row; ++k) cover(cells[grid_row][k].col);] *)
Fixpoint cover_clue (fuel : nat) (n : nat) (grid_row k : Z) (h : Heap) : res Heap :=
  match n with
  | O => Ok h
  | S n' =>
      if decide (0 <= grid_row < row_size) then
        h' ← cover fuel (col_ h (PCell grid_row k)) h;
        cover_clue fuel n' grid_row (k + 1) h'
      else Undef
  end.

(** Body of the two nested loops, for the cell [(i, j)]. *)
Definition load_cell (fuel : nat) (grid : list (list Z)) (i j : Z) (zs : Z * Sudoku)
  : res (Z * Sudoku) :=
  v ← grid_at grid i j;
  if decide (v ≠ 0) then
    let grid_row := 81 * i + 9 * j + v - 1 in
    h ← cover_clue fuel (Z.to_nat cells_per_row) grid_row 0 (heap zs.2);
    s' ← set_solution zs.1 (Some grid_row) (with_heap zs.2 h);
    Ok (zs.1 + 1, s')
  else Ok zs.

Fixpoint load_line (fuel : nat) (n : nat) (grid : list (list Z)) (i j : Z)
    (zs : Z * Sudoku) : res (Z * Sudoku) :=
  match n with
  | O => Ok zs
  | S n' => zs' ← load_cell fuel grid i j zs; load_line fuel n' grid i (j + 1) zs'
  end.

Fixpoint load_grid (fuel : nat) (n : nat) (grid : list (list Z)) (i : Z)
    (zs : Z * Sudoku) : res (Z * Sudoku) :=
  match n with
  | O => Ok zs
  | S n' => zs' ← load_line fuel 9 grid i 0 zs; load_grid fuel n' grid (i + 1) zs'
  end.

Definition loadGridAndSolve (fuel : nat) (grid : list (list Z)) (s : Sudoku) : res Sudoku :=
  zs ← load_grid fuel 9 grid 0 (0, s);
  search fuel zs.1 zs.2.

(** The program of [main] on a given grid: construct, load and solve;
    the answer is what was printed. *)
Definition run (fuel : nat) (grid : list (list Z)) : res (list (list (list Z))) :=
  s ← new_Sudoku; s' ← loadGridAndSolve fuel grid s; Ok (out s').

(** ** Vocabulary of the specification *)

(** The constructed solver and its matrix. *)
Definition s0 : Sudoku :=
  match new_Sudoku with
  | Ok s => s
  | _ => mkSudoku 0 raw_heap (column_size - 1) [] []
  end.
Definition h0 : Heap := heap s0.
Definition rootp : ptr := PCol (column_size - 1).

(** Pointers into the arrays. *)
Definition valid_ptr (p : ptr) : Prop :=
  match p with
  | PCol i => 0 <= i < column_size
  | PCell r k => 0 <= r < row_size ∧ 0 <= k < cells_per_row
  end.
Definition is_cell (p : ptr) : Prop :=
  match p with
  | PCol _ => False
  | PCell r k => 0 <= r < row_size ∧ 0 <= k < cells_per_row
  end.
Definition in_heap (h : Heap) (p : ptr) : Prop :=
  match p with
  | PCol i => is_Some (columns h !! i)
  | PCell r k => is_Some (cells h !! (r, k))
  end.
Definition hdom (h : Heap) : gset Z * gset (Z * Z) := (dom (columns h), dom (cells h)).

(** The other cells of the row of a cell, in the order in which the
    [right] pointers reach them. *)
Definition mates (p : ptr) : list ptr :=
  match p with
  | PCol _ => []
  | PCell r k =>
      [PCell r ((k + 1) `rem` 4); PCell r ((k + 2) `rem` 4); PCell r ((k + 3) `rem` 4)]
  end.

(** [path nxt a L z]: the loop [for (x = a; x != z; x = nxt x)] visits
    exactly the nodes of [L], in this order. *)
Fixpoint path (nxt : ptr -> ptr) (a : ptr) (L : list ptr) (z : ptr) : Prop :=
  match L with
  | [] => a = z
  | x :: L' => a = x ∧ x ≠ z ∧ path nxt (nxt x) L' z
  end.

(** [chain nxt prv a L z]: a doubly linked segment from [a] through the
    nodes of [L] to [z]. *)
Fixpoint chain (nxt prv : ptr -> ptr) (a : ptr) (L : list ptr) (z : ptr) : Prop :=
  match L with
  | [] => nxt a = z ∧ prv z = a
  | x :: L' => nxt a = x ∧ prv x = a ∧ chain nxt prv x L' z
  end.

Global Instance chain_dec nxt prv a L z : Decision (chain nxt prv a L z).
Proof. revert a. induction L as [|x L IH]; intros a; simpl; apply _. Defined.

Global Instance valid_ptr_dec p : Decision (valid_ptr p).
Proof. destruct p; simpl; apply _. Defined.
Global Instance is_cell_dec p : Decision (is_cell p).
Proof. destruct p; simpl; apply _. Defined.
Global Instance in_heap_dec h p : Decision (in_heap h p).
Proof. destruct p; simpl; apply _. Defined.

(** The nodes that a pointer-following loop visits, with fuel. *)
Fixpoint walk (nxt : ptr -> ptr) (n : nat) (z x : ptr) : list ptr :=
  match n with
  | O => []
  | S n' => if decide (x = z) then [] else x :: walk nxt n' z (nxt x)
  end.

Definition unlink_all (T : list ptr) (h : Heap) : Heap :=
  foldl (fun h j => unlink_cell j h) h T.
Definition relink_all (T : list ptr) (h : Heap) : Heap :=
  foldl (fun h j => relink_cell j h) h T.

(** A cell sits in its column ring between its two neighbours. *)
Definition linked (h : Heap) (j : ptr) : Prop :=
  up_ h (down_ h j) = j ∧ down_ h (up_ h j) = j.

(** The part of the matrix that [cover] and [uncover] never change, and
    the closure of the pointers. *)
Record shape (h : Heap) : Prop := mkShape {
  sh_dom : hdom h = hdom h0;
  sh_col_hdr : ∀ c, 0 <= c < column_size → col_ h (PCol c) = c;
  sh_col_cell : ∀ r k, 0 <= r < row_size → 0 <= k < cells_per_row →
      row_items r !! Z.to_nat k = Some (col_ h (PCell r k));
  sh_row : ∀ r k, 0 <= r < row_size → 0 <= k < cells_per_row →
      row_ h (PCell r k) = Some r;
  sh_right : ∀ r k, 0 <= r < row_size → 0 <= k < cells_per_row →
      right_ h (PCell r k) = PCell r ((k + 1) `rem` cells_per_row);
  sh_left : ∀ r k, 0 <= r < row_size → 0 <= k < cells_per_row →
      left_ h (PCell r k) = PCell r ((cells_per_row - 1 + k) `rem` cells_per_row);
  sh_vert : ∀ p, valid_ptr p →
      valid_ptr (up_ h p) ∧ valid_ptr (down_ h p) ∧
      col_ h (up_ h p) = col_ h p ∧ col_ h (down_ h p) = col_ h p;
  sh_horiz : ∀ c, 0 <= c < column_size →
      ∃ l r, left_ h (PCol c) = PCol l ∧ right_ h (PCol c) = PCol r ∧
             0 <= l < column_size ∧ 0 <= r < column_size }.

(** The ring of the live column headers, from the root. *)
Definition hring (h : Heap) (Lv : list Z) : Prop :=
  chain (right_ h) (left_ h) rootp (PCol <$> Lv) rootp ∧
  NoDup Lv ∧ ∀ c, c ∈ Lv → 0 <= c < constraints.

(** The ring of the cells of a column, with its count. *)
Definition vring (h : Heap) (c : Z) (V : list ptr) : Prop :=
  chain (down_ h) (up_ h) (PCol c) V (PCol c) ∧ NoDup V ∧
  (∀ x, x ∈ V → is_cell x ∧ col_ h x = c) ∧
  get_count h c = Z.of_nat (length V) ∧ (length V <= 9)%nat.

(** The invariant of the matrix: [Lv] are the live columns in ring order
    and [V c] the cells of the live column [c], top to bottom; every row
    that is present in a live column is present in all its columns, which
    are live. *)
Record Inv (h : Heap) (Lv : list Z) (V : Z -> list ptr) : Prop := mkInv {
  inv_shape : shape h;
  inv_hring : hring h Lv;
  inv_vring : ∀ c, c ∈ Lv → vring h c (V c);
  inv_rows : ∀ c x y, c ∈ Lv → x ∈ V c → y ∈ mates x →
      col_ h y ∈ Lv ∧ y ∈ V (col_ h y) }.

(** The four columns of a candidate are distinct constraint columns. *)
Definition items_ok (r : Z) : Prop :=
  NoDup (row_items r) ∧ Forall (fun c => 0 <= c < constraints) (row_items r) ∧
  length (row_items r) = 4%nat.

(** All the pointers into the two arrays. *)
Definition all_ptrs : list ptr :=
  (PCol <$> seqZ 0 column_size) ++
  (r ← seqZ 0 row_size; k ← seqZ 0 cells_per_row; [PCell r k]).

(** What [shape] asks of one pointer. *)
Definition shape_at (h : Heap) (p : ptr) : Prop :=
  in_heap h p ∧
  valid_ptr (up_ h p) ∧ valid_ptr (down_ h p) ∧
  col_ h (up_ h p) = col_ h p ∧ col_ h (down_ h p) = col_ h p ∧
  match p with
  | PCol c =>
      col_ h p = c ∧
      match left_ h p, right_ h p with
      | PCol l, PCol r => 0 <= l < column_size ∧ 0 <= r < column_size
      | _, _ => False
      end
  | PCell r k =>
      row_items r !! Z.to_nat k = Some (col_ h p) ∧
      row_ h p = Some r ∧
      right_ h p = PCell r ((k + 1) `rem` cells_per_row) ∧
      left_ h p = PCell r ((cells_per_row - 1 + k) `rem` cells_per_row)
  end.

Global Instance shape_at_dec h p : Decision (shape_at h p).
Proof.
  unfold shape_at. destruct p; [destruct (left_ h (PCol i)), (right_ h (PCol i))|]; apply _.
Defined.

(** What [Inv] asks of one column of the constructed matrix. *)
Definition ring_at (h : Heap) (V : Z -> list ptr) (c : Z) : Prop :=
  chain (down_ h) (up_ h) (PCol c) (V c) (PCol c) ∧ NoDup (V c) ∧
  Forall (fun x => (is_cell x ∧ col_ h x = c) ∧
            Forall (fun y => 0 <= col_ h y < constraints ∧ y ∈ V (col_ h y)) (mates x)) (V c) ∧
  get_count h c = Z.of_nat (length (V c)) ∧ (length (V c) <= 9)%nat.

Global Instance ring_at_dec h V c : Decision (ring_at h V c).
Proof. unfold ring_at. apply _. Defined.

(** The effect of [cover c] on a matrix that satisfies the invariant: the
    cells it unlinks, the matrix it leaves, and the rings of that matrix. *)
Definition targets (V : Z -> list ptr) (c : Z) : list ptr := V c ≫= mates.
Definition cover_result (h : Heap) (V : Z -> list ptr) (c : Z) : Heap :=
  unlink_all (targets V c) (unlink_header (PCol c) h).
Definition cover_Lv (Lv : list Z) (c : Z) : list Z := filter (fun x => x ≠ c) Lv.
Definition cover_V (V : Z -> list ptr) (c : Z) : Z -> list ptr :=
  fun d => filter (fun x => x ∉ targets V c) (V d).

Global Instance path_dec nxt a L z : Decision (path nxt a L z).
Proof. revert a. induction L as [|x L IH]; intros a; simpl; apply _. Defined.

(** The live columns, read off the header ring. *)
Definition live_cols (h : Heap) : list ptr :=
  walk (right_ h) (Z.to_nat column_size) rootp (right_ h rootp).
Definition live (h : Heap) (c : Z) : Prop := PCol c ∈ live_cols h.
Global Instance live_dec h c : Decision (live h c).
Proof. unfold live. apply _. Defined.

(** The cells of a column, read off its ring. *)
Definition col_cells (h : Heap) (c : Z) : list ptr :=
  walk (down_ h) 10 (PCol c) (down_ h (PCol c)).
Definition V0 : Z -> list ptr := col_cells h0.

(** What the constructor establishes. *)
Definition constructed (s : Sudoku) : Prop :=
  root s = column_size - 1 ∧ row_count s = row_size ∧
  solution s = replicate (Z.to_nat grid_size) None ∧ out s = [] ∧
  Forall (shape_at (heap s)) all_ptrs ∧
  Forall (ring_at (heap s) (col_cells (heap s))) (seqZ 0 constraints) ∧
  chain (right_ (heap s)) (left_ (heap s)) rootp (PCol <$> seqZ 0 constraints) rootp ∧
  Forall (fun c => length (col_cells (heap s) c) = 9%nat) (seqZ 0 constraints).

Global Instance constructed_dec s : Decision (constructed s).
Proof. unfold constructed. apply _. Defined.

(** The states reached by covering live columns only. *)
Inductive covered : Heap -> list Z -> Prop :=
  | covered_new : covered h0 []
  | covered_cover h st c n h' :
      covered h st → live h c → cover n c h = Ok h' → covered h' (c :: st).

(** Matrix states reached from the constructed matrix by covering live
    columns and uncovering them in the reverse order; the list holds the
    columns that are covered, the latest first. *)
Inductive reachable : Heap -> list Z -> Prop :=
  | reach_new : reachable h0 []
  | reach_cover h st c n h' :
      reachable h st → live h c → cover n c h = Ok h' → reachable h' (c :: st)
  | reach_uncover h st c n h' :
      reachable h (c :: st) → uncover n c h = Ok h' → reachable h' st.

(** The columns of the four cells of a candidate row. *)
Definition row_columns (h : Heap) (r : Z) : list Z :=
  (fun k => col_ h (PCell r k)) <$> seqZ 0 cells_per_row.

(** Constraint coverage, for one candidate row and for one column. *)
Definition row_covers (h : Heap) (r : Z) : Prop :=
  NoDup (row_columns h r) ∧
  Forall (fun c => 0 <= c < constraints ∧
            filter (fun p => row_ h p = Some r) (col_cells h c) =
            filter (fun p => col_ h p = c) (PCell r <$> seqZ 0 cells_per_row))
         (row_columns h r).
Definition column_holds_nine (h : Heap) (c : Z) : Prop :=
  length (col_cells h c) = 9%nat ∧ get_count h c = 9 ∧ NoDup (col_cells h c) ∧
  Forall (fun p => is_cell p ∧ col_ h p = c) (col_cells h c) ∧
  path (down_ h) (down_ h (PCol c)) (col_cells h c) (PCol c).

Global Instance row_covers_dec h r : Decision (row_covers h r).
Proof. unfold row_covers. apply _. Defined.
Global Instance column_holds_nine_dec h c : Decision (column_holds_nine h c).
Proof. unfold column_holds_nine. apply _. Defined.

(** The constraint columns of candidate [i] in the words of the
    specification, with the mathematical quotient and remainder. *)
Definition spec_columns (i : Z) : list Z :=
  let row := i / 81 in
  let col := (i / 9) mod 9 in
  let digit := i mod 9 in
  [row * 9 + col; 81 + row * 9 + digit; 162 + i mod 81;
   243 + (row / 3) * 27 + (col / 3) * 9 + digit].

(** The candidate row [i] of the matrix links one cell, and only one,
    into each of the columns [spec_columns i]. *)
Definition row_links (h : Heap) (i : Z) : Prop :=
  row_items i = spec_columns i ∧
  row_columns h i = spec_columns i ∧
  Forall (fun k =>
            filter (fun p => row_ h p = Some i) (col_cells h (col_ h (PCell i k)))
            = [PCell i k])
         (seqZ 0 cells_per_row).

Global Instance row_links_dec h i : Decision (row_links h i).
Proof. unfold row_links. apply _. Defined.

(** The count that the scan of [search] compares. *)
Definition scan_count (h : Heap) (x : ptr) : Z := get_count h (col_ h x).

(** ** The clues of a grid *)

(** The candidate rows of the clues of one line and of a grid, in the
    order of the two nested loops of [loadGridAndSolve]. *)
Fixpoint line_clues (i j : Z) (line : list Z) : list Z :=
  match line with
  | [] => []
  | v :: line' =>
      (if decide (v ≠ 0) then [81 * i + 9 * j + v - 1] else []) ++ line_clues i (j + 1) line'
  end.
Fixpoint grid_clues (i : Z) (grid : list (list Z)) : list Z :=
  match grid with
  | [] => []
  | line :: grid' => line_clues i 0 line ++ grid_clues (i + 1) grid'
  end.
Definition clues (grid : list (list Z)) : list Z := grid_clues 0 grid.

(** A grid of nine lines of nine numbers. *)
Definition nine_by_nine (grid : list (list Z)) : Prop :=
  length grid = 9%nat ∧ Forall (fun line => length line = 9%nat) grid.
Global Instance nine_by_nine_dec grid : Decision (nine_by_nine grid).
Proof. unfold nine_by_nine. apply _. Defined.

(** What the specification says is done for one clue: cover the four
    columns of its candidate row and record the row at the next free
    depth. *)
Definition cover_four (fuel : nat) (gr : Z) (h : Heap) : res Heap :=
  if decide (0 <= gr < row_size) then
    h1 ← cover fuel (col_ h (PCell gr 0)) h;
    h2 ← cover fuel (col_ h1 (PCell gr 1)) h1;
    h3 ← cover fuel (col_ h2 (PCell gr 2)) h2;
    cover fuel (col_ h3 (PCell gr 3)) h3
  else Undef.
Definition place_clue (fuel : nat) (zs : Z * Sudoku) (gr : Z) : res (Z * Sudoku) :=
  h ← cover_four fuel gr (heap zs.2);
  s' ← set_solution zs.1 (Some gr) (with_heap zs.2 h);
  Ok (zs.1 + 1, s').
Fixpoint place_clues (fuel : nat) (l : list Z) (zs : Z * Sudoku) : res (Z * Sudoku) :=
  match l with
  | [] => Ok zs
  | gr :: l' => zs' ← place_clue fuel zs gr; place_clues fuel l' zs'
  end.

(** ** Grids used as examples *)

(** The grid of [main]. *)
Definition main_grid : list (list Z) :=
  [[0;7;0; 4;8;0; 1;3;0];
   [0;0;0; 0;0;0; 0;0;0];
   [0;0;0; 5;6;0; 0;8;0];
   [0;6;0; 0;0;8; 0;7;0];
   [0;4;1; 0;0;6; 0;0;0];
   [0;0;8; 0;0;0; 0;1;0];
   [0;9;0; 3;0;0; 2;0;8];
   [0;0;5; 0;0;2; 0;0;0];
   [4;0;0; 0;7;0; 5;0;0]].

Definition solved_grid : list (list Z) :=
  [[5;7;2; 4;8;9; 1;3;6];
   [6;8;4; 2;1;3; 9;5;7];
   [9;1;3; 5;6;7; 4;8;2];
   [2;6;9; 1;5;8; 3;7;4];
   [7;4;1; 9;3;6; 8;2;5];
   [3;5;8; 7;2;4; 6;1;9];
   [1;9;7; 3;4;5; 2;6;8];
   [8;3;5; 6;9;2; 7;4;1];
   [4;2;6; 8;7;1; 5;9;3]].

(** [solved_grid] with the digits 2 and 4 exchanged in its first two
    lines. *)
Definition solved_grid' : list (list Z) :=
  [[5;7;4; 2;8;9; 1;3;6];
   [6;8;2; 4;1;3; 9;5;7];
   [9;1;3; 5;6;7; 4;8;2];
   [2;6;9; 1;5;8; 3;7;4];
   [7;4;1; 9;3;6; 8;2;5];
   [3;5;8; 7;2;4; 6;1;9];
   [1;9;7; 3;4;5; 2;6;8];
   [8;3;5; 6;9;2; 7;4;1];
   [4;2;6; 8;7;1; 5;9;3]].

(** [solved_grid] without the four cells in which the two differ. *)
Definition two_solutions_grid : list (list Z) :=
  [[5;7;0; 0;8;9; 1;3;6];
   [6;8;0; 0;1;3; 9;5;7];
   [9;1;3; 5;6;7; 4;8;2];
   [2;6;9; 1;5;8; 3;7;4];
   [7;4;1; 9;3;6; 8;2;5];
   [3;5;8; 7;2;4; 6;1;9];
   [1;9;7; 3;4;5; 2;6;8];
   [8;3;5; 6;9;2; 7;4;1];
   [4;2;6; 8;7;1; 5;9;3]].

(** The solver after the clues of [solved_grid] have been loaded. *)
Definition solved_state : Sudoku :=
  match load_grid 400 9 solved_grid 0 (0, s0) with
  | Ok zs => zs.2
  | _ => s0
  end.

(** ** Sequences of covers *)

(** The matrix and its rings after the columns [ds] have been covered
    one after the other. *)
Fixpoint covers_heap (h : Heap) (V : Z -> list ptr) (ds : list Z) : Heap :=
  match ds with
  | [] => h
  | d :: ds' => covers_heap (cover_result h V d) (cover_V V d) ds'
  end.
Fixpoint covers_V (V : Z -> list ptr) (ds : list Z) : Z -> list ptr :=
  match ds with
  | [] => V
  | d :: ds' => covers_V (cover_V V d) ds'
  end.
Fixpoint covers_Lv (Lv : list Z) (ds : list Z) : list Z :=
  match ds with
  | [] => Lv
  | d :: ds' => covers_Lv (cover_Lv Lv d) ds'
  end.

(** ** Covers in any state *)

(** [cover] of the columns [cs], one after the other. *)
Fixpoint cover_list (fuel : nat) (cs : list Z) (h : Heap) : res Heap :=
  match cs with
  | [] => Ok h
  | c :: cs' => h' ← cover fuel c h; cover_list fuel cs' h'
  end.

(** The place of a node in the ring of its column, seen downwards and
    upwards: a cell has the place of its candidate row, and the header
    comes after the last row and before the first. *)
Definition below (p : ptr) : Z :=
  match p with PCol _ => row_size | PCell r _ => r end.
Definition above (p : ptr) : Z :=
  match p with PCol _ => -1 | PCell r _ => r end.

(** The [down] pointer of a cell leads to a later row or to the header,
    its [up] pointer to an earlier row or to the header.  The
    constructor links the rows in this order, and [cover] keeps it
    whatever the column it is called for. *)
Definition ordered_at (h : Heap) (x : ptr) : Prop :=
  is_cell x → below x < below (down_ h x) ∧ above (up_ h x) < above x.
Definition ordered (h : Heap) : Prop := ∀ x, ordered_at h x.

Global Instance ordered_at_dec h x : Decision (ordered_at h x).
Proof. unfold ordered_at. apply _. Defined.

(** ** The body of [search] *)

(** The body of [search] with the recursive call [search(k + 1)] as the
    parameter [rec]; [n] bounds the loops. *)
Definition search_step (rec : Sudoku -> res Sudoku) (n : nat) (k : Z) (s : Sudoku)
  : res Sudoku :=
  let rt := PCol (root s) in
  if decide (right_ (heap s) rt = rt) then printSolution s
  else
    c ← choose n rt (right_ (heap s) rt) (right_ (heap s) rt) (heap s);
    h1 ← cover n (col_ (heap s) c) (heap s);
    s2 ← search_rows rec n k c (down_ h1 c) (with_heap s h1);
    h3 ← uncover n (col_ (heap s2) c) (heap s2);
    Ok (with_heap s2 h3).

(** ** Sudoku grids *)

(** The number in line [i], position [j] of a grid. *)
Definition cell_at (g : list (list Z)) (i j : Z) : Z :=
  default 0 (g !! Z.to_nat i ≫= fun line => line !! Z.to_nat j).

(** The candidate rows of the clues, cell by cell in the order of the
    two loops of [loadGridAndSolve]. *)
Definition clue_rows (grid : list (list Z)) : list Z :=
  i ← seqZ 0 9; j ← seqZ 0 9;
  if decide (cell_at grid i j ≠ 0) then [81 * i + 9 * j + cell_at grid i j - 1] else [].

(** Each of the digits 1 to 9 occurs once, and only once, in [l]. *)
Definition once_each (l : list Z) : Prop :=
  Forall (fun d => length (filter (fun x => x = d) l) = 1%nat) (seqZ 1 9).

Definition grid_row (g : list (list Z)) (i : Z) : list Z :=
  (fun j => cell_at g i j) <$> seqZ 0 9.
Definition grid_col (g : list (list Z)) (j : Z) : list Z :=
  (fun i => cell_at g i j) <$> seqZ 0 9.
Definition grid_block (g : list (list Z)) (b : Z) : list Z :=
  (fun t => cell_at g (3 * (b / 3) + t / 3) (3 * (b mod 3) + t mod 3)) <$> seqZ 0 9.

(** A solved Sudoku: nine lines of nine numbers in which every row,
    every column and every 3x3 block holds each digit once. *)
Definition valid_sudoku (g : list (list Z)) : Prop :=
  nine_by_nine g ∧
  Forall (fun i => once_each (grid_row g i) ∧ once_each (grid_col g i) ∧
                   once_each (grid_block g i)) (seqZ 0 9).

(** Every clue of [grid] stands in [g] at its place. *)
Definition keeps_clues (grid g : list (list Z)) : Prop :=
  Forall (fun i => Forall (fun j => cell_at grid i j ≠ 0 → cell_at g i j = cell_at grid i j)
                     (seqZ 0 9)) (seqZ 0 9).

Global Instance once_each_dec l : Decision (once_each l).
Proof. unfold once_each. apply _. Defined.
Global Instance valid_sudoku_dec g : Decision (valid_sudoku g).
Proof. unfold valid_sudoku. apply _. Defined.
Global Instance keeps_clues_dec grid g : Decision (keeps_clues grid g).
Proof. unfold keeps_clues. apply _. Defined.

(** The input contract: nine lines of nine numbers from 0 to 9. *)
Definition digits_grid (grid : list (list Z)) : Prop :=
  nine_by_nine grid ∧ Forall (Forall (fun v => 0 <= v <= 9)) grid.

(** No two clues claim the same constraint: the candidate rows of the
    clues have no column in common. *)
Definition clues_compatible (grid : list (list Z)) : Prop :=
  NoDup (clues grid ≫= row_items).

Global Instance digits_grid_dec grid : Decision (digits_grid grid).
Proof. unfold digits_grid. apply _. Defined.
Global Instance clues_compatible_dec grid : Decision (clues_compatible grid).
Proof. unfold clues_compatible. apply _. Defined.

(** The grid has no solution. *)
Definition unsatisfiable (grid : list (list Z)) : Prop :=
  ∀ g, valid_sudoku g → keeps_clues grid g → False.

(** The candidate row [r] is placed in the grid [g]. *)
Definition placed (g : list (list Z)) (r : Z) : Prop :=
  cell_at g (r / 81) ((r / 9) mod 9) = r mod 9 + 1.

(** ** The invariant of the search *)

(** A candidate row all of whose columns are live is present in its
    columns. *)
Definition avail (h : Heap) (Lv : list Z) (V : Z -> list ptr) : Prop :=
  ∀ ρ κ, 0 <= ρ < row_size → 0 <= κ < cells_per_row →
    (∀ d, d ∈ row_items ρ → d ∈ Lv) → PCell ρ κ ∈ V (col_ h (PCell ρ κ)).

(** At a call [search(k)]: the matrix satisfies [Inv], the first [k]
    entries of the trace are the candidate rows [R] chosen so far, no two
    of which share a column, the live columns are the columns of no
    chosen row, and the rows that fit the chosen rows are present. *)
Record SInv (s : Sudoku) (k : Z) (R : list Z) (Lv : list Z) (V : Z -> list ptr) : Prop :=
  mkSInv {
  si_inv : Inv (heap s) Lv V;
  si_root : root s = column_size - 1;
  si_len : length (solution s) = Z.to_nat grid_size;
  si_k : k = Z.of_nat (length R);
  si_trace : ∀ t r, R !! t = Some r → solution s !! t = Some (Some r);
  si_rows : ∀ r, r ∈ R → 0 <= r < row_size;
  si_nodup : NoDup (R ≫= row_items);
  si_live : ∀ c, 0 <= c < constraints → c ∈ Lv ↔ c ∉ R ≫= row_items;
  si_avail : avail (heap s) Lv V }.

(** What a call [search(k)] that was entered with the rows [R] leaves:
    the matrix as it was, the first [k] entries of the trace as they
    were, and some more reported grids: the solved Sudokus in which the
    rows [R] are placed, each of them once. *)
Definition search_post (s s' : Sudoku) (k : Z) (R : list Z) : Prop :=
  heap s' = heap s ∧ root s' = root s ∧ row_count s' = row_count s ∧
  length (solution s') = length (solution s) ∧
  (∀ t, (t < Z.to_nat k)%nat → solution s' !! t = solution s !! t) ∧
  ∃ new, out s' = out s ++ new ∧ NoDup new ∧
         ∀ g, g ∈ new ↔ valid_sudoku g ∧ ∀ r, r ∈ R → placed g r.

(** ** The grid that [printSolution] decodes *)

(** Nine lines of nine cells. *)
Definition grid9 {A} (g : list (list A)) : Prop :=
  length g = 9%nat ∧ Forall (fun line => length line = 9%nat) g.

(** The content of the cell [(i, j)] after the rows [L] have been
    written in this order to a grid that held [acc] there. *)
Fixpoint cellval (L : list Z) (acc : option Z) (i j : Z) : option Z :=
  match L with
  | [] => acc
  | r :: L' =>
      cellval L' (if decide (r `quot` 81 = i ∧ (r `quot` 9) `rem` 9 = j)
                  then Some (r `rem` 9) else acc) i j
  end.

(** ** More example grids *)

(** A grid with compatible clues and no solution: the last cell of the
    first line can only take the digit 9, which its column already
    holds. *)
Definition dead_end_grid : list (list Z) :=
  [[1;2;3; 4;5;6; 7;8;0];
   [0;0;0; 0;0;0; 0;0;9];
   [0;0;0; 0;0;0; 0;0;0];
   [0;0;0; 0;0;0; 0;0;0];
   [0;0;0; 0;0;0; 0;0;0];
   [0;0;0; 0;0;0; 0;0;0];
   [0;0;0; 0;0;0; 0;0;0];
   [0;0;0; 0;0;0; 0;0;0];
   [0;0;0; 0;0;0; 0;0;0]].

(** The solver after the clues of [dead_end_grid] have been loaded. *)
Definition dead_end_state : Sudoku :=
  match load_grid 400 9 dead_end_grid 0 (0, s0) with
  | Ok zs => zs.2
  | _ => s0
  end.

(** The solver after [printSolution] in [solved_state]. *)
Definition printed_state : Sudoku :=
  match printSolution solved_state with
  | Ok s => s
  | _ => solved_state
  end.

(** The solver after the run of [main]. *)
Definition main_result : Sudoku :=
  match loadGridAndSolve 400 main_grid s0 with
  | Ok s => s
  | _ => s0
  end.

(** A full grid with the digit 9 twice in its second line and the
    digit 5 twice in its seventh line. *)
Definition overrun_grid : list (list Z) :=
  [[6;2;3; 7;8;1; 9;5;4];
   [4;8;7; 3;9;5; 1;9;2];
   [1;9;5; 6;4;2; 7;8;3];
   [3;4;1; 9;6;8; 5;2;7];
   [2;7;9; 1;5;4; 8;3;6];
   [5;6;8; 2;3;7; 4;9;1];
   [9;1;2; 5;7;6; 5;4;8];
   [8;5;6; 4;1;3; 2;7;9];
   [7;3;4; 8;2;9; 6;1;5]].

(** The solver after the clues of [overrun_grid] have been loaded. *)
Definition overrun_state : Sudoku :=
  match load_grid 400 9 overrun_grid 0 (0, s0) with
  | Ok zs => zs.2
  | _ => s0
  end.

(** * Reading and writing the matrix *)

Lemma bind_Ok {A B} (m : res A) (f : A -> res B) b :
  m ≫= f = Ok b ↔ ∃ a, m = Ok a ∧ f a = Ok b.
Proof.
  unfold mbind, res_bind. destruct m; split.
  - eauto.
  - intros [a' [[= ->] ?]]. done.
  - done.
  - intros [a' [[=] ?]].
  - done.
  - intros [a' [[=] ?]].
Qed.

Lemma deref_modify f p h q :
  deref (modify f p h) q = if decide (p = q) then f (deref h p) else deref h q.
Proof.
  destruct (decide (p = q)) as [->|Hne].
  - destruct q as [i|r k]; unfold deref, modify; cbn [columns cells];
      by rewrite lookup_total_insert_eq.
  - destruct p as [i|r k], q as [i'|r' k']; unfold deref, modify; cbn [columns cells];
      try done; rewrite lookup_total_insert_ne; congruence.
Qed.

Lemma deref_set_count c v h q : deref (set_count c v h) q = deref h q.
Proof.
  destruct q as [i|r k]; simpl; [|done].
  destruct (decide (c = i)) as [->|Hne].
  - by rewrite lookup_total_insert_eq.
  - by rewrite lookup_total_insert_ne.
Qed.

Lemma get_count_modify f p h c : get_count (modify f p h) c = get_count h c.
Proof.
  unfold get_count. destruct p as [i|r k]; simpl; [|done].
  destruct (decide (i = c)) as [->|Hne].
  - by rewrite lookup_total_insert_eq.
  - by rewrite lookup_total_insert_ne.
Qed.

Lemma get_count_set_count c v h d :
  get_count (set_count c v h) d = if decide (c = d) then v else get_count h d.
Proof.
  unfold get_count, set_count; simpl.
  destruct (decide (c = d)) as [->|Hne].
  - by rewrite lookup_total_insert_eq.
  - by rewrite lookup_total_insert_ne.
Qed.

Ltac field_tac :=
  intros;
  unfold up_, down_, left_, right_, col_, row_,
         set_up, set_down, set_left, set_right, set_col, set_row;
  rewrite ?deref_modify, ?deref_set_count, ?get_count_modify;
  repeat case_decide; subst; simpl; congruence.

Lemma up_set_up p v h q : up_ (set_up p v h) q = if decide (p = q) then v else up_ h q.
Proof. field_tac. Qed.
Lemma down_set_up p v h q : down_ (set_up p v h) q = down_ h q.
Proof. field_tac. Qed.
Lemma left_set_up p v h q : left_ (set_up p v h) q = left_ h q.
Proof. field_tac. Qed.
Lemma right_set_up p v h q : right_ (set_up p v h) q = right_ h q.
Proof. field_tac. Qed.
Lemma col_set_up p v h q : col_ (set_up p v h) q = col_ h q.
Proof. field_tac. Qed.
Lemma row_set_up p v h q : row_ (set_up p v h) q = row_ h q.
Proof. field_tac. Qed.
Lemma count_set_up p v h c : get_count (set_up p v h) c = get_count h c.
Proof. field_tac. Qed.

Lemma up_set_down p v h q : up_ (set_down p v h) q = up_ h q.
Proof. field_tac. Qed.
Lemma down_set_down p v h q : down_ (set_down p v h) q = if decide (p = q) then v else down_ h q.
Proof. field_tac. Qed.
Lemma left_set_down p v h q : left_ (set_down p v h) q = left_ h q.
Proof. field_tac. Qed.
Lemma right_set_down p v h q : right_ (set_down p v h) q = right_ h q.
Proof. field_tac. Qed.
Lemma col_set_down p v h q : col_ (set_down p v h) q = col_ h q.
Proof. field_tac. Qed.
Lemma row_set_down p v h q : row_ (set_down p v h) q = row_ h q.
Proof. field_tac. Qed.
Lemma count_set_down p v h c : get_count (set_down p v h) c = get_count h c.
Proof. field_tac. Qed.

Lemma up_set_left p v h q : up_ (set_left p v h) q = up_ h q.
Proof. field_tac. Qed.
Lemma down_set_left p v h q : down_ (set_left p v h) q = down_ h q.
Proof. field_tac. Qed.
Lemma left_set_left p v h q : left_ (set_left p v h) q = if decide (p = q) then v else left_ h q.
Proof. field_tac. Qed.
Lemma right_set_left p v h q : right_ (set_left p v h) q = right_ h q.
Proof. field_tac. Qed.
Lemma col_set_left p v h q : col_ (set_left p v h) q = col_ h q.
Proof. field_tac. Qed.
Lemma row_set_left p v h q : row_ (set_left p v h) q = row_ h q.
Proof. field_tac. Qed.
Lemma count_set_left p v h c : get_count (set_left p v h) c = get_count h c.
Proof. field_tac. Qed.

Lemma up_set_right p v h q : up_ (set_right p v h) q = up_ h q.
Proof. field_tac. Qed.
Lemma down_set_right p v h q : down_ (set_right p v h) q = down_ h q.
Proof. field_tac. Qed.
Lemma left_set_right p v h q : left_ (set_right p v h) q = left_ h q.
Proof. field_tac. Qed.
Lemma right_set_right p v h q : right_ (set_right p v h) q = if decide (p = q) then v else right_ h q.
Proof. field_tac. Qed.
Lemma col_set_right p v h q : col_ (set_right p v h) q = col_ h q.
Proof. field_tac. Qed.
Lemma row_set_right p v h q : row_ (set_right p v h) q = row_ h q.
Proof. field_tac. Qed.
Lemma count_set_right p v h c : get_count (set_right p v h) c = get_count h c.
Proof. field_tac. Qed.

Lemma up_set_count c v h q : up_ (set_count c v h) q = up_ h q.
Proof. field_tac. Qed.
Lemma down_set_count c v h q : down_ (set_count c v h) q = down_ h q.
Proof. field_tac. Qed.
Lemma left_set_count c v h q : left_ (set_count c v h) q = left_ h q.
Proof. field_tac. Qed.
Lemma right_set_count c v h q : right_ (set_count c v h) q = right_ h q.
Proof. field_tac. Qed.
Lemma col_set_count c v h q : col_ (set_count c v h) q = col_ h q.
Proof. field_tac. Qed.
Lemma row_set_count c v h q : row_ (set_count c v h) q = row_ h q.
Proof. field_tac. Qed.

Create Rewrite HintDb heap.
Hint Rewrite up_set_up down_set_up left_set_up right_set_up col_set_up row_set_up count_set_up
  up_set_down down_set_down left_set_down right_set_down col_set_down row_set_down count_set_down
  up_set_left down_set_left left_set_left right_set_left col_set_left row_set_left count_set_left
  up_set_right down_set_right left_set_right right_set_right col_set_right row_set_right
  count_set_right
  up_set_count down_set_count left_set_count right_set_count col_set_count row_set_count
  get_count_set_count : heap.

(** ** Domains and extensionality *)

Lemma hdom_modify f p h : in_heap h p → hdom (modify f p h) = hdom h.
Proof.
  unfold hdom. destruct p as [i|r k]; simpl; intros Hin; f_equal.
  - rewrite dom_insert_L. apply elem_of_dom in Hin. set_solver.
  - rewrite dom_insert_L. apply elem_of_dom in Hin. set_solver.
Qed.

Lemma hdom_set_count c v h : in_heap h (PCol c) → hdom (set_count c v h) = hdom h.
Proof.
  unfold hdom; simpl. intros Hin; f_equal.
  rewrite dom_insert_L. apply elem_of_dom in Hin. set_solver.
Qed.

Lemma in_heap_hdom h h' p : hdom h = hdom h' → in_heap h p → in_heap h' p.
Proof.
  unfold hdom. intros Heq. inversion Heq as [[H1 H2]].
  destruct p as [i|r k]; simpl; rewrite <- !elem_of_dom; congruence.
Qed.

Lemma heap_ext h h' :
  hdom h = hdom h' →
  (∀ p, deref h p = deref h' p) →
  (∀ c, get_count h c = get_count h' c) →
  h = h'.
Proof.
  intros Hd Hp Hc. destruct h as [cs ce], h' as [cs' ce'].
  unfold hdom in Hd; simpl in Hd. inversion Hd as [[Hd1 Hd2]].
  f_equal.
  - apply map_eq. intros i.
    destruct (cs !! i) as [x|] eqn:E1, (cs' !! i) as [y|] eqn:E2.
    + specialize (Hp (PCol i)). specialize (Hc i).
      unfold get_count in Hc. simpl in Hp, Hc.
      rewrite !lookup_total_alt, E1, E2 in Hp, Hc. simpl in Hp, Hc.
      destruct x, y; simpl in *; congruence.
    + apply (elem_of_dom_2 cs) in E1. rewrite Hd1 in E1.
      apply not_elem_of_dom in E2. done.
    + apply (elem_of_dom_2 cs') in E2. rewrite <- Hd1 in E2.
      apply not_elem_of_dom in E1. done.
    + done.
  - apply map_eq. intros [r k].
    destruct (ce !! (r, k)) as [x|] eqn:E1, (ce' !! (r, k)) as [y|] eqn:E2.
    + specialize (Hp (PCell r k)). simpl in Hp.
      rewrite !lookup_total_alt, E1, E2 in Hp. simpl in Hp. congruence.
    + apply (elem_of_dom_2 ce) in E1. rewrite Hd2 in E1.
      apply not_elem_of_dom in E2. done.
    + apply (elem_of_dom_2 ce') in E2. rewrite <- Hd2 in E2.
      apply not_elem_of_dom in E1. done.
    + done.
Qed.

Lemma deref_fields h h' p :
  up_ h p = up_ h' p → down_ h p = down_ h' p → left_ h p = left_ h' p →
  right_ h p = right_ h' p → col_ h p = col_ h' p → row_ h p = row_ h' p →
  deref h p = deref h' p.
Proof.
  unfold up_, down_, left_, right_, col_, row_.
  destruct (deref h p), (deref h' p); simpl; congruence.
Qed.

(** * Lists *)

Lemma filter_all {A} (P : A → Prop) `{∀ x, Decision (P x)} (l : list A) :
  (∀ x, x ∈ l → P x) → filter P l = l.
Proof.
  induction l as [|x l IH]; intros Hall; [done|].
  rewrite filter_cons_True by (apply Hall; set_solver).
  rewrite IH; [done|]. intros y Hy. apply Hall. set_solver.
Qed.

(** * Doubly linked segments *)

Section chains.
Context (nxt prv : ptr -> ptr).

Lemma chain_snoc a L x z :
  chain nxt prv a (L ++ [x]) z ↔ chain nxt prv a L x ∧ nxt x = z ∧ prv z = x.
Proof.
  revert a. induction L as [|y L IH]; intros a; simpl.
  - tauto.
  - rewrite IH. tauto.
Qed.

Lemma chain_path a L z :
  chain nxt prv a L z → z ∉ L → path nxt (nxt a) L z.
Proof.
  revert a. induction L as [|x L IH]; intros a; simpl.
  - tauto.
  - intros (Hn & Hp & Hc) Hz. apply not_elem_of_cons in Hz as [Hzx HzL].
    split; [done|]. split; [congruence|]. by apply IH.
Qed.

Lemma chain_neighbours a L z x :
  chain nxt prv a L z → x ∈ L → prv (nxt x) = x ∧ nxt (prv x) = x.
Proof.
  revert a. induction L as [|y L IH]; intros a; simpl.
  - intros _ Hx. by apply elem_of_nil in Hx.
  - intros (Hn & Hp & Hc) Hx. apply elem_of_cons in Hx as [->|Hx].
    + split; [|congruence].
      destruct L as [|y' L]; simpl in Hc.
      * destruct Hc as [Hc1 Hc2]. congruence.
      * destruct Hc as (Hc1 & Hc2 & _). congruence.
    + eapply IH; eauto.
Qed.

Lemma chain_prev_in a L z x :
  chain nxt prv a L z → x ∈ L → prv x ∈ a :: L.
Proof.
  revert a. induction L as [|y L IH]; intros a; simpl.
  - intros _ Hx. by apply elem_of_nil in Hx.
  - intros (Hn & Hp & Hc) Hx. apply elem_of_cons in Hx as [->|Hx].
    + rewrite Hp. set_solver.
    + apply elem_of_cons; right. eapply IH; eauto.
Qed.

Lemma chain_next_in a L z x :
  chain nxt prv a L z → x ∈ L → nxt x ∈ L ++ [z].
Proof.
  revert a. induction L as [|y L IH]; intros a; simpl.
  - intros _ Hx. by apply elem_of_nil in Hx.
  - intros (Hn & Hp & Hc) Hx. apply elem_of_cons in Hx as [->|Hx].
    + apply elem_of_cons; right.
      destruct L as [|y' L]; simpl in *.
      * destruct Hc as [-> _]. set_solver.
      * destruct Hc as (-> & _). set_solver.
    + apply elem_of_cons; right. eapply IH; eauto.
Qed.
End chains.

Lemma chain_reverse nxt prv a L z :
  chain nxt prv a L z → chain prv nxt z (reverse L) a.
Proof.
  revert a. induction L as [|x L IH]; intros a.
  - simpl. tauto.
  - intros (Hn & Hp & Hc). rewrite reverse_cons. apply chain_snoc.
    split; [by apply IH|]. done.
Qed.

Lemma chain_reverse_path nxt prv a L z :
  chain nxt prv a L z → a ∉ L → path prv (prv z) (reverse L) a.
Proof.
  intros Hc Ha. apply chain_reverse in Hc. eapply chain_path; [exact Hc|].
  by rewrite elem_of_reverse.
Qed.

Lemma chain_ext nxt prv nxt' prv' a L z :
  (∀ x, x ∈ a :: L → nxt' x = nxt x) →
  (∀ x, x ∈ L ++ [z] → prv' x = prv x) →
  chain nxt prv a L z → chain nxt' prv' a L z.
Proof.
  revert a. induction L as [|y L IH]; intros a Hn Hp; simpl.
  - intros [H1 H2]. split.
    + rewrite Hn; [done|]. set_solver.
    + rewrite Hp; [done|]. set_solver.
  - intros (H1 & H2 & Hc). split; [|split].
    + rewrite Hn; [done|]. set_solver.
    + rewrite Hp; [done|]. set_solver.
    + apply IH; [| |done].
      * intros x Hx. apply Hn. set_solver.
      * intros x Hx. apply Hp. set_solver.
Qed.

(** Taking [j] out of a segment: the effect of
    [j->next->prev = j->prev; j->prev->next = j->next]. *)
Lemma chain_unlink nxt prv nxt' prv' j a L z :
  (∀ x, nxt' x = if decide (x = prv j) then nxt j else nxt x) →
  (∀ x, prv' x = if decide (x = nxt j) then prv j else prv x) →
  chain nxt prv a L z → NoDup (a :: L) → z ∉ L → j ∈ L →
  chain nxt' prv' a (filter (λ x, x ≠ j) L) z.
Proof.
  intros Hn Hp. revert a. induction L as [|x L IH]; intros a Hc Hnd Hz Hj.
  - by apply elem_of_nil in Hj.
  - simpl in Hc. destruct Hc as (Hax & Hxa & Hc).
    apply NoDup_cons in Hnd as [Ha Hnd].
    pose proof Hnd as Hnd'. apply NoDup_cons in Hnd' as [Hx HndL].
    apply not_elem_of_cons in Hz as [Hzx HzL].
    apply not_elem_of_cons in Ha as [Hax' HaL].
    destruct (decide (x = j)) as [->|Hxj].
    + (* the first node is removed *)
      rewrite filter_cons_False by (intros ?; done).
      assert (Hfil : filter (λ x, x ≠ j) L = L).
      { apply filter_all. intros y Hy ->. done. }
      rewrite Hfil.
      destruct L as [|y L]; simpl in Hc |- *.
      * destruct Hc as [Hjz Hzj]. split.
        -- rewrite Hn, decide_True by done. done.
        -- rewrite Hp, decide_True by done. done.
      * destruct Hc as (Hjy & Hyj & Hc).
        split; [|split].
        -- rewrite Hn, decide_True by done. done.
        -- rewrite Hp, decide_True by done. done.
        -- eapply chain_ext; [| |exact Hc].
           ++ intros w Hw. rewrite Hn, decide_False; [done|].
              rewrite Hxa. intros ->. set_solver.
           ++ intros w Hw. rewrite Hp, decide_False; [done|].
              rewrite Hjy. intros ->.
              apply elem_of_app in Hw as [Hw|Hw].
              ** apply NoDup_cons in HndL as [HyL _]. done.
              ** apply list_elem_of_singleton in Hw. set_solver.
    + (* the first node stays *)
      apply elem_of_cons in Hj as [->|Hj]; [done|].
      rewrite filter_cons_True by done. simpl.
      split; [|split].
      * rewrite Hn, decide_False; [done|].
        intros ->. pose proof (chain_prev_in _ _ _ _ _ _ Hc Hj) as Hin. set_solver.
      * rewrite Hp, decide_False; [done|].
        intros ->. pose proof (chain_next_in _ _ _ _ _ _ Hc Hj) as Hin.
        apply elem_of_app in Hin as [Hin|Hin]; [done|].
        apply list_elem_of_singleton in Hin. done.
      * apply IH; try done.
Qed.

(** * The elementary steps of [cover] and [uncover] *)

Ltac heap_simp := autorewrite with heap in *.
Ltac heap_cases := repeat (case_decide; subst; try done; try congruence).

(** ** Unlinking and relinking one cell *)

Lemma up_unlink_cell j h x :
  up_ (unlink_cell j h) x = if decide (x = down_ h j) then up_ h j else up_ h x.
Proof. unfold unlink_cell. heap_simp. heap_cases. Qed.

Lemma down_unlink_cell j h x :
  down_ (unlink_cell j h) x = if decide (x = up_ h j) then down_ h j else down_ h x.
Proof. unfold unlink_cell. heap_simp. heap_cases. Qed.

Lemma left_unlink_cell j h x : left_ (unlink_cell j h) x = left_ h x.
Proof. unfold unlink_cell. heap_simp. done. Qed.
Lemma right_unlink_cell j h x : right_ (unlink_cell j h) x = right_ h x.
Proof. unfold unlink_cell. heap_simp. done. Qed.
Lemma col_unlink_cell j h x : col_ (unlink_cell j h) x = col_ h x.
Proof. unfold unlink_cell. heap_simp. done. Qed.
Lemma row_unlink_cell j h x : row_ (unlink_cell j h) x = row_ h x.
Proof. unfold unlink_cell. heap_simp. done. Qed.
Lemma count_unlink_cell j h c :
  get_count (unlink_cell j h) c =
  if decide (c = col_ h j) then get_count h c - 1 else get_count h c.
Proof. unfold unlink_cell. heap_simp. heap_cases. Qed.

Lemma up_relink_cell j h x :
  up_ (relink_cell j h) x = if decide (x = down_ h j) then j else up_ h x.
Proof. unfold relink_cell. heap_simp. heap_cases. Qed.

Lemma down_relink_cell j h x :
  down_ (relink_cell j h) x =
  if decide (x = if decide (down_ h j = j) then j else up_ h j) then j else down_ h x.
Proof. unfold relink_cell. heap_simp. heap_cases. Qed.

Lemma left_relink_cell j h x : left_ (relink_cell j h) x = left_ h x.
Proof. unfold relink_cell. heap_simp. done. Qed.
Lemma right_relink_cell j h x : right_ (relink_cell j h) x = right_ h x.
Proof. unfold relink_cell. heap_simp. done. Qed.
Lemma col_relink_cell j h x : col_ (relink_cell j h) x = col_ h x.
Proof. unfold relink_cell. heap_simp. done. Qed.
Lemma row_relink_cell j h x : row_ (relink_cell j h) x = row_ h x.
Proof. unfold relink_cell. heap_simp. done. Qed.
Lemma count_relink_cell j h c :
  get_count (relink_cell j h) c =
  if decide (c = col_ h j) then get_count h c + 1 else get_count h c.
Proof. unfold relink_cell. heap_simp. heap_cases. Qed.

Lemma hdom_unlink_cell j h :
  in_heap h (down_ h j) → in_heap h (up_ h j) → in_heap h (PCol (col_ h j)) →
  hdom (unlink_cell j h) = hdom h.
Proof.
  intros Hd Hu Hc. unfold unlink_cell.
  assert (E1 : hdom (set_up (down_ h j) (up_ h j) h) = hdom h) by by apply hdom_modify.
  set (h1 := set_up (down_ h j) (up_ h j) h) in *.
  assert (E2 : hdom (set_down (up_ h1 j) (down_ h1 j) h1) = hdom h).
  { rewrite <- E1. apply hdom_modify. apply (in_heap_hdom h); [done|].
    subst h1. heap_simp. heap_cases. }
  set (h2 := set_down (up_ h1 j) (down_ h1 j) h1) in *.
  rewrite <- E2. apply hdom_set_count. apply (in_heap_hdom h); [done|].
  subst h2 h1. heap_simp. done.
Qed.

Lemma hdom_relink_cell j h :
  in_heap h (down_ h j) → in_heap h (up_ h j) → in_heap h j → in_heap h (PCol (col_ h j)) →
  hdom (relink_cell j h) = hdom h.
Proof.
  intros Hd Hu Hj Hc. unfold relink_cell.
  assert (E1 : hdom (set_count (col_ h j) (get_count h (col_ h j) + 1) h) = hdom h)
    by by apply hdom_set_count.
  set (h1 := set_count (col_ h j) (get_count h (col_ h j) + 1) h) in *.
  assert (E2 : hdom (set_up (down_ h1 j) j h1) = hdom h).
  { rewrite <- E1. apply hdom_modify. apply (in_heap_hdom h); [done|].
    subst h1. heap_simp. done. }
  set (h2 := set_up (down_ h1 j) j h1) in *.
  rewrite <- E2. apply hdom_modify. apply (in_heap_hdom h); [done|].
  subst h2 h1. heap_simp. heap_cases.
Qed.

Create Rewrite HintDb steps.
Hint Rewrite up_unlink_cell down_unlink_cell left_unlink_cell right_unlink_cell
  col_unlink_cell row_unlink_cell count_unlink_cell
  up_relink_cell down_relink_cell left_relink_cell right_relink_cell
  col_relink_cell row_relink_cell count_relink_cell : steps.

(** [relink_cell] undoes [unlink_cell] on a cell that sits in its ring. *)
Lemma relink_unlink_cell j h :
  linked h j →
  in_heap h (down_ h j) → in_heap h (up_ h j) → in_heap h j → in_heap h (PCol (col_ h j)) →
  relink_cell j (unlink_cell j h) = h.
Proof.
  intros [Hl1 Hl2] Hd Hu Hj Hc.
  assert (Hdom : hdom (unlink_cell j h) = hdom h) by by apply hdom_unlink_cell.
  apply heap_ext.
  - rewrite <- Hdom. apply hdom_relink_cell.
    + apply (in_heap_hdom h); [done|]. autorewrite with steps. heap_cases.
    + apply (in_heap_hdom h); [done|]. autorewrite with steps. heap_cases.
    + by apply (in_heap_hdom h).
    + apply (in_heap_hdom h); [done|]. autorewrite with steps. done.
  - intros p. apply deref_fields; autorewrite with steps; try done.
    + heap_cases.
    + heap_cases.
  - intros c. autorewrite with steps. heap_cases. lia.
Qed.

(** Unlinking another cell does not disturb a cell that sits in its ring. *)
Lemma linked_unlink_cell j j' h :
  linked h j → linked h j' → j ≠ j' → linked (unlink_cell j' h) j.
Proof.
  intros [H1 H2] [H1' H2'] Hne. unfold linked. autorewrite with steps.
  split; heap_cases.
Qed.

(** ** Unlinking and relinking a column header *)

Lemma left_unlink_header c h x :
  left_ (unlink_header c h) x = if decide (x = right_ h c) then left_ h c else left_ h x.
Proof. unfold unlink_header. heap_simp. heap_cases. Qed.
Lemma right_unlink_header c h x :
  right_ (unlink_header c h) x = if decide (x = left_ h c) then right_ h c else right_ h x.
Proof. unfold unlink_header. heap_simp. heap_cases. Qed.
Lemma up_unlink_header c h x : up_ (unlink_header c h) x = up_ h x.
Proof. unfold unlink_header. heap_simp. done. Qed.
Lemma down_unlink_header c h x : down_ (unlink_header c h) x = down_ h x.
Proof. unfold unlink_header. heap_simp. done. Qed.
Lemma col_unlink_header c h x : col_ (unlink_header c h) x = col_ h x.
Proof. unfold unlink_header. heap_simp. done. Qed.
Lemma row_unlink_header c h x : row_ (unlink_header c h) x = row_ h x.
Proof. unfold unlink_header. heap_simp. done. Qed.
Lemma count_unlink_header c h d : get_count (unlink_header c h) d = get_count h d.
Proof. unfold unlink_header. heap_simp. done. Qed.

Lemma left_relink_header c h x :
  left_ (relink_header c h) x = if decide (x = right_ h c) then c else left_ h x.
Proof. unfold relink_header. heap_simp. heap_cases. Qed.
Lemma right_relink_header c h x :
  right_ (relink_header c h) x =
  if decide (x = if decide (right_ h c = c) then c else left_ h c) then c else right_ h x.
Proof. unfold relink_header. heap_simp. heap_cases. Qed.
Lemma up_relink_header c h x : up_ (relink_header c h) x = up_ h x.
Proof. unfold relink_header. heap_simp. done. Qed.
Lemma down_relink_header c h x : down_ (relink_header c h) x = down_ h x.
Proof. unfold relink_header. heap_simp. done. Qed.
Lemma col_relink_header c h x : col_ (relink_header c h) x = col_ h x.
Proof. unfold relink_header. heap_simp. done. Qed.
Lemma row_relink_header c h x : row_ (relink_header c h) x = row_ h x.
Proof. unfold relink_header. heap_simp. done. Qed.
Lemma count_relink_header c h d : get_count (relink_header c h) d = get_count h d.
Proof. unfold relink_header. heap_simp. done. Qed.

Hint Rewrite left_unlink_header right_unlink_header up_unlink_header down_unlink_header
  col_unlink_header row_unlink_header count_unlink_header
  left_relink_header right_relink_header up_relink_header down_relink_header
  col_relink_header row_relink_header count_relink_header : steps.

Lemma hdom_unlink_header c h :
  in_heap h (right_ h c) → in_heap h (left_ h c) → hdom (unlink_header c h) = hdom h.
Proof.
  intros Hr Hl. unfold unlink_header.
  assert (E1 : hdom (set_left (right_ h c) (left_ h c) h) = hdom h) by by apply hdom_modify.
  set (h1 := set_left (right_ h c) (left_ h c) h) in *.
  rewrite <- E1. apply hdom_modify. apply (in_heap_hdom h); [done|].
  subst h1. heap_simp. heap_cases.
Qed.

Lemma hdom_relink_header c h :
  in_heap h (right_ h c) → in_heap h (left_ h c) → in_heap h c →
  hdom (relink_header c h) = hdom h.
Proof.
  intros Hr Hl Hc. unfold relink_header.
  assert (E1 : hdom (set_left (right_ h c) c h) = hdom h) by by apply hdom_modify.
  set (h1 := set_left (right_ h c) c h) in *.
  rewrite <- E1. apply hdom_modify. apply (in_heap_hdom h); [done|].
  subst h1. heap_simp. heap_cases.
Qed.

Lemma relink_unlink_header c h :
  left_ h (right_ h c) = c → right_ h (left_ h c) = c →
  in_heap h (right_ h c) → in_heap h (left_ h c) → in_heap h c →
  relink_header c (unlink_header c h) = h.
Proof.
  intros Hl1 Hl2 Hr Hl Hc.
  assert (Hdom : hdom (unlink_header c h) = hdom h) by by apply hdom_unlink_header.
  apply heap_ext.
  - rewrite <- Hdom. apply hdom_relink_header.
    + apply (in_heap_hdom h); [done|]. autorewrite with steps. heap_cases.
    + apply (in_heap_hdom h); [done|]. autorewrite with steps. heap_cases.
    + by apply (in_heap_hdom h).
  - intros p. apply deref_fields; autorewrite with steps; try done.
    + heap_cases.
    + heap_cases.
  - intros d. autorewrite with steps. done.
Qed.

(** * The constructed matrix *)

Lemma new_Sudoku_eq : new_Sudoku = Ok s0.
Proof.
  assert (H : match new_Sudoku with Ok _ => True | _ => False end)
    by (vm_compute; exact I).
  unfold s0. destruct new_Sudoku; [reflexivity|contradiction|contradiction].
Qed.

Global Opaque s0.

Lemma constructed_s0 : constructed s0.
Proof. apply (bool_decide_unpack _). vm_compute. exact I. Qed.

Lemma valid_all_ptrs p : valid_ptr p → p ∈ all_ptrs.
Proof.
  unfold all_ptrs. destruct p as [i|r k]; intros Hv; unfold valid_ptr in Hv;
    apply elem_of_app.
  - left. apply list_elem_of_fmap. exists i. split; [done|].
    apply elem_of_seqZ. lia.
  - right. apply list_elem_of_bind. exists r. split.
    + apply list_elem_of_bind. exists k. split; [set_solver|].
      apply elem_of_seqZ. lia.
    + apply elem_of_seqZ. lia.
Qed.

Lemma shape_at_h0 p : valid_ptr p → shape_at h0 p.
Proof.
  intros Hv. destruct constructed_s0 as (_ & _ & _ & _ & Hs & _).
  rewrite Forall_forall in Hs. apply Hs. by apply valid_all_ptrs.
Qed.

Lemma shape_h0 : shape h0.
Proof.
  split.
  - reflexivity.
  - intros c Hc.
    pose proof (shape_at_h0 (PCol c) Hc) as (_ & _ & _ & _ & _ & H & _). exact H.
  - intros r k Hr Hk.
    pose proof (shape_at_h0 (PCell r k) (conj Hr Hk)) as (_ & _ & _ & _ & _ & H & _).
    exact H.
  - intros r k Hr Hk.
    pose proof (shape_at_h0 (PCell r k) (conj Hr Hk)) as (_ & _ & _ & _ & _ & _ & H & _).
    exact H.
  - intros r k Hr Hk.
    pose proof (shape_at_h0 (PCell r k) (conj Hr Hk)) as (_ & _ & _ & _ & _ & _ & _ & H & _).
    exact H.
  - intros r k Hr Hk.
    pose proof (shape_at_h0 (PCell r k) (conj Hr Hk)) as (_ & _ & _ & _ & _ & _ & _ & _ & H).
    exact H.
  - intros p Hp. pose proof (shape_at_h0 p Hp) as (_ & H1 & H2 & H3 & H4 & _).
    exact (conj H1 (conj H2 (conj H3 H4))).
  - intros c Hc.
    pose proof (shape_at_h0 (PCol c) Hc) as (_ & _ & _ & _ & _ & _ & H).
    destruct (left_ h0 (PCol c)) as [l|], (right_ h0 (PCol c)) as [r'|];
      try contradiction.
    exists l, r'. tauto.
Qed.

Lemma shape_in_heap h p : shape h → valid_ptr p → in_heap h p.
Proof.
  intros Hs Hv. apply (in_heap_hdom h0); [symmetry; apply Hs|].
  pose proof (shape_at_h0 p Hv) as (H & _). exact H.
Qed.

Lemma ring_at_h0 c : 0 <= c < constraints → ring_at h0 V0 c.
Proof.
  intros Hc. destruct constructed_s0 as (_ & _ & _ & _ & _ & Hr & _).
  rewrite Forall_forall in Hr. apply Hr. apply elem_of_seqZ. lia.
Qed.

Lemma Inv_h0 : Inv h0 (seqZ 0 constraints) V0.
Proof.
  split.
  - apply shape_h0.
  - split; [|split].
    + pose proof constructed_s0 as (_ & _ & _ & _ & _ & _ & H & _). exact H.
    + apply NoDup_seqZ.
    + intros c Hc. apply elem_of_seqZ in Hc. lia.
  - intros c Hc. apply elem_of_seqZ in Hc.
    assert (Hc' : 0 <= c < constraints) by lia.
    pose proof (ring_at_h0 c Hc') as (H1 & H2 & H3 & H4 & H5).
    split; [exact H1|]. split; [exact H2|]. split; [|exact (conj H4 H5)].
    intros x Hx. rewrite Forall_forall in H3. pose proof (H3 x Hx) as [H _]. exact H.
  - intros c x y Hc Hx Hy. apply elem_of_seqZ in Hc.
    assert (Hc' : 0 <= c < constraints) by lia.
    pose proof (ring_at_h0 c Hc') as (_ & _ & H3 & _).
    rewrite Forall_forall in H3. pose proof (H3 x Hx) as [_ H].
    rewrite Forall_forall in H. pose proof (H y Hy) as [Ha Hb].
    split; [|exact Hb]. apply elem_of_seqZ. lia.
Qed.

Lemma V0_length c : 0 <= c < constraints → length (V0 c) = 9%nat.
Proof.
  intros Hc. destruct constructed_s0 as (_ & _ & _ & _ & _ & _ & _ & H).
  rewrite Forall_forall in H. apply H. apply elem_of_seqZ. lia.
Qed.

Lemma row_items_ok r : 0 <= r < row_size → items_ok r.
Proof.
  assert (H : Forall items_ok (seqZ 0 row_size)).
  { apply (bool_decide_unpack _). vm_compute. exact I. }
  intros Hr. rewrite Forall_forall in H. apply H. apply elem_of_seqZ. lia.
Qed.

(** * The static part of the matrix *)

Ltac consts := unfold column_size, constraints, row_size, cells_per_row, grid_size in *.

Lemma is_cell_valid p : is_cell p → valid_ptr p.
Proof. destruct p; simpl; tauto. Qed.

Lemma mates_spec r k y :
  0 <= k < 4 →
  y ∈ mates (PCell r k) ↔ ∃ k', y = PCell r k' ∧ 0 <= k' < 4 ∧ k' ≠ k.
Proof.
  intros Hk.
  assert (Hcases : k = 0 ∨ k = 1 ∨ k = 2 ∨ k = 3) by lia.
  destruct Hcases as [-> | [-> | [-> | ->]]]; cbn [mates];
    change ((0 + 1) `rem` 4) with 1; change ((0 + 2) `rem` 4) with 2;
    change ((0 + 3) `rem` 4) with 3; change ((1 + 1) `rem` 4) with 2;
    change ((1 + 2) `rem` 4) with 3; change ((1 + 3) `rem` 4) with 0;
    change ((2 + 1) `rem` 4) with 3; change ((2 + 2) `rem` 4) with 0;
    change ((2 + 3) `rem` 4) with 1; change ((3 + 1) `rem` 4) with 0;
    change ((3 + 2) `rem` 4) with 1; change ((3 + 3) `rem` 4) with 2;
    rewrite !elem_of_cons, elem_of_nil; split.
  all: try (intros [-> | [-> | [-> | []]]]; eexists; (split; [reflexivity | lia])).
  all: intros (k' & -> & Hk' & Hne);
    assert (Hc : k' = 0 ∨ k' = 1 ∨ k' = 2 ∨ k' = 3) by lia;
    destruct Hc as [-> | [-> | [-> | ->]]]; try lia; tauto.
Qed.

Lemma mates_is_cell x y : is_cell x → y ∈ mates x → is_cell y.
Proof.
  destruct x as [|r k]; [done|]. intros [Hr Hk] Hy. consts.
  apply mates_spec in Hy as (k' & -> & Hk' & _); [|done]. simpl. consts. lia.
Qed.

Lemma mates_sym x y : is_cell x → y ∈ mates x → x ∈ mates y.
Proof.
  destruct x as [|r k]; [done|]. intros [Hr Hk] Hy. consts.
  apply mates_spec in Hy as (k' & -> & Hk' & Hne); [|done].
  apply mates_spec; [done|]. exists k. split; [done|]. lia.
Qed.

Lemma mates_trans x y z :
  is_cell x → y ∈ mates x → z ∈ mates y → z = x ∨ z ∈ mates x.
Proof.
  destruct x as [|r k]; [done|]. intros [Hr Hk] Hy Hz. consts.
  apply mates_spec in Hy as (k' & -> & Hk' & Hne); [|done].
  apply mates_spec in Hz as (k'' & -> & Hk'' & Hne'); [|done].
  destruct (decide (k'' = k)) as [->|Hd]; [by left|].
  right. apply mates_spec; [done|]. exists k''. done.
Qed.

Lemma mates_NoDup x : is_cell x → NoDup (mates x).
Proof.
  destruct x as [|r k]; [done|]. intros [Hr Hk]. consts.
  assert (Hcases : k = 0 ∨ k = 1 ∨ k = 2 ∨ k = 3) by lia.
  destruct Hcases as [-> | [-> | [-> | ->]]]; cbn [mates];
    repeat (apply NoDup_cons; split; [rewrite ?elem_of_cons, elem_of_nil; intros H;
      repeat (destruct H as [H|H]; [discriminate H|]); done|]); apply NoDup_nil; done.
Qed.

Section shape.
Context (h : Heap) (Hs : shape h).

Lemma cell_col_range x : is_cell x → 0 <= col_ h x < constraints.
Proof.
  destruct x as [|r k]; [done|]. intros [Hr Hk].
  pose proof (sh_col_cell h Hs r k Hr Hk) as Hc.
  destruct (row_items_ok r Hr) as (_ & Hall & _).
  rewrite Forall_forall in Hall. apply Hall.
  eapply list_elem_of_lookup_2. exact Hc.
Qed.

Lemma mates_col_ne x y : is_cell x → y ∈ mates x → col_ h y ≠ col_ h x.
Proof.
  destruct x as [|r k]; [done|]. intros [Hr Hk] Hy.
  pose proof Hk as Hk4. consts.
  apply mates_spec in Hy as (k' & -> & Hk' & Hne); [|done].
  pose proof (sh_col_cell h Hs r k Hr Hk) as Hc.
  assert (Hk'' : 0 <= k' < cells_per_row) by (consts; lia).
  pose proof (sh_col_cell h Hs r k' Hr Hk'') as Hc'.
  destruct (row_items_ok r Hr) as (Hnd & _ & _).
  intros Heq. rewrite Heq in Hc'.
  pose proof (NoDup_lookup _ _ _ _ Hnd Hc Hc') as E. lia.
Qed.

Lemma valid_col_range p : valid_ptr p → 0 <= col_ h p < column_size.
Proof.
  destruct p as [c|r k]; intros Hv.
  - rewrite (sh_col_hdr h Hs c Hv). exact Hv.
  - pose proof (cell_col_range (PCell r k) Hv). consts. lia.
Qed.

Lemma valid_up p : valid_ptr p → valid_ptr (up_ h p).
Proof. intros Hv. by destruct (sh_vert h Hs p Hv) as (? & _). Qed.
Lemma valid_down p : valid_ptr p → valid_ptr (down_ h p).
Proof. intros Hv. by destruct (sh_vert h Hs p Hv) as (_ & ? & _). Qed.
Lemma col_up p : valid_ptr p → col_ h (up_ h p) = col_ h p.
Proof. intros Hv. by destruct (sh_vert h Hs p Hv) as (_ & _ & ? & _). Qed.
Lemma col_down p : valid_ptr p → col_ h (down_ h p) = col_ h p.
Proof. intros Hv. by destruct (sh_vert h Hs p Hv) as (_ & _ & _ & ?). Qed.

Lemma shape_unlink_cell j : is_cell j → shape (unlink_cell j h).
Proof.
  intros Hj. pose proof (is_cell_valid j Hj) as Hv.
  pose proof (valid_up j Hv) as Hu. pose proof (valid_down j Hv) as Hd.
  pose proof (col_up j Hv) as Hcu. pose proof (col_down j Hv) as Hcd.
  split.
  - rewrite hdom_unlink_cell; [apply Hs| | |].
    + by apply shape_in_heap.
    + by apply shape_in_heap.
    + apply shape_in_heap; [done|]. by apply valid_col_range.
  - intros c Hc. autorewrite with steps. by apply sh_col_hdr.
  - intros r k Hr Hk. autorewrite with steps. by apply sh_col_cell.
  - intros r k Hr Hk. autorewrite with steps. by apply sh_row.
  - intros r k Hr Hk. autorewrite with steps. by apply sh_right.
  - intros r k Hr Hk. autorewrite with steps. by apply sh_left.
  - intros p Hp. autorewrite with steps.
    pose proof (sh_vert h Hs p Hp) as (H1 & H2 & H3 & H4).
    repeat case_decide; subst; repeat split; try done; congruence.
  - intros c Hc. autorewrite with steps. by apply sh_horiz.
Qed.

Lemma shape_relink_cell j : is_cell j → shape (relink_cell j h).
Proof.
  intros Hj. pose proof (is_cell_valid j Hj) as Hv.
  pose proof (valid_up j Hv) as Hu. pose proof (valid_down j Hv) as Hd.
  pose proof (col_up j Hv) as Hcu. pose proof (col_down j Hv) as Hcd.
  split.
  - rewrite hdom_relink_cell; [apply Hs| | | |].
    + by apply shape_in_heap.
    + by apply shape_in_heap.
    + by apply shape_in_heap.
    + apply shape_in_heap; [done|]. by apply valid_col_range.
  - intros c Hc. autorewrite with steps. by apply sh_col_hdr.
  - intros r k Hr Hk. autorewrite with steps. by apply sh_col_cell.
  - intros r k Hr Hk. autorewrite with steps. by apply sh_row.
  - intros r k Hr Hk. autorewrite with steps. by apply sh_right.
  - intros r k Hr Hk. autorewrite with steps. by apply sh_left.
  - intros p Hp. autorewrite with steps.
    pose proof (sh_vert h Hs p Hp) as (H1 & H2 & H3 & H4).
    repeat case_decide; subst; repeat split; try done; congruence.
  - intros c Hc. autorewrite with steps. by apply sh_horiz.
Qed.

Lemma shape_unlink_header c : 0 <= c < column_size → shape (unlink_header (PCol c) h).
Proof.
  intros Hc. destruct (sh_horiz h Hs c Hc) as (l & r & Hl & Hr & Hlr & Hrr).
  split.
  - rewrite hdom_unlink_header; [apply Hs| |].
    + rewrite Hr. by apply shape_in_heap.
    + rewrite Hl. by apply shape_in_heap.
  - intros c' Hc'. autorewrite with steps. by apply sh_col_hdr.
  - intros r' k Hr' Hk. autorewrite with steps. by apply sh_col_cell.
  - intros r' k Hr' Hk. autorewrite with steps. by apply sh_row.
  - intros r' k Hr' Hk. autorewrite with steps. rewrite ?Hl, ?Hr.
    rewrite decide_False by done. by apply sh_right.
  - intros r' k Hr' Hk. autorewrite with steps. rewrite ?Hl, ?Hr.
    rewrite decide_False by done. by apply sh_left.
  - intros p Hp. autorewrite with steps. by apply sh_vert.
  - intros c' Hc'. autorewrite with steps. rewrite ?Hl, ?Hr.
    destruct (sh_horiz h Hs c' Hc') as (l' & r' & Hl' & Hr' & Hlr' & Hrr').
    repeat case_decide; subst; eauto 10.
Qed.

Lemma shape_relink_header c : 0 <= c < column_size → shape (relink_header (PCol c) h).
Proof.
  intros Hc. destruct (sh_horiz h Hs c Hc) as (l & r & Hl & Hr & Hlr & Hrr).
  split.
  - rewrite hdom_relink_header; [apply Hs| | |].
    + rewrite Hr. by apply shape_in_heap.
    + rewrite Hl. by apply shape_in_heap.
    + by apply shape_in_heap.
  - intros c' Hc'. autorewrite with steps. by apply sh_col_hdr.
  - intros r' k Hr' Hk. autorewrite with steps. by apply sh_col_cell.
  - intros r' k Hr' Hk. autorewrite with steps. by apply sh_row.
  - intros r' k Hr' Hk. autorewrite with steps. rewrite ?Hl, ?Hr.
    repeat case_decide; try done; by apply sh_right.
  - intros r' k Hr' Hk. autorewrite with steps. rewrite ?Hl, ?Hr.
    repeat case_decide; try done; by apply sh_left.
  - intros p Hp. autorewrite with steps. by apply sh_vert.
  - intros c' Hc'. autorewrite with steps. rewrite ?Hl, ?Hr.
    destruct (sh_horiz h Hs c' Hc') as (l' & r' & Hl' & Hr' & Hlr' & Hrr').
    repeat case_decide; subst; eauto 10.
Qed.
End shape.

(** * The loops of [cover] and [uncover] *)

Lemma path_ext nxt nxt' a L z :
  (∀ y, y ∈ L → nxt' y = nxt y) → path nxt a L z → path nxt' a L z.
Proof.
  revert a. induction L as [|x L IH]; intros a Hext; simpl; [done|].
  intros (-> & Hne & Hp). split; [done|]. split; [done|].
  rewrite Hext by set_solver. apply IH; [|done].
  intros y Hy. apply Hext. set_solver.
Qed.

Lemma unlink_all_cons t T h : unlink_all (t :: T) h = unlink_all T (unlink_cell t h).
Proof. done. Qed.
Lemma unlink_all_app T1 T2 h : unlink_all (T1 ++ T2) h = unlink_all T2 (unlink_all T1 h).
Proof. unfold unlink_all. by rewrite foldl_app. Qed.
Lemma relink_all_cons t T h : relink_all (t :: T) h = relink_all T (relink_cell t h).
Proof. done. Qed.
Lemma relink_all_app T1 T2 h : relink_all (T1 ++ T2) h = relink_all T2 (relink_all T1 h).
Proof. unfold relink_all. by rewrite foldl_app. Qed.

(** ** What a sequence of steps leaves alone *)

Lemma unlink_all_static T h :
  (∀ x, left_ (unlink_all T h) x = left_ h x) ∧
  (∀ x, right_ (unlink_all T h) x = right_ h x) ∧
  (∀ x, col_ (unlink_all T h) x = col_ h x) ∧
  (∀ x, row_ (unlink_all T h) x = row_ h x).
Proof.
  revert h. induction T as [|t T IH]; intros h; [done|].
  rewrite unlink_all_cons. destruct (IH (unlink_cell t h)) as (H1 & H2 & H3 & H4).
  repeat split; intros x; rewrite ?H1, ?H2, ?H3, ?H4; autorewrite with steps; done.
Qed.

Lemma relink_all_static T h :
  (∀ x, left_ (relink_all T h) x = left_ h x) ∧
  (∀ x, right_ (relink_all T h) x = right_ h x) ∧
  (∀ x, col_ (relink_all T h) x = col_ h x) ∧
  (∀ x, row_ (relink_all T h) x = row_ h x).
Proof.
  revert h. induction T as [|t T IH]; intros h; [done|].
  rewrite relink_all_cons. destruct (IH (relink_cell t h)) as (H1 & H2 & H3 & H4).
  repeat split; intros x; rewrite ?H1, ?H2, ?H3, ?H4; autorewrite with steps; done.
Qed.

Lemma shape_unlink_all T h :
  shape h → (∀ t, t ∈ T → is_cell t) → shape (unlink_all T h).
Proof.
  revert h. induction T as [|t T IH]; intros h Hs HT; [done|].
  rewrite unlink_all_cons. apply IH.
  - apply shape_unlink_cell; [done|]. apply HT. set_solver.
  - intros t' Ht'. apply HT. set_solver.
Qed.

Lemma shape_relink_all T h :
  shape h → (∀ t, t ∈ T → is_cell t) → shape (relink_all T h).
Proof.
  revert h. induction T as [|t T IH]; intros h Hs HT; [done|].
  rewrite relink_all_cons. apply IH.
  - apply shape_relink_cell; [done|]. apply HT. set_solver.
  - intros t' Ht'. apply HT. set_solver.
Qed.

(** The steps on cells of other columns leave a column alone. *)
Lemma unlink_all_frame c T h :
  shape h → (∀ t, t ∈ T → is_cell t ∧ col_ h t ≠ c) →
  (∀ y, valid_ptr y → col_ h y = c →
     up_ (unlink_all T h) y = up_ h y ∧ down_ (unlink_all T h) y = down_ h y) ∧
  get_count (unlink_all T h) c = get_count h c.
Proof.
  revert h. induction T as [|t T IH]; intros h Hs HT; [done|].
  rewrite unlink_all_cons.
  destruct (HT t) as [Ht Hct]; [set_solver|].
  pose proof (is_cell_valid t Ht) as Hv.
  destruct (IH (unlink_cell t h)) as [IH1 IH2].
  { by apply shape_unlink_cell. }
  { intros t' Ht'. rewrite col_unlink_cell. apply HT. set_solver. }
  split.
  - intros y Hy Hcy. destruct (IH1 y Hy) as [-> ->].
    { by rewrite col_unlink_cell. }
    autorewrite with steps. split.
    + rewrite decide_False; [done|]. intros ->.
      rewrite (col_down h Hs t Hv) in Hcy. done.
    + rewrite decide_False; [done|]. intros ->.
      rewrite (col_up h Hs t Hv) in Hcy. done.
  - rewrite IH2. autorewrite with steps. rewrite decide_False; [done|]. congruence.
Qed.

Lemma relink_all_frame c T h :
  shape h → (∀ t, t ∈ T → is_cell t ∧ col_ h t ≠ c) →
  (∀ y, valid_ptr y → col_ h y = c →
     up_ (relink_all T h) y = up_ h y ∧ down_ (relink_all T h) y = down_ h y) ∧
  get_count (relink_all T h) c = get_count h c.
Proof.
  revert h. induction T as [|t T IH]; intros h Hs HT; [done|].
  rewrite relink_all_cons.
  destruct (HT t) as [Ht Hct]; [set_solver|].
  pose proof (is_cell_valid t Ht) as Hv.
  destruct (IH (relink_cell t h)) as [IH1 IH2].
  { by apply shape_relink_cell. }
  { intros t' Ht'. rewrite col_relink_cell. apply HT. set_solver. }
  split.
  - intros y Hy Hcy. destruct (IH1 y Hy) as [-> ->].
    { by rewrite col_relink_cell. }
    autorewrite with steps. split.
    + rewrite decide_False; [done|]. intros ->.
      rewrite (col_down h Hs t Hv) in Hcy. done.
    + rewrite decide_False; [done|]. intros ->.
      case_decide; [done|]. rewrite (col_up h Hs t Hv) in Hcy. done.
  - rewrite IH2. autorewrite with steps. rewrite decide_False; [done|]. congruence.
Qed.

(** ** The row loops *)

Lemma cover_row_path i L : ∀ h j n,
  path (right_ h) j L i → (length L < n)%nat →
  cover_row n i j h = Ok (unlink_all L h).
Proof.
  induction L as [|x L IH]; intros h j n Hp Hn.
  - simpl in Hp. subst j. destruct n; [simpl in Hn; lia|].
    simpl. by rewrite decide_True.
  - simpl in Hp. destruct Hp as (-> & Hne & Hp).
    destruct n; [simpl in Hn; lia|]. simpl in Hn.
    cbn [cover_row]. rewrite decide_False by done.
    rewrite right_unlink_cell. rewrite unlink_all_cons. apply IH; [|lia].
    eapply path_ext; [|exact Hp]. intros y _. by rewrite right_unlink_cell.
Qed.

Lemma uncover_row_path i L : ∀ h j n,
  path (left_ h) j L i → (length L < n)%nat →
  uncover_row n i j h = Ok (relink_all L h).
Proof.
  induction L as [|x L IH]; intros h j n Hp Hn.
  - simpl in Hp. subst j. destruct n; [simpl in Hn; lia|].
    simpl. by rewrite decide_True.
  - simpl in Hp. destruct Hp as (-> & Hne & Hp).
    destruct n; [simpl in Hn; lia|]. simpl in Hn.
    cbn [uncover_row]. rewrite decide_False by done.
    rewrite left_relink_cell. rewrite relink_all_cons. apply IH; [|lia].
    eapply path_ext; [|exact Hp]. intros y _. by rewrite left_relink_cell.
Qed.

Lemma mates_right_path h i :
  shape h → is_cell i → path (right_ h) (right_ h i) (mates i) i.
Proof.
  intros Hs. destruct i as [|r k]; [done|]. intros [Hr Hk].
  assert (Hcases : k = 0 ∨ k = 1 ∨ k = 2 ∨ k = 3) by (consts; lia).
  assert (H0 := sh_right h Hs r 0 Hr). assert (H1 := sh_right h Hs r 1 Hr).
  assert (H2 := sh_right h Hs r 2 Hr). assert (H3 := sh_right h Hs r 3 Hr).
  consts.
  change ((0 + 1) `rem` 4) with 1 in *. change ((1 + 1) `rem` 4) with 2 in *.
  change ((2 + 1) `rem` 4) with 3 in *. change ((3 + 1) `rem` 4) with 0 in *.
  destruct Hcases as [-> | [-> | [-> | ->]]]; cbn [mates path];
    change ((0 + 1) `rem` 4) with 1; change ((0 + 2) `rem` 4) with 2;
    change ((0 + 3) `rem` 4) with 3; change ((1 + 1) `rem` 4) with 2;
    change ((1 + 2) `rem` 4) with 3; change ((1 + 3) `rem` 4) with 0;
    change ((2 + 1) `rem` 4) with 3; change ((2 + 2) `rem` 4) with 0;
    change ((2 + 3) `rem` 4) with 1; change ((3 + 1) `rem` 4) with 0;
    change ((3 + 2) `rem` 4) with 1; change ((3 + 3) `rem` 4) with 2;
    rewrite ?H0, ?H1, ?H2, ?H3 by lia; repeat split; congruence.
Qed.

Lemma mates_left_path h i :
  shape h → is_cell i → path (left_ h) (left_ h i) (reverse (mates i)) i.
Proof.
  intros Hs. destruct i as [|r k]; [done|]. intros [Hr Hk].
  assert (Hcases : k = 0 ∨ k = 1 ∨ k = 2 ∨ k = 3) by (consts; lia).
  assert (H0 := sh_left h Hs r 0 Hr). assert (H1 := sh_left h Hs r 1 Hr).
  assert (H2 := sh_left h Hs r 2 Hr). assert (H3 := sh_left h Hs r 3 Hr).
  consts.
  change ((4 - 1 + 0) `rem` 4) with 3 in *. change ((4 - 1 + 1) `rem` 4) with 0 in *.
  change ((4 - 1 + 2) `rem` 4) with 1 in *. change ((4 - 1 + 3) `rem` 4) with 2 in *.
  destruct Hcases as [-> | [-> | [-> | ->]]]; cbn [mates];
    change ((0 + 1) `rem` 4) with 1; change ((0 + 2) `rem` 4) with 2;
    change ((0 + 3) `rem` 4) with 3; change ((1 + 1) `rem` 4) with 2;
    change ((1 + 2) `rem` 4) with 3; change ((1 + 3) `rem` 4) with 0;
    change ((2 + 1) `rem` 4) with 3; change ((2 + 2) `rem` 4) with 0;
    change ((2 + 3) `rem` 4) with 1; change ((3 + 1) `rem` 4) with 0;
    change ((3 + 2) `rem` 4) with 1; change ((3 + 3) `rem` 4) with 2;
    unfold reverse; cbn [rev_append path];
    rewrite ?H0, ?H1, ?H2, ?H3 by lia; repeat split; congruence.
Qed.

Lemma cover_row_spec h i n :
  shape h → is_cell i → (4 <= n)%nat →
  cover_row n i (right_ h i) h = Ok (unlink_all (mates i) h).
Proof.
  intros Hs Hi Hn. apply cover_row_path.
  - by apply mates_right_path.
  - destruct i; [done|]. simpl. lia.
Qed.

Lemma uncover_row_spec h i n :
  shape h → is_cell i → (4 <= n)%nat →
  uncover_row n i (left_ h i) h = Ok (relink_all (reverse (mates i)) h).
Proof.
  intros Hs Hi Hn. apply uncover_row_path.
  - by apply mates_left_path.
  - rewrite length_reverse. destruct i; [done|]. simpl. lia.
Qed.

(** ** The column loops *)

Lemma cover_col_spec c I : ∀ h i n,
  shape h → 0 <= c < column_size →
  path (down_ h) i I (PCol c) →
  (∀ x, x ∈ I → is_cell x ∧ col_ h x = c) →
  (length I + 5 <= n)%nat →
  cover_col n (PCol c) i h = Ok (unlink_all (I ≫= mates) h).
Proof.
  induction I as [|x I IH]; intros h i n Hs Hc Hp HI Hn.
  - simpl in Hp. subst i. destruct n; [simpl in Hn; lia|].
    simpl. by rewrite decide_True.
  - simpl in Hp. destruct Hp as (-> & Hne & Hp).
    destruct n; [simpl in Hn; lia|]. simpl in Hn.
    destruct (HI x) as [Hx Hcx]; [set_solver|].
    cbn [cover_col]. rewrite decide_False by done.
    rewrite cover_row_spec by (done || lia).
    change (Ok (unlink_all (mates x) h) ≫= (λ h', cover_col n (PCol c) (down_ h' x) h'))
      with (cover_col n (PCol c) (down_ (unlink_all (mates x) h) x) (unlink_all (mates x) h)).
    rewrite bind_cons, unlink_all_app.
    assert (Hm : ∀ t, t ∈ mates x → is_cell t ∧ col_ h t ≠ c).
    { intros t Ht. split; [by eapply mates_is_cell|].
      rewrite <- Hcx. by apply mates_col_ne. }
    destruct (unlink_all_frame c (mates x) h Hs Hm) as [Hfr _].
    destruct (unlink_all_static (mates x) h) as (_ & _ & Hcol & _).
    destruct (Hfr x) as [_ ->]; [by apply is_cell_valid|done|].
    apply IH.
    + apply shape_unlink_all; [done|]. intros t Ht. by apply Hm.
    + done.
    + eapply path_ext; [|exact Hp]. intros y Hy.
      destruct (HI y) as [Hy1 Hy2]; [set_solver|].
      destruct (Hfr y) as [_ ->]; [by apply is_cell_valid|done|done].
    + intros y Hy. rewrite Hcol. apply HI. set_solver.
    + lia.
Qed.

Lemma uncover_col_spec c I : ∀ h i n,
  shape h → 0 <= c < column_size →
  path (up_ h) i I (PCol c) →
  (∀ x, x ∈ I → is_cell x ∧ col_ h x = c) →
  (length I + 5 <= n)%nat →
  uncover_col n (PCol c) i h = Ok (relink_all (I ≫= (λ x, reverse (mates x))) h).
Proof.
  induction I as [|x I IH]; intros h i n Hs Hc Hp HI Hn.
  - simpl in Hp. subst i. destruct n; [simpl in Hn; lia|].
    simpl. by rewrite decide_True.
  - simpl in Hp. destruct Hp as (-> & Hne & Hp).
    destruct n; [simpl in Hn; lia|]. simpl in Hn.
    destruct (HI x) as [Hx Hcx]; [set_solver|].
    cbn [uncover_col]. rewrite decide_False by done.
    rewrite uncover_row_spec by (done || lia).
    change (Ok (relink_all (reverse (mates x)) h) ≫=
              (λ h', uncover_col n (PCol c) (up_ h' x) h'))
      with (uncover_col n (PCol c) (up_ (relink_all (reverse (mates x)) h) x)
              (relink_all (reverse (mates x)) h)).
    rewrite bind_cons, relink_all_app.
    assert (Hm : ∀ t, t ∈ reverse (mates x) → is_cell t ∧ col_ h t ≠ c).
    { intros t Ht. rewrite elem_of_reverse in Ht. split.
      - by apply (mates_is_cell x).
      - rewrite <- Hcx. by apply mates_col_ne. }
    destruct (relink_all_frame c (reverse (mates x)) h Hs Hm) as [Hfr _].
    destruct (relink_all_static (reverse (mates x)) h) as (_ & _ & Hcol & _).
    destruct (Hfr x) as [-> _]; [by apply is_cell_valid|done|].
    apply IH.
    + apply shape_relink_all; [done|]. intros t Ht. by apply Hm.
    + done.
    + eapply path_ext; [|exact Hp]. intros y Hy.
      destruct (HI y) as [Hy1 Hy2]; [set_solver|].
      destruct (Hfr y) as [-> _]; [by apply is_cell_valid|done|done].
    + intros y Hy. rewrite Hcol. apply HI. set_solver.
    + lia.
Qed.

(** ** Undoing a sequence of steps *)

Lemma relink_unlink_all T : ∀ h,
  shape h → NoDup T → (∀ t, t ∈ T → is_cell t ∧ linked h t) →
  relink_all (reverse T) (unlink_all T h) = h.
Proof.
  induction T as [|t T IH]; intros h Hs Hnd HT; [done|].
  apply NoDup_cons in Hnd as [Ht Hnd].
  destruct (HT t) as [Hct Hlt]; [set_solver|].
  pose proof (is_cell_valid t Hct) as Hv.
  rewrite unlink_all_cons, reverse_cons, relink_all_app. cbn [relink_all foldl].
  rewrite IH.
  - apply relink_unlink_cell; [done|..].
    + apply shape_in_heap; [done|]. by apply valid_down.
    + apply shape_in_heap; [done|]. by apply valid_up.
    + by apply shape_in_heap.
    + apply shape_in_heap; [done|]. by apply valid_col_range.
  - by apply shape_unlink_cell.
  - done.
  - intros t' Ht'. destruct (HT t') as [Hct' Hlt']; [set_solver|].
    split; [done|]. apply linked_unlink_cell; [done|done|]. intros ->. done.
Qed.

(** * More fuel does not change an answer *)

Lemma approx_refl {A} (r : res A) : approx r r.
Proof. by right. Qed.

Lemma approx_bind {A B} (m m' : res A) (f f' : A -> res B) :
  approx m m' → (∀ a, approx (f a) (f' a)) → approx (m ≫= f) (m' ≫= f').
Proof.
  intros [->| ->] Hf; [by left|].
  unfold mbind, res_bind. destruct m'; [apply Hf|by right|by right].
Qed.

Lemma approx_Ok {A} (r r' : res A) a : approx r r' → r = Ok a → r' = Ok a.
Proof. intros [->| ->]; [done|done]. Qed.

Lemma approx_Undef {A} (r r' : res A) : approx r r' → r = Undef → r' = Undef.
Proof. intros [->| ->]; [done|done]. Qed.

Ltac mono_step :=
  match goal with
  | |- approx (if ?b then _ else _) (if ?b then _ else _) => destruct b
  | |- approx (match ?x with _ => _ end) (match ?x with _ => _ end) => destruct x
  | |- approx (_ ≫= _) (_ ≫= _) => apply approx_bind; [|intros ?]
  | |- approx ?x ?x => apply approx_refl
  end.

Lemma cover_row_mono n m i j h : (n <= m)%nat → approx (cover_row n i j h) (cover_row m i j h).
Proof.
  revert m j h. induction n as [|n IH]; intros m j h Hm; [by left|].
  destruct m; [lia|]. cbn [cover_row]. repeat mono_step. apply IH. lia.
Qed.

Lemma cover_col_mono n m c i h : (n <= m)%nat → approx (cover_col n c i h) (cover_col m c i h).
Proof.
  revert m i h. induction n as [|n IH]; intros m i h Hm; [by left|].
  destruct m; [lia|]. cbn [cover_col]. repeat mono_step.
  - apply cover_row_mono. lia.
  - apply IH. lia.
Qed.

Lemma cover_mono n m c h : (n <= m)%nat → approx (cover n c h) (cover m c h).
Proof. intros. unfold cover. by apply cover_col_mono. Qed.

Lemma uncover_row_mono n m i j h :
  (n <= m)%nat → approx (uncover_row n i j h) (uncover_row m i j h).
Proof.
  revert m j h. induction n as [|n IH]; intros m j h Hm; [by left|].
  destruct m; [lia|]. cbn [uncover_row]. repeat mono_step. apply IH. lia.
Qed.

Lemma uncover_col_mono n m c i h :
  (n <= m)%nat → approx (uncover_col n c i h) (uncover_col m c i h).
Proof.
  revert m i h. induction n as [|n IH]; intros m i h Hm; [by left|].
  destruct m; [lia|]. cbn [uncover_col]. repeat mono_step.
  - apply uncover_row_mono. lia.
  - apply IH. lia.
Qed.

Lemma uncover_mono n m c h : (n <= m)%nat → approx (uncover n c h) (uncover m c h).
Proof.
  intros. unfold uncover. repeat mono_step. by apply uncover_col_mono.
Qed.

Lemma choose_mono n m rt cand c h :
  (n <= m)%nat → approx (choose n rt cand c h) (choose m rt cand c h).
Proof.
  revert m cand c. induction n as [|n IH]; intros m cand c Hm; [by left|].
  destruct m; [lia|]. cbn [choose]. repeat mono_step; apply IH; lia.
Qed.

Lemma cover_others_mono n m r j h :
  (n <= m)%nat → approx (cover_others n r j h) (cover_others m r j h).
Proof.
  revert m j h. induction n as [|n IH]; intros m j h Hm; [by left|].
  destruct m; [lia|]. cbn [cover_others]. repeat mono_step.
  - apply cover_mono. lia.
  - apply IH. lia.
Qed.

Lemma uncover_others_mono n m r j h :
  (n <= m)%nat → approx (uncover_others n r j h) (uncover_others m r j h).
Proof.
  revert m j h. induction n as [|n IH]; intros m j h Hm; [by left|].
  destruct m; [lia|]. cbn [uncover_others]. repeat mono_step.
  - apply uncover_mono. lia.
  - apply IH. lia.
Qed.

Lemma search_rows_mono rec rec' n m k c r s :
  (∀ s, approx (rec s) (rec' s)) → (n <= m)%nat →
  approx (search_rows rec n k c r s) (search_rows rec' m k c r s).
Proof.
  intros Hrec. revert m r s. induction n as [|n IH]; intros m r s Hm; [by left|].
  destruct m; [lia|]. cbn [search_rows]. repeat mono_step.
  - apply cover_others_mono. lia.
  - apply Hrec.
  - apply uncover_others_mono. lia.
  - apply IH. lia.
Qed.

Lemma search_mono n m k s : (n <= m)%nat → approx (search n k s) (search m k s).
Proof.
  revert m k s. induction n as [|n IH]; intros m k s Hm; [by left|].
  destruct m; [lia|]. cbn [search]. repeat mono_step.
  - apply choose_mono. lia.
  - apply cover_mono. lia.
  - apply search_rows_mono; [|lia]. intros s'. apply IH. lia.
  - apply uncover_mono. lia.
Qed.

Lemma cover_clue_mono n m k gr j h :
  (n <= m)%nat → approx (cover_clue n k gr j h) (cover_clue m k gr j h).
Proof.
  intros Hm. revert j h. induction k as [|k IH]; intros j h; [apply approx_refl|].
  cbn [cover_clue]. repeat mono_step.
  - by apply cover_mono.
  - apply IH.
Qed.

Lemma load_cell_mono n m grid i j zs :
  (n <= m)%nat → approx (load_cell n grid i j zs) (load_cell m grid i j zs).
Proof.
  intros Hm. unfold load_cell. repeat mono_step. by apply cover_clue_mono.
Qed.

Lemma load_line_mono n m k grid i j zs :
  (n <= m)%nat → approx (load_line n k grid i j zs) (load_line m k grid i j zs).
Proof.
  intros Hm. revert j zs. induction k as [|k IH]; intros j zs; [apply approx_refl|].
  cbn [load_line]. repeat mono_step.
  - by apply load_cell_mono.
  - apply IH.
Qed.

Lemma load_grid_mono n m k grid i zs :
  (n <= m)%nat → approx (load_grid n k grid i zs) (load_grid m k grid i zs).
Proof.
  intros Hm. revert i zs. induction k as [|k IH]; intros i zs; [apply approx_refl|].
  cbn [load_grid]. repeat mono_step.
  - by apply load_line_mono.
  - apply IH.
Qed.

Lemma loadGridAndSolve_mono n m grid s :
  (n <= m)%nat → approx (loadGridAndSolve n grid s) (loadGridAndSolve m grid s).
Proof.
  intros Hm. unfold loadGridAndSolve. repeat mono_step.
  - by apply load_grid_mono.
  - by apply search_mono.
Qed.

Lemma run_mono n m grid : (n <= m)%nat → approx (run n grid) (run m grid).
Proof.
  intros Hm. unfold run. repeat mono_step. by apply loadGridAndSolve_mono.
Qed.

(** * [cover] and [uncover] on the rings *)

Lemma reverse_bind {A B} (f : A → list B) (l : list A) :
  reverse (l ≫= f) = reverse l ≫= (λ x, reverse (f x)).
Proof.
  induction l as [|x l IH]; [done|].
  rewrite bind_cons, reverse_app, reverse_cons, bind_app, bind_singleton, IH. done.
Qed.

Lemma length_filter_ne {A} `{EqDecision A} (t : A) (l : list A) :
  NoDup l → t ∈ l → S (length (filter (λ x, x ≠ t) l)) = length l.
Proof.
  induction l as [|x l IH]; intros Hnd Ht; [by apply elem_of_nil in Ht|].
  apply NoDup_cons in Hnd as [Hx Hnd].
  destruct (decide (x = t)) as [->|Hne].
  - rewrite filter_cons_False by (intros ?; done).
    rewrite filter_all; [done|]. intros y Hy ->. done.
  - rewrite filter_cons_True by done. simpl. f_equal. apply IH; [done|]. set_solver.
Qed.

Lemma filter_fmap_PCol c (l : list Z) :
  filter (λ x, x ≠ PCol c) (PCol <$> l) = PCol <$> filter (λ x, x ≠ c) l.
Proof.
  induction l as [|x l IH]; [done|]. rewrite fmap_cons.
  destruct (decide (x = c)) as [->|Hne].
  - rewrite !filter_cons_False by (intros ?; done). done.
  - rewrite !filter_cons_True by congruence. rewrite fmap_cons. by f_equal.
Qed.

Lemma filter_not_in_cons {A} `{EqDecision A} (t : A) (T l : list A) :
  filter (λ x, x ∉ T) (filter (λ x, x ≠ t) l) = filter (λ x, x ∉ t :: T) l.
Proof.
  rewrite list_filter_filter. apply list_filter_iff. intros x.
  rewrite not_elem_of_cons. tauto.
Qed.

Lemma walk_path nxt n a L z :
  path nxt a L z → (length L < n)%nat → walk nxt n z a = L.
Proof.
  revert n a. induction L as [|x L IH]; intros n a Hp Hn.
  - simpl in Hp. subst. destruct n; [simpl in Hn; lia|]. simpl. by rewrite decide_True.
  - simpl in Hp. destruct Hp as (-> & Hne & Hp). destruct n; [simpl in Hn; lia|].
    simpl in *. rewrite decide_False by done. f_equal. apply IH; [done|lia].
Qed.

(** ** One column ring under the steps *)

Lemma vring_header_not_in h d V : vring h d V → PCol d ∉ V.
Proof.
  intros (_ & _ & Hm & _) Hin. destruct (Hm _ Hin) as [Hc _]. done.
Qed.

Lemma vring_linked h d V x : vring h d V → x ∈ V → linked h x.
Proof.
  intros (Hch & _) Hx. unfold linked.
  exact (chain_neighbours _ _ _ _ _ _ Hch Hx).
Qed.

Lemma vring_unlink_cell h d V t :
  shape h → vring h d V → is_cell t → (col_ h t = d → t ∈ V) →
  vring (unlink_cell t h) d (filter (λ x, x ≠ t) V).
Proof.
  intros Hs HV Ht Hin. pose proof (vring_header_not_in _ _ _ HV) as Hhd.
  destruct HV as (Hch & Hnd & Hm & Hcnt & Hlen).
  pose proof (is_cell_valid t Ht) as Hv.
  destruct (decide (col_ h t = d)) as [Hd|Hd].
  - specialize (Hin Hd). split; [|split; [|split; [|split]]].
    + eapply chain_unlink; [| |exact Hch| |exact Hhd|exact Hin].
      * intros x. by rewrite down_unlink_cell.
      * intros x. by rewrite up_unlink_cell.
      * apply NoDup_cons. done.
    + by apply NoDup_filter.
    + intros x Hx. apply list_elem_of_filter in Hx as [_ Hx].
      rewrite col_unlink_cell. by apply Hm.
    + rewrite count_unlink_cell, decide_True by done.
      pose proof (length_filter_ne t V Hnd Hin). lia.
    + pose proof (length_filter (λ x, x ≠ t) V). lia.
  - assert (HtV : t ∉ V).
    { intros HtV. destruct (Hm _ HtV) as [_ ?]. done. }
    rewrite filter_all by (intros y Hy ->; done).
    split; [|split; [|split; [|split]]]; try done.
    + eapply chain_ext; [| |exact Hch].
      * intros x Hx. rewrite down_unlink_cell, decide_False; [done|].
        intros ->. apply Hd. rewrite <- (col_up h Hs t Hv).
        apply elem_of_cons in Hx as [E|Hx].
        -- rewrite E. apply sh_col_hdr; [done|].
           pose proof (valid_up h Hs t Hv) as Hvu. by rewrite E in Hvu.
        -- by destruct (Hm _ Hx).
      * intros x Hx. rewrite up_unlink_cell, decide_False; [done|].
        intros ->. apply Hd. rewrite <- (col_down h Hs t Hv).
        apply elem_of_app in Hx as [Hx|Hx].
        -- by destruct (Hm _ Hx).
        -- apply list_elem_of_singleton in Hx. rewrite Hx. apply sh_col_hdr; [done|].
           pose proof (valid_down h Hs t Hv) as Hvu. by rewrite Hx in Hvu.
    + intros x Hx. rewrite col_unlink_cell. by apply Hm.
    + rewrite count_unlink_cell, decide_False; [done|]. congruence.
Qed.

Lemma vring_unlink_all d T : ∀ h V,
  shape h → vring h d V → NoDup T →
  (∀ t, t ∈ T → is_cell t ∧ (col_ h t = d → t ∈ V)) →
  vring (unlink_all T h) d (filter (λ x, x ∉ T) V).
Proof.
  induction T as [|t T IH]; intros h V Hs HV Hnd HT.
  - rewrite filter_all; [done|]. intros x _. set_solver.
  - apply NoDup_cons in Hnd as [Ht Hnd].
    destruct (HT t) as [Hct Hin]; [set_solver|].
    rewrite unlink_all_cons, <- filter_not_in_cons. apply IH.
    + by apply shape_unlink_cell.
    + by apply vring_unlink_cell.
    + done.
    + intros t' Ht'. destruct (HT t') as [Hct' Hin']; [set_solver|].
      split; [done|]. rewrite col_unlink_cell. intros Hd.
      apply list_elem_of_filter. split; [|by apply Hin'].
      intros ->. done.
Qed.

Lemma vring_ext h h' d V :
  (∀ x, up_ h' x = up_ h x) → (∀ x, down_ h' x = down_ h x) →
  (∀ x, col_ h' x = col_ h x) → get_count h' d = get_count h d →
  vring h d V → vring h' d V.
Proof.
  intros Hu Hd Hc Hcnt (Hch & Hnd & Hm & Hn & Hlen).
  split; [|split; [|split; [|split]]]; try done.
  - eapply chain_ext; [| |exact Hch]; intros; [apply Hd|apply Hu].
  - intros x Hx. rewrite Hc. by apply Hm.
  - by rewrite Hcnt.
Qed.

(** ** [cover] on a matrix that satisfies the invariant *)

Section cover_inv.
Context (h : Heap) (Lv : list Z) (V : Z → list ptr).
Context (HI : Inv h Lv V) (c : Z) (Hc : c ∈ Lv).

Lemma live_range d : d ∈ Lv → 0 <= d < constraints.
Proof. destruct HI as [_ (_ & _ & H) _ _]. apply H. Qed.

Lemma live_col_range d : d ∈ Lv → 0 <= d < column_size.
Proof. intros Hd. apply live_range in Hd. consts. lia. Qed.

Lemma ring_cell d x : d ∈ Lv → x ∈ V d → is_cell x ∧ col_ h x = d.
Proof. intros Hd Hx. destruct (inv_vring h Lv V HI d Hd) as (_ & _ & H & _). by apply H. Qed.

Lemma targets_spec t :
  t ∈ targets V c →
  is_cell t ∧ col_ h t ≠ c ∧ col_ h t ∈ Lv ∧ t ∈ V (col_ h t) ∧ linked h t.
Proof.
  intros Ht. apply list_elem_of_bind in Ht as (x & Ht & Hx).
  destruct (ring_cell c x Hc Hx) as [Hcx Hcol].
  destruct (inv_rows h Lv V HI c x t Hc Hx Ht) as [Hl Hin].
  split; [by eapply mates_is_cell|]. split.
  - rewrite <- Hcol. apply mates_col_ne; [apply HI|done|done].
  - split; [done|]. split; [done|].
    eapply vring_linked; [|exact Hin]. by apply (inv_vring h Lv V HI).
Qed.

Lemma targets_NoDup : NoDup (targets V c).
Proof.
  destruct (inv_vring h Lv V HI c Hc) as (_ & Hnd & Hm & _).
  apply NoDup_bind; [| |done].
  - intros x1 x2 y Hx1 Hx2 Hy1 Hy2.
    destruct (Hm x1 Hx1) as [Hc1 Hcol1]. destruct (Hm x2 Hx2) as [Hc2 Hcol2].
    pose proof (mates_sym x2 y Hc2 Hy2) as Hsym.
    destruct (mates_trans x1 y x2 Hc1 Hy1 Hsym) as [E|Hin]; [done|].
    exfalso. apply (mates_col_ne h (inv_shape h Lv V HI) x1 x2 Hc1 Hin). congruence.
  - intros x Hx. apply mates_NoDup. by destruct (Hm x Hx).
Qed.

Lemma header_neighbours :
  left_ h (right_ h (PCol c)) = PCol c ∧ right_ h (left_ h (PCol c)) = PCol c.
Proof.
  destruct HI as [_ (Hch & _ & _) _ _].
  eapply chain_neighbours; [exact Hch|]. by apply list_elem_of_fmap_2.
Qed.

Lemma shape_header : shape (unlink_header (PCol c) h).
Proof. apply shape_unlink_header; [apply HI|]. by apply live_col_range. Qed.

Lemma cover_eq n : (14 <= n)%nat → cover n c h = Ok (cover_result h V c).
Proof.
  intros Hn. unfold cover, cover_result, targets.
  destruct (inv_vring h Lv V HI c Hc) as (Hch & Hnd & Hm & Hcnt & Hlen).
  rewrite down_unlink_header.
  apply cover_col_spec.
  - apply shape_header.
  - by apply live_col_range.
  - eapply path_ext; [|eapply chain_path; [exact Hch|]].
    + intros y _. by rewrite down_unlink_header.
    + eapply vring_header_not_in. by apply (inv_vring h Lv V HI).
  - intros x Hx. rewrite col_unlink_header. by apply Hm.
  - lia.
Qed.

Lemma targets_frame :
  ∀ t, t ∈ targets V c →
    is_cell t ∧ col_ (unlink_header (PCol c) h) t ≠ c.
Proof.
  intros t Ht. destruct (targets_spec t Ht) as (H1 & H2 & _).
  by rewrite col_unlink_header.
Qed.

Lemma uncover_eq n : (14 <= n)%nat → uncover n c (cover_result h V c) = Ok h.
Proof.
  intros Hn. unfold uncover.
  pose proof (inv_shape h Lv V HI) as Hs.
  pose proof shape_header as Hs1.
  destruct (inv_vring h Lv V HI c Hc) as (Hch & Hnd & Hm & Hcnt & Hlen).
  pose proof (vring_header_not_in h c (V c) (inv_vring h Lv V HI c Hc)) as Hhd.
  assert (Hs' : shape (cover_result h V c)).
  { apply shape_unlink_all; [done|]. intros t Ht. by apply targets_frame. }
  destruct (unlink_all_frame c (targets V c) _ Hs1 targets_frame) as [Hfr _].
  destruct (unlink_all_static (targets V c) (unlink_header (PCol c) h))
    as (_ & _ & Hcol & _).
  fold (cover_result h V c) in Hfr, Hcol.
  assert (Hcr : 0 <= c < column_size) by by apply live_col_range.
  assert (Hup : ∀ y, y = PCol c ∨ y ∈ V c → up_ (cover_result h V c) y = up_ h y).
  { intros y Hy. destruct (Hfr y) as [-> _].
    - destruct Hy as [->|Hy]; [done|]. apply is_cell_valid. by apply Hm.
    - rewrite col_unlink_header. destruct Hy as [->|Hy].
      + by apply sh_col_hdr.
      + by apply Hm.
    - by rewrite up_unlink_header. }
  rewrite (uncover_col_spec c (reverse (V c))).
  - change (Ok ?x ≫= ?f) with (f x). cbv beta.
    rewrite <- reverse_bind. fold (targets V c).
    unfold cover_result at 1. rewrite relink_unlink_all.
    + f_equal. destruct header_neighbours as [H1 H2].
      destruct (sh_horiz h Hs c Hcr) as (l & r & Hl & Hr & Hlr & Hrr).
      apply relink_unlink_header; try done.
      * rewrite Hr. by apply shape_in_heap.
      * rewrite Hl. by apply shape_in_heap.
      * by apply shape_in_heap.
    + done.
    + apply targets_NoDup.
    + intros t Ht. destruct (targets_spec t Ht) as (H1 & _ & _ & _ & H5).
      split; [done|]. unfold linked in *. by rewrite !up_unlink_header, !down_unlink_header.
  - done.
  - done.
  - rewrite Hup by by left.
    eapply path_ext; [|eapply chain_reverse_path; [exact Hch|exact Hhd]].
    intros y Hy. apply Hup. right. by apply elem_of_reverse.
  - intros x Hx. rewrite elem_of_reverse in Hx. rewrite Hcol, col_unlink_header.
    by apply Hm.
  - rewrite length_reverse. lia.
Qed.

Lemma cover_count : get_count (cover_result h V c) c = get_count h c.
Proof.
  destruct (unlink_all_frame c (targets V c) _ shape_header targets_frame) as [_ H].
  unfold cover_result. rewrite H. by rewrite count_unlink_header.
Qed.

Lemma col_cover_result x : col_ (cover_result h V c) x = col_ h x.
Proof.
  destruct (unlink_all_static (targets V c) (unlink_header (PCol c) h))
    as (_ & _ & Hcol & _).
  unfold cover_result. by rewrite Hcol, col_unlink_header.
Qed.

Lemma cover_hring : hring (cover_result h V c) (cover_Lv Lv c).
Proof.
  destruct (inv_hring h Lv V HI) as (Hch & Hnd & Hr).
  destruct (unlink_all_static (targets V c) (unlink_header (PCol c) h))
    as (Hl' & Hr' & _ & _).
  assert (Hroot : rootp ∉ PCol <$> Lv).
  { intros Hin. apply list_elem_of_fmap in Hin as (x & E & Hx).
    unfold rootp in E. injection E as <-. apply Hr in Hx. consts. lia. }
  split; [|split].
  - unfold cover_Lv. rewrite <- filter_fmap_PCol.
    eapply chain_ext; [| |eapply (chain_unlink (right_ h) (left_ h)
        (right_ (unlink_header (PCol c) h)) (left_ (unlink_header (PCol c) h)) (PCol c));
        [| |exact Hch| |exact Hroot|]].
    + intros x _. apply Hr'.
    + intros x _. apply Hl'.
    + intros x. by rewrite right_unlink_header.
    + intros x. by rewrite left_unlink_header.
    + apply NoDup_cons. split; [done|].
      apply NoDup_fmap_2; [|done]. by intros x y [=].
    + by apply list_elem_of_fmap_2.
  - by apply NoDup_filter.
  - intros d Hd. apply list_elem_of_filter in Hd as [_ Hd]. by apply Hr.
Qed.

Lemma cover_vring d : d ∈ cover_Lv Lv c → vring (cover_result h V c) d (cover_V V c d).
Proof.
  intros Hd. apply list_elem_of_filter in Hd as [Hdc Hd].
  unfold cover_result, cover_V. apply vring_unlink_all.
  - apply shape_header.
  - eapply vring_ext; [..|by apply (inv_vring h Lv V HI)].
    + intros x. by rewrite up_unlink_header.
    + intros x. by rewrite down_unlink_header.
    + intros x. by rewrite col_unlink_header.
    + by rewrite count_unlink_header.
  - apply targets_NoDup.
  - intros t Ht. destruct (targets_spec t Ht) as (H1 & _ & _ & H4 & _).
    split; [done|]. rewrite col_unlink_header. by intros <-.
Qed.

Lemma cover_rows d x y :
  d ∈ cover_Lv Lv c → x ∈ cover_V V c d → y ∈ mates x →
  col_ (cover_result h V c) y ∈ cover_Lv Lv c ∧
  y ∈ cover_V V c (col_ (cover_result h V c) y).
Proof.
  intros Hd Hx Hy. rewrite col_cover_result.
  apply list_elem_of_filter in Hd as [Hdc Hd].
  apply list_elem_of_filter in Hx as [HxT Hx].
  destruct (ring_cell d x Hd Hx) as [Hcx Hcolx].
  destruct (inv_rows h Lv V HI d x y Hd Hx Hy) as [Hly Hiny].
  pose proof (mates_sym x y Hcx Hy) as Hxy.
  assert (Hne : col_ h y ≠ c).
  { intros E. apply HxT. apply list_elem_of_bind. exists y. split; [done|].
    by rewrite E in Hiny. }
  assert (HyT : y ∉ targets V c).
  { intros HyT. apply list_elem_of_bind in HyT as (z & Hyz & Hz).
    destruct (ring_cell c z Hc Hz) as [Hcz Hcolz].
    pose proof (mates_sym z y Hcz Hyz) as Hzy.
    destruct (mates_trans x y z Hcx Hy Hzy) as [->|Hzx].
    - congruence.
    - apply HxT. apply list_elem_of_bind. exists z. split; [|done].
      by apply mates_sym. }
  split.
  - apply list_elem_of_filter. done.
  - apply list_elem_of_filter. done.
Qed.

Lemma cover_Inv : Inv (cover_result h V c) (cover_Lv Lv c) (cover_V V c).
Proof.
  split.
  - apply shape_unlink_all; [apply shape_header|]. intros t Ht. by apply targets_frame.
  - apply cover_hring.
  - apply cover_vring.
  - apply cover_rows.
Qed.
End cover_inv.

(** * Reachable states of the matrix *)

Lemma bounded_NoDup_length (l : list Z) n :
  NoDup l → (∀ x, x ∈ l → 0 <= x < n) → (length l <= Z.to_nat n)%nat.
Proof.
  intros Hnd Hb. rewrite <- (length_seqZ 0 n).
  apply submseteq_length. apply NoDup_submseteq; [done|].
  intros x Hx. apply elem_of_seqZ. specialize (Hb x Hx). lia.
Qed.

Section live.
Context (h : Heap) (Lv : list Z) (V : Z → list ptr) (HI : Inv h Lv V).

Lemma Inv_live_length : (length Lv <= 324)%nat.
Proof.
  destruct (inv_hring h Lv V HI) as (_ & Hnd & Hr).
  apply (bounded_NoDup_length Lv constraints Hnd Hr).
Qed.

Lemma Inv_root_not_live : rootp ∉ PCol <$> Lv.
Proof.
  destruct (inv_hring h Lv V HI) as (_ & _ & Hr).
  intros Hin. apply list_elem_of_fmap in Hin as (x & E & Hx).
  unfold rootp in E. injection E as <-. apply Hr in Hx. consts. lia.
Qed.

Lemma Inv_header_path : path (right_ h) (right_ h rootp) (PCol <$> Lv) rootp.
Proof.
  destruct (inv_hring h Lv V HI) as (Hch & _ & _).
  eapply chain_path; [exact Hch|]. apply Inv_root_not_live.
Qed.

Lemma Inv_live_cols : live_cols h = PCol <$> Lv.
Proof.
  unfold live_cols. apply walk_path; [apply Inv_header_path|].
  rewrite length_fmap. pose proof Inv_live_length. consts.
  change (Z.to_nat (81 * 4 + 1)) with 325%nat. lia.
Qed.

Lemma Inv_live c : live h c ↔ c ∈ Lv.
Proof.
  unfold live. rewrite Inv_live_cols. split.
  - intros Hin. apply list_elem_of_fmap in Hin as (x & [= ->] & Hx). done.
  - apply list_elem_of_fmap_2.
Qed.

Lemma Inv_cover n c h' :
  live h c → cover n c h = Ok h' → h' = cover_result h V c.
Proof.
  intros Hl Hcov. apply Inv_live in Hl.
  pose proof (cover_mono n (n + 14) c h ltac:(lia)) as Ha.
  pose proof (approx_Ok _ _ _ Ha Hcov) as E.
  rewrite (cover_eq h Lv V HI c Hl) in E by lia. congruence.
Qed.
End live.

Lemma covered_Inv h st : covered h st → ∃ Lv V, Inv h Lv V.
Proof.
  induction 1 as [|h st c n h' Hcov (Lv & V & HI) Hl Hc].
  - eexists _, _. apply Inv_h0.
  - rewrite (Inv_cover h Lv V HI n c h' Hl Hc).
    exists (cover_Lv Lv c), (cover_V V c). apply cover_Inv; [done|].
    by apply (Inv_live h Lv V HI).
Qed.

Lemma covered_cons_inv h c st :
  covered h (c :: st) → ∃ h1 n, covered h1 st ∧ live h1 c ∧ cover n c h1 = Ok h.
Proof.
  intros H. remember (c :: st) as l eqn:El.
  destruct H as [|h1 st1 c1 n h' Hcov Hl Hc]; [discriminate El|].
  injection El as -> ->. eauto.
Qed.

Lemma reachable_covered h st : reachable h st → covered h st.
Proof.
  induction 1 as [|h st c n h' Hr IH Hl Hc|h st c n h' Hr IH Hu].
  - constructor.
  - econstructor; eauto.
  - apply covered_cons_inv in IH as (h1 & n1 & Hcov1 & Hl1 & Hc1).
    destruct (covered_Inv _ _ Hcov1) as (Lv & V & HI).
    pose proof (Inv_cover h1 Lv V HI n1 c h Hl1 Hc1) as E. subst h.
    apply (Inv_live h1 Lv V HI) in Hl1.
    pose proof (uncover_mono n (n + 14) c (cover_result h1 V c) ltac:(lia)) as Ha.
    pose proof (approx_Ok _ _ _ Ha Hu) as E.
    rewrite (uncover_eq h1 Lv V HI c Hl1) in E by lia.
    injection E as <-. done.
Qed.

Lemma reachable_Inv h st : reachable h st → ∃ Lv V, Inv h Lv V.
Proof. intros Hr. eapply covered_Inv. by apply reachable_covered. Qed.

(** C1.  On every matrix state reached from the constructed matrix by
    covers of live columns and uncovers in the reverse order, and for
    every live column [c], [cover(c)] returns and [uncover(c)] on its
    result returns the state before the cover: the same heap, hence
    the same [up], [down], [left] and [right] pointers of every node and
    the same count of every column. *)
Theorem cover_uncover_inverse h st c n :
  reachable h st → live h c → (14 <= n)%nat →
  ∃ h', cover n c h = Ok h' ∧ uncover n c h' = Ok h.
Proof.
  intros Hr Hl Hn. destruct (reachable_Inv h st Hr) as (Lv & V & HI).
  apply (Inv_live h Lv V HI) in Hl.
  exists (cover_result h V c). split.
  - by apply (cover_eq h Lv V HI).
  - by apply (uncover_eq h Lv V HI).
Qed.

Lemma live_h0_0 : live h0 0.
Proof. apply (bool_decide_unpack _). vm_compute. exact I. Defined.

Lemma cover_uncover_inverse_witness :
  reachable h0 [] ∧ live h0 0 ∧ (14 <= 14)%nat ∧
  ∃ h', cover 14 0 h0 = Ok h' ∧ uncover 14 0 h' = Ok h0.
Proof.
  split; [constructor|]. split; [exact live_h0_0|]. split; [lia|].
  apply (cover_uncover_inverse h0 [] 0 14); [constructor|exact live_h0_0|lia].
Defined.

Lemma Inv_col_cells h Lv V c : Inv h Lv V → c ∈ Lv → col_cells h c = V c.
Proof.
  intros HI Hc. destruct (inv_vring h Lv V HI c Hc) as (Hch & _ & _ & _ & Hlen).
  unfold col_cells. apply walk_path; [|lia].
  eapply chain_path; [exact Hch|].
  eapply vring_header_not_in. by apply (inv_vring h Lv V HI).
Qed.

(** C10.  On every reachable matrix state and for every live column
    [c], [cover(c)] returns the state in which the header of [c] and
    the row mates of the cells of [c] are unlinked; none of these row
    mates lies in [c], and the count of [c] is what it was. *)
Theorem cover_keeps_own_count h st c n :
  reachable h st → live h c → (14 <= n)%nat →
  ∃ h', cover n c h = Ok h' ∧
        h' = unlink_all (targets (col_cells h) c) (unlink_header (PCol c) h) ∧
        (∀ j, j ∈ targets (col_cells h) c → col_ h j ≠ c) ∧
        get_count h' c = get_count h c.
Proof.
  intros Hr Hl Hn. destruct (reachable_Inv h st Hr) as (Lv & V & HI).
  apply (Inv_live h Lv V HI) in Hl.
  assert (E : targets (col_cells h) c = targets V c).
  { unfold targets. by rewrite (Inv_col_cells h Lv V c HI Hl). }
  exists (cover_result h V c). split; [by apply (cover_eq h Lv V HI)|].
  split; [unfold cover_result; by rewrite E|].
  split; [|by apply (cover_count h Lv V HI)].
  intros j Hj. rewrite E in Hj. by destruct (targets_spec h Lv V HI c Hl j Hj) as (_ & ? & _).
Qed.

Lemma live_h0_5 : live h0 5.
Proof. apply (bool_decide_unpack _). vm_compute. exact I. Defined.

Lemma cover_keeps_own_count_witness :
  reachable h0 [] ∧ live h0 5 ∧ (14 <= 20)%nat ∧
  ∃ h', cover 20 5 h0 = Ok h' ∧
        h' = unlink_all (targets (col_cells h0) 5) (unlink_header (PCol 5) h0) ∧
        (∀ j, j ∈ targets (col_cells h0) 5 → col_ h0 j ≠ 5) ∧
        get_count h' 5 = get_count h0 5.
Proof.
  split; [constructor|]. split; [exact live_h0_5|]. split; [lia|].
  apply (cover_keeps_own_count h0 [] 5 20); [constructor|exact live_h0_5|lia].
Defined.

(** * The constraint encoding *)

Lemma constructed_coverage :
  Forall (row_covers h0) (seqZ 0 row_size) ∧
  Forall (column_holds_nine h0) (seqZ 0 constraints) ∧
  Forall (row_links h0) (seqZ 0 row_size).
Proof. apply (bool_decide_unpack _). vm_compute. exact I. Qed.

(** C4.  For every candidate index [i] in [[0, 729)], the four columns
    that the constructor passes to [insertRow] are those of the
    specification, the four cells of the matrix row [i] lie in these
    columns in this order, and the ring of each of these columns holds
    exactly one cell of row [i]. *)
Theorem candidate_row_links i :
  0 <= i < row_size →
  new_Sudoku = Ok s0 ∧
  row_items i = spec_columns i ∧
  row_columns h0 i = spec_columns i ∧
  ∀ k, 0 <= k < cells_per_row →
    filter (λ p, row_ h0 p = Some i) (col_cells h0 (col_ h0 (PCell i k))) = [PCell i k].
Proof.
  intros Hi. split; [apply new_Sudoku_eq|].
  destruct constructed_coverage as (_ & _ & H). rewrite Forall_forall in H.
  destruct (H i) as (H1 & H2 & H3); [apply elem_of_seqZ; lia|].
  split; [done|]. split; [done|].
  intros k Hk. rewrite Forall_forall in H3. apply H3. apply elem_of_seqZ. lia.
Qed.

Lemma candidate_row_links_witness :
  0 <= 400 < row_size ∧
  new_Sudoku = Ok s0 ∧
  row_items 400 = spec_columns 400 ∧
  row_columns h0 400 = spec_columns 400 ∧
  ∀ k, 0 <= k < cells_per_row →
    filter (λ p, row_ h0 p = Some 400) (col_cells h0 (col_ h0 (PCell 400 k))) = [PCell 400 k].
Proof.
  assert (H : 0 <= 400 < row_size) by (unfold row_size; lia).
  split; [exact H|]. exact (candidate_row_links 400 H).
Defined.

(** C5.  In the constructed matrix the four cells of every candidate row
    lie in four distinct constraint columns, whose rings hold these cells
    and no other cell of the row; the ring of every one of the 324
    constraint columns holds exactly 9 cells, all of that column, and
    the count of the column is 9. *)
Theorem construction_coverage :
  new_Sudoku = Ok s0 ∧
  (∀ r, 0 <= r < row_size → row_covers h0 r) ∧
  (∀ c, 0 <= c < constraints → column_holds_nine h0 c).
Proof.
  split; [apply new_Sudoku_eq|].
  destruct constructed_coverage as (H1 & H2 & _).
  rewrite Forall_forall in H1. rewrite Forall_forall in H2.
  split.
  - intros r Hr. apply H1. apply elem_of_seqZ. lia.
  - intros c Hc. apply H2. apply elem_of_seqZ. lia.
Qed.

Lemma construction_coverage_witness :
  row_covers h0 728 ∧ column_holds_nine h0 323.
Proof.
  destruct construction_coverage as (_ & H1 & H2). split.
  - apply H1. unfold row_size. lia.
  - apply H2. unfold constraints, grid_size. lia.
Defined.

(** * The choice of the column *)

Lemma choose_spec h rt L : ∀ n cand c,
  path (right_ h) cand L rt → (length L < n)%nat →
  ∃ c', choose n rt cand c h = Ok c' ∧
    ((c' = c ∧ ∀ x, x ∈ L → scan_count h c <= scan_count h x) ∨
     (∃ L1 L2, L = L1 ++ c' :: L2 ∧ scan_count h c' < scan_count h c ∧
        (∀ x, x ∈ L1 → scan_count h c' < scan_count h x) ∧
        (∀ x, x ∈ L2 → scan_count h c' <= scan_count h x))).
Proof.
  induction L as [|x L IH]; intros n cand c Hp Hn.
  - simpl in Hp. subst cand. destruct n; [simpl in Hn; lia|].
    exists c. simpl. rewrite decide_True by done. split; [done|]. left.
    split; [done|]. intros x Hx. by apply elem_of_nil in Hx.
  - simpl in Hp. destruct Hp as (-> & Hne & Hp).
    destruct n; [simpl in Hn; lia|]. simpl in Hn.
    cbn [choose]. rewrite decide_False by done. fold (scan_count h x) (scan_count h c).
    destruct (decide (scan_count h x < scan_count h c)) as [Hlt|Hge].
    + destruct (IH n (right_ h x) x Hp ltac:(lia)) as (c' & Hc' & Hcase).
      exists c'. split; [done|]. right.
      destruct Hcase as [[-> Hall]|(L1 & L2 & -> & Hlt' & H1 & H2)].
      * exists [], L. split; [done|]. split; [done|]. split; [|done].
        intros y Hy. by apply elem_of_nil in Hy.
      * exists (x :: L1), L2. split; [done|]. split; [lia|]. split; [|done].
        intros y Hy. apply elem_of_cons in Hy as [->|Hy]; [done|by apply H1].
    + destruct (IH n (right_ h x) c Hp ltac:(lia)) as (c' & Hc' & Hcase).
      exists c'. split; [done|].
      destruct Hcase as [[-> Hall]|(L1 & L2 & -> & Hlt' & H1 & H2)].
      * left. split; [done|]. intros y Hy.
        apply elem_of_cons in Hy as [->|Hy]; [lia|by apply Hall].
      * right. exists (x :: L1), L2. split; [done|]. split; [done|]. split; [|done].
        intros y Hy. apply elem_of_cons in Hy as [->|Hy]; [lia|by apply H1].
Qed.

(** C7.  When the header ring is not empty, with [L] the columns that
    the scan from [root->right] meets, [search] covers a column [c] of
    [L] whose count is at most the count of every column of [L] and
    strictly less than the count of every column met before it. *)
Theorem search_chooses_least n k s L :
  path (right_ (heap s)) (right_ (heap s) (PCol (root s))) L (PCol (root s)) →
  L ≠ [] → (length L < n)%nat →
  ∃ c L1 L2,
    L = L1 ++ c :: L2 ∧
    (∀ x, x ∈ L1 → scan_count (heap s) c < scan_count (heap s) x) ∧
    (∀ x, x ∈ L2 → scan_count (heap s) c <= scan_count (heap s) x) ∧
    search (S n) k s =
      (h1 ← cover n (col_ (heap s) c) (heap s);
       s2 ← search_rows (search n (k + 1)) n k c (down_ h1 c) (with_heap s h1);
       h3 ← uncover n (col_ (heap s2) c) (heap s2);
       Ok (with_heap s2 h3)).
Proof.
  intros Hp Hne Hn.
  destruct (choose_spec (heap s) (PCol (root s)) L n _ (right_ (heap s) (PCol (root s)))
              Hp Hn) as (c & Hc & Hcase).
  assert (Hstart : right_ (heap s) (PCol (root s)) ≠ PCol (root s)).
  { destruct L as [|x L]; [done|]. simpl in Hp. destruct Hp as (-> & ? & _). done. }
  assert (Hsearch : search (S n) k s =
      (h1 ← cover n (col_ (heap s) c) (heap s);
       s2 ← search_rows (search n (k + 1)) n k c (down_ h1 c) (with_heap s h1);
       h3 ← uncover n (col_ (heap s2) c) (heap s2);
       Ok (with_heap s2 h3))).
  { cbn [search]. rewrite decide_False by done. rewrite Hc. done. }
  destruct Hcase as [[-> Hall]|(L1 & L2 & -> & Hlt & H1 & H2)].
  - destruct L as [|x L]; [done|]. simpl in Hp. destruct Hp as (E & _ & _).
    subst x. eexists _, [], L. split; [reflexivity|]. split.
    + intros y Hy. by apply elem_of_nil in Hy.
    + split; [|done]. intros y Hy. apply Hall. set_solver.
  - exists c, L1, L2. done.
Qed.

Lemma search_chooses_least_witness :
  ∃ c L1 L2,
    PCol <$> seqZ 0 constraints = L1 ++ c :: L2 ∧
    (∀ x, x ∈ L1 → scan_count (heap s0) c < scan_count (heap s0) x) ∧
    (∀ x, x ∈ L2 → scan_count (heap s0) c <= scan_count (heap s0) x) ∧
    search (S 400) 0 s0 =
      (h1 ← cover 400 (col_ (heap s0) c) (heap s0);
       s2 ← search_rows (search 400 (0 + 1)) 400 0 c (down_ h1 c) (with_heap s0 h1);
       h3 ← uncover 400 (col_ (heap s2) c) (heap s2);
       Ok (with_heap s2 h3)).
Proof.
  apply (search_chooses_least 400 0 s0 (PCol <$> seqZ 0 constraints)).
  - apply (bool_decide_unpack _). vm_compute. exact I.
  - apply (bool_decide_unpack _). vm_compute. exact I.
  - vm_compute. lia.
Defined.

(** * Loading the clues *)

Lemma drop_cons_inv {A} (l : list A) n x k :
  drop n l = x :: k → l !! n = Some x ∧ drop (S n) l = k.
Proof.
  revert l. induction n as [|n IH]; intros l Hd.
  - destruct l; simpl in Hd; [done|]. injection Hd as -> ->. done.
  - destruct l; simpl in Hd; [done|]. by apply IH.
Qed.

Lemma cover_clue_four fuel gr h :
  cover_clue fuel (Z.to_nat cells_per_row) gr 0 h = cover_four fuel gr h.
Proof.
  change (Z.to_nat cells_per_row) with 4%nat. unfold cover_four. cbn [cover_clue].
  destruct (decide (0 <= gr < row_size)); [|done].
  change (0 + 1) with 1. change (1 + 1) with 2. change (2 + 1) with 3.
  unfold mbind, res_bind.
  destruct (cover fuel (col_ h (PCell gr 0)) h) as [h1| |]; [|done|done].
  destruct (cover fuel (col_ h1 (PCell gr 1)) h1) as [h2| |]; [|done|done].
  destruct (cover fuel (col_ h2 (PCell gr 2)) h2) as [h3| |]; [|done|done].
  destruct (cover fuel (col_ h3 (PCell gr 3)) h3) as [h4| |]; done.
Qed.

Lemma load_cell_spec fuel grid i j zs line v :
  grid !! Z.to_nat i = Some line → line !! Z.to_nat j = Some v →
  load_cell fuel grid i j zs =
  if decide (v ≠ 0) then place_clue fuel zs (81 * i + 9 * j + v - 1) else Ok zs.
Proof.
  intros Hl Hv. unfold load_cell, grid_at. rewrite Hl, Hv.
  change (Ok v ≫= ?f) with (f v). cbv beta.
  destruct (decide (v ≠ 0)); [|done].
  unfold place_clue. by rewrite cover_clue_four.
Qed.

Lemma place_clues_app fuel l1 l2 zs :
  place_clues fuel (l1 ++ l2) zs = place_clues fuel l1 zs ≫= place_clues fuel l2.
Proof.
  revert zs. induction l1 as [|x l1 IH]; intros zs; [done|].
  simpl. unfold mbind at 1 3, res_bind.
  destruct (place_clue fuel zs x) as [zs'| |]; [|done|done]. apply IH.
Qed.

Lemma load_line_spec fuel grid i line :
  grid !! Z.to_nat i = Some line →
  ∀ l j zs, 0 <= j → drop (Z.to_nat j) line = l →
    load_line fuel (length l) grid i j zs = place_clues fuel (line_clues i j l) zs.
Proof.
  intros Hl l. induction l as [|v l IH]; intros j zs Hj Hd; [done|].
  apply drop_cons_inv in Hd as [Hv Hd].
  cbn [length load_line line_clues].
  rewrite (load_cell_spec fuel grid i j zs line v Hl Hv).
  rewrite place_clues_app.
  assert (Hd' : drop (Z.to_nat (j + 1)) line = l).
  { rewrite <- Hd. f_equal. lia. }
  destruct (decide (v ≠ 0)).
  - cbn [place_clues]. unfold mbind, res_bind.
    destruct (place_clue fuel zs _) as [zs'| |]; [|done|done].
    apply IH; [lia|done].
  - cbn [place_clues]. change (Ok zs ≫= ?f) with (f zs). apply IH; [lia|done].
Qed.

Lemma load_grid_spec fuel grid :
  ∀ g i zs, 0 <= i → drop (Z.to_nat i) grid = g →
    Forall (λ line, length line = 9%nat) g →
    load_grid fuel (length g) grid i zs = place_clues fuel (grid_clues i g) zs.
Proof.
  intros g. induction g as [|line g IH]; intros i zs Hi Hd Hall; [done|].
  apply drop_cons_inv in Hd as [Hl Hd].
  apply Forall_cons in Hall as [Hlen Hall].
  cbn [length load_grid grid_clues]. rewrite place_clues_app.
  pose proof (load_line_spec fuel grid i line Hl line 0 zs ltac:(lia) eq_refl) as E.
  rewrite Hlen in E. rewrite E.
  unfold mbind, res_bind.
  destruct (place_clues fuel (line_clues i 0 line) zs) as [zs'| |]; [|done|done].
  apply IH; [lia| |done]. rewrite <- Hd. f_equal. lia.
Qed.

Lemma line_clues_length i j line :
  length (line_clues i j line) = length (filter (λ v, v ≠ 0) line).
Proof.
  revert j. induction line as [|v line IH]; intros j; [done|].
  cbn [line_clues]. rewrite length_app, IH, filter_cons.
  destruct (decide (v ≠ 0)); done.
Qed.

Lemma grid_clues_length i grid :
  length (grid_clues i grid) = length (filter (λ v, v ≠ 0) (concat grid)).
Proof.
  revert i. induction grid as [|line grid IH]; intros i; [done|].
  cbn [grid_clues concat]. rewrite length_app, filter_app, length_app, IH.
  by rewrite line_clues_length.
Qed.

Lemma set_solution_Ok k v s s' :
  set_solution k v s = Ok s' →
  0 <= k < grid_size ∧ heap s' = heap s ∧ root s' = root s ∧ out s' = out s ∧
  row_count s' = row_count s ∧ solution s' = <[Z.to_nat k := v]> (solution s).
Proof.
  unfold set_solution. destruct (decide (0 <= k < grid_size)); [|done].
  intros [= <-]. done.
Qed.

Lemma place_clue_Ok fuel zs gr zs' :
  place_clue fuel zs gr = Ok zs' →
  zs'.1 = zs.1 + 1 ∧ 0 <= zs.1 < grid_size ∧
  solution zs'.2 = <[Z.to_nat zs.1 := Some gr]> (solution zs.2) ∧
  root zs'.2 = root zs.2 ∧ out zs'.2 = out zs.2 ∧
  cover_four fuel gr (heap zs.2) = Ok (heap zs'.2).
Proof.
  unfold place_clue. intros H.
  apply bind_Ok in H as (h & Hh & H). apply bind_Ok in H as (s' & Hs & H).
  injection H as <-. apply set_solution_Ok in Hs as (H1 & H2 & H3 & H4 & H5 & H6).
  simpl in *. rewrite H2. done.
Qed.

Lemma place_clues_trace fuel l : ∀ zs zs',
  place_clues fuel l zs = Ok zs' → 0 <= zs.1 →
  length (solution zs.2) = Z.to_nat grid_size →
  zs'.1 = zs.1 + Z.of_nat (length l) ∧
  length (solution zs'.2) = Z.to_nat grid_size ∧
  root zs'.2 = root zs.2 ∧ out zs'.2 = out zs.2 ∧
  (∀ t, (t < Z.to_nat zs.1)%nat → solution zs'.2 !! t = solution zs.2 !! t) ∧
  (∀ t gr, l !! t = Some gr → solution zs'.2 !! (Z.to_nat zs.1 + t)%nat = Some (Some gr)).
Proof.
  induction l as [|gr l IH]; intros zs zs' H Hz Hlen.
  - injection H as <-. simpl. repeat split; try done; try lia.
  - cbn [place_clues] in H. apply bind_Ok in H as (zs1 & H1 & H).
    apply place_clue_Ok in H1 as (E1 & Hr & E2 & E3 & E4 & _).
    destruct (IH zs1 zs' H) as (I1 & I2 & I3 & I4 & I5 & I6).
    { lia. }
    { by rewrite E2, length_insert. }
    split; [rewrite I1, E1; cbn [length]; lia|].
    split; [done|]. split; [congruence|]. split; [congruence|]. split.
    + intros t Ht. rewrite I5 by lia. rewrite E2.
      apply list_lookup_insert_ne. lia.
    + intros t g Ht. destruct t as [|t].
      * injection Ht as ->. rewrite Nat.add_0_r. rewrite I5 by lia.
        rewrite E2. apply list_lookup_insert_eq. consts. lia.
      * simpl in Ht. specialize (I6 t g Ht).
        replace (Z.to_nat zs.1 + S t)%nat with (Z.to_nat zs1.1 + t)%nat by lia. done.
Qed.

(** * Reporting a solution *)

Lemma printSolution_Ok s s' :
  printSolution s = Ok s' →
  heap s' = heap s ∧ solution s' = solution s ∧ root s' = root s ∧
  row_count s' = row_count s ∧ ∃ g, out s' = out s ++ [g].
Proof.
  unfold printSolution. intros H.
  apply bind_Ok in H as (g & _ & H). apply bind_Ok in H as (lines & _ & H).
  injection H as <-. simpl. eauto 10.
Qed.

(** C2 fails as it is stated: on [two_solutions_grid] the program
    reports two grids. *)
Lemma search_reports_two_solutions :
  run 400 two_solutions_grid = Ok [solved_grid; solved_grid'] ∧
  solved_grid ≠ solved_grid'.
Proof. split; [vm_compute; reflexivity|discriminate]. Qed.

(** * Covering the columns of a row, and uncovering them *)

Lemma covers_heap_snoc ds : ∀ h V d,
  covers_heap h V (ds ++ [d]) = cover_result (covers_heap h V ds) (covers_V V ds) d.
Proof. induction ds as [|x ds IH]; intros h V d; [done|]. simpl. apply IH. Qed.

Lemma covers_V_snoc ds : ∀ V d,
  covers_V V (ds ++ [d]) = cover_V (covers_V V ds) d.
Proof. induction ds as [|x ds IH]; intros V d; [done|]. simpl. apply IH. Qed.

Lemma covers_Lv_snoc ds : ∀ Lv d,
  covers_Lv Lv (ds ++ [d]) = cover_Lv (covers_Lv Lv ds) d.
Proof. induction ds as [|x ds IH]; intros Lv d; [done|]. simpl. apply IH. Qed.

Lemma covers_Lv_spec ds : ∀ Lv x, x ∈ covers_Lv Lv ds ↔ x ∈ Lv ∧ x ∉ ds.
Proof.
  induction ds as [|d ds IH]; intros Lv x; simpl.
  - set_solver.
  - rewrite IH. unfold cover_Lv. rewrite list_elem_of_filter, not_elem_of_cons. tauto.
Qed.

Lemma covers_Lv_length ds : ∀ Lv,
  NoDup Lv → NoDup ds → (∀ d, d ∈ ds → d ∈ Lv) →
  (length (covers_Lv Lv ds) + length ds = length Lv)%nat.
Proof.
  induction ds as [|d ds IH]; intros Lv HLv Hnd Hin; simpl; [lia|].
  apply NoDup_cons in Hnd as [Hd Hnd].
  rewrite <- (length_filter_ne d Lv HLv) by (apply Hin; set_solver).
  unfold cover_Lv in *. rewrite <- (IH (filter (λ x, x ≠ d) Lv)).
  - lia.
  - by apply NoDup_filter.
  - done.
  - intros x Hx. apply list_elem_of_filter. split; [by intros ->|]. apply Hin. set_solver.
Qed.

Lemma covers_Inv ds : ∀ h Lv V,
  Inv h Lv V → NoDup ds → (∀ d, d ∈ ds → d ∈ Lv) →
  Inv (covers_heap h V ds) (covers_Lv Lv ds) (covers_V V ds).
Proof.
  induction ds as [|d ds IH]; intros h Lv V HI Hnd Hin; [done|].
  apply NoDup_cons in Hnd as [Hd Hnd]. simpl. apply IH.
  - apply cover_Inv; [done|]. apply Hin. set_solver.
  - done.
  - intros x Hx. apply list_elem_of_filter. split; [by intros ->|]. apply Hin. set_solver.
Qed.

Lemma col_covers_heap ds : ∀ h V x, col_ (covers_heap h V ds) x = col_ h x.
Proof.
  induction ds as [|d ds IH]; intros h V x; [done|].
  simpl. by rewrite IH, col_cover_result.
Qed.

Lemma Inv_right_cell h Lv V h' Lv' V' x :
  Inv h Lv V → Inv h' Lv' V' → is_cell x → right_ h' x = right_ h x ∧ left_ h' x = left_ h x.
Proof.
  intros HI HI'. destruct x as [|r k]; [done|]. intros [Hr Hk].
  rewrite (sh_right h (inv_shape _ _ _ HI) r k Hr Hk).
  rewrite (sh_right h' (inv_shape _ _ _ HI') r k Hr Hk).
  rewrite (sh_left h (inv_shape _ _ _ HI) r k Hr Hk).
  rewrite (sh_left h' (inv_shape _ _ _ HI') r k Hr Hk). done.
Qed.

Lemma cover_others_spec r J : ∀ h Lv V j n,
  Inv h Lv V → path (right_ h) j J r → (∀ x, x ∈ J → is_cell x) →
  NoDup (col_ h <$> J) → (∀ x, x ∈ J → col_ h x ∈ Lv) →
  (length J + 15 <= n)%nat →
  cover_others n r j h = Ok (covers_heap h V (col_ h <$> J)).
Proof.
  induction J as [|x J IH]; intros h Lv V j n HI Hp Hcell Hnd Hlive Hn.
  - simpl in Hp. subst j. destruct n; [simpl in Hn; lia|].
    simpl. by rewrite decide_True.
  - simpl in Hp. destruct Hp as (-> & Hne & Hp).
    destruct n; [simpl in Hn; lia|]. simpl in Hn.
    rewrite fmap_cons in Hnd. apply NoDup_cons in Hnd as [Hx Hnd].
    assert (Hxl : col_ h x ∈ Lv) by (apply Hlive; set_solver).
    pose proof (cover_Inv h Lv V HI (col_ h x) Hxl) as HI'.
    cbn [cover_others]. rewrite decide_False by done.
    rewrite (cover_eq h Lv V HI (col_ h x) Hxl) by lia.
    change (Ok ?a ≫= ?f) with (f a). cbv beta.
    assert (Hcol : ∀ y, col_ (cover_result h V (col_ h x)) y = col_ h y)
      by (intros y; apply col_cover_result).
    assert (Hx' : is_cell x) by (apply Hcell; set_solver).
    destruct (Inv_right_cell _ _ _ _ _ _ x HI HI' Hx') as [-> _].
    rewrite fmap_cons. cbn [covers_heap].
    replace (col_ h <$> J) with (col_ (cover_result h V (col_ h x)) <$> J)
      by (apply list_fmap_ext; intros; apply Hcol).
    eapply IH.
    + exact HI'.
    + eapply path_ext; [|exact Hp]. intros y Hy.
      apply (Inv_right_cell _ _ _ _ _ _ y HI HI'). apply Hcell. set_solver.
    + intros y Hy. apply Hcell. set_solver.
    + replace (col_ (cover_result h V (col_ h x)) <$> J) with (col_ h <$> J)
        by (apply list_fmap_ext; intros; symmetry; apply Hcol). done.
    + intros y Hy. rewrite Hcol. apply list_elem_of_filter. split.
      * intros E. apply Hx. rewrite <- E. by apply list_elem_of_fmap_2.
      * apply Hlive. set_solver.
    + lia.
Qed.

Lemma uncover_others_spec r h Lv V (HI : Inv h Lv V) J : ∀ j n,
  (∀ x, x ∈ J → is_cell x) →
  NoDup (col_ h <$> J) → (∀ x, x ∈ J → col_ h x ∈ Lv) →
  path (left_ h) j (reverse J) r →
  (length J + 15 <= n)%nat →
  uncover_others n r j (covers_heap h V (col_ h <$> J)) = Ok h.
Proof.
  induction J as [|x J IH] using rev_ind; intros j n Hcell Hnd Hlive Hp Hn.
  - simpl in Hp. subst j. destruct n; [simpl in Hn; lia|].
    simpl. by rewrite decide_True.
  - rewrite reverse_snoc in Hp. simpl in Hp. destruct Hp as (-> & Hne & Hp).
    rewrite length_app in Hn. simpl in Hn.
    destruct n; [lia|].
    rewrite fmap_app in Hnd. apply NoDup_app in Hnd as (Hnd & Hdisj & _).
    assert (HJl : ∀ d, d ∈ col_ h <$> J → d ∈ Lv).
    { intros d Hd. apply list_elem_of_fmap in Hd as (y & -> & Hy). apply Hlive. set_solver. }
    pose proof (covers_Inv (col_ h <$> J) h Lv V HI Hnd HJl) as HI'.
    assert (Hxl : col_ h x ∈ covers_Lv Lv (col_ h <$> J)).
    { apply covers_Lv_spec. split; [apply Hlive; set_solver|].
      intros Hin. apply (Hdisj _ Hin). set_solver. }
    assert (Hx' : is_cell x) by (apply Hcell; set_solver).
    rewrite fmap_app. change (col_ h <$> [x]) with [col_ h x]. rewrite covers_heap_snoc.
    pose proof (cover_Inv _ _ _ HI' (col_ h x) Hxl) as HI''.
    cbn [uncover_others]. rewrite decide_False by done.
    rewrite col_cover_result, col_covers_heap.
    rewrite (uncover_eq _ _ _ HI' (col_ h x) Hxl) by lia.
    change (Ok ?a ≫= ?f) with (f a). cbv beta.
    destruct (Inv_right_cell _ _ _ _ _ _ x HI HI' Hx') as [_ ->].
    apply IH.
    + intros y Hy. apply Hcell. set_solver.
    + done.
    + intros y Hy. apply Hlive. set_solver.
    + done.
    + lia.
Qed.

(** Rows all of whose columns stay live stay present. *)
Lemma avail_cover h Lv V d :
  Inv h Lv V → d ∈ Lv → avail h Lv V →
  avail (cover_result h V d) (cover_Lv Lv d) (cover_V V d).
Proof.
  intros HI Hd Ha ρ κ Hρ Hκ Hall. rewrite col_cover_result.
  pose proof (inv_shape _ _ _ HI) as Hsh.
  apply list_elem_of_filter. split.
  - intros Hin. apply list_elem_of_bind in Hin as (y & Hxy & Hy).
    destruct (ring_cell h Lv V HI d y Hd Hy) as [Hcy Hcol].
    apply (mates_sym y (PCell ρ κ) Hcy) in Hxy.
    apply (mates_spec ρ κ y Hκ) in Hxy as (κ' & -> & Hκ' & _).
    pose proof (sh_col_cell h Hsh ρ κ' Hρ Hκ') as Hit. rewrite Hcol in Hit.
    apply list_elem_of_lookup_2 in Hit. apply Hall in Hit.
    apply list_elem_of_filter in Hit as [Hne _]. done.
  - apply Ha; [done..|]. intros d' Hd'. apply Hall in Hd'.
    by apply list_elem_of_filter in Hd' as [_ ?].
Qed.

Lemma avail_covers ds : ∀ h Lv V,
  Inv h Lv V → NoDup ds → (∀ d, d ∈ ds → d ∈ Lv) → avail h Lv V →
  avail (covers_heap h V ds) (covers_Lv Lv ds) (covers_V V ds).
Proof.
  induction ds as [|d ds IH]; intros h Lv V HI Hnd Hin Ha; [done|].
  apply NoDup_cons in Hnd as [Hd Hnd]. simpl. apply IH.
  - apply cover_Inv; [done|]. apply Hin. apply list_elem_of_here.
  - done.
  - intros x Hx. apply list_elem_of_filter. split; [by intros ->|].
    apply Hin. by apply list_elem_of_further.
  - apply avail_cover; [done| |done]. apply Hin. apply list_elem_of_here.
Qed.

(** * An exact cover is a solved Sudoku *)

(** The candidate row [r] decoded, and its four columns. *)
Lemma row_items_decode r :
  0 <= r < row_size →
  ∃ a b e, 0 <= a < 9 ∧ 0 <= b < 9 ∧ 0 <= e < 9 ∧ r = 81 * a + 9 * b + e ∧
    (r / 81 = a ∧ (r / 9) mod 9 = b ∧ r mod 9 = e) ∧
    (r `quot` 81 = a ∧ (r `quot` 9) `rem` 9 = b ∧ r `rem` 9 = e) ∧
    row_items r =
      [9 * a + b; 81 + 9 * a + e; 162 + 9 * b + e; 243 + 27 * (a / 3) + 9 * (b / 3) + e].
Proof.
  intros Hr. consts.
  exists (r / 81), ((r / 9) mod 9), (r mod 9).
  assert (Hq : ∀ x y, 0 <= x → 0 < y → x `quot` y = x / y)
    by (intros; by apply Z.quot_div_nonneg).
  assert (Hm : ∀ x y, 0 <= x → 0 < y → x `rem` y = x mod y)
    by (intros; by apply Z.rem_mod_nonneg).
  assert (0 <= r / 9) by (apply Z.div_pos; lia).
  assert (0 <= r / 81) by (apply Z.div_pos; lia).
  assert (0 <= (r / 9) mod 9 < 9) by (apply Z.mod_pos_bound; lia).
  unfold row_items. cbv zeta.
  rewrite !Hq, !Hm by (rewrite ?Hq, ?Hm by lia; lia).
  repeat split; try (Z.div_mod_to_equations; lia).
  f_equal; [Z.div_mod_to_equations; lia|].
  f_equal; [Z.div_mod_to_equations; lia|].
  f_equal; [Z.div_mod_to_equations; lia|].
  f_equal. Z.div_mod_to_equations; lia.
Qed.

Lemma cover_unique (R : list Z) r r' c :
  NoDup (R ≫= row_items) → r ∈ R → r' ∈ R → c ∈ row_items r → c ∈ row_items r' → r = r'.
Proof.
  induction R as [|x R IH]; intros Hnd Hr Hr' Hc Hc'; [set_solver|].
  rewrite bind_cons in Hnd. apply NoDup_app in Hnd as (_ & Hdisj & Hnd).
  apply elem_of_cons in Hr as [->|Hr]; apply elem_of_cons in Hr' as [->|Hr'].
  - done.
  - exfalso. apply (Hdisj c Hc). apply list_elem_of_bind. eauto.
  - exfalso. apply (Hdisj c Hc'). apply list_elem_of_bind. eauto.
  - by apply IH.
Qed.

Lemma filter_none {A} (P : A → Prop) `{∀ x, Decision (P x)} (l : list A) :
  (∀ x, x ∈ l → ¬ P x) → filter P l = [].
Proof.
  induction l as [|y l IH]; intros Hl; [done|].
  rewrite filter_cons_False by (apply Hl; set_solver). apply IH. intros; apply Hl; set_solver.
Qed.

Lemma filter_unique {A} (P : A → Prop) `{∀ x, Decision (P x)} (l : list A) x0 :
  NoDup l → x0 ∈ l → P x0 → (∀ x, x ∈ l → P x → x = x0) → length (filter P l) = 1%nat.
Proof.
  induction l as [|y l IH]; intros Hnd Hin HP Hu; [set_solver|].
  apply NoDup_cons in Hnd as [Hy Hnd].
  destruct (decide (P y)) as [HPy|HPy].
  - assert (y = x0) as -> by (apply Hu; [set_solver|done]).
    rewrite filter_cons_True by done. rewrite filter_none; [done|].
    intros x Hx HPx. apply Hy. rewrite <- (Hu x); [done|set_solver|done].
  - rewrite filter_cons_False by done.
    apply IH; [done| |done|].
    + apply elem_of_cons in Hin as [->|]; done.
    + intros; apply Hu; [set_solver|done].
Qed.

Lemma filter_eq_fmap (f : Z → Z) d (l : list Z) :
  length (filter (λ y, y = d) (f <$> l)) = length (filter (λ x, f x = d) l).
Proof.
  induction l as [|x l IH]; [done|]. rewrite fmap_cons.
  destruct (decide (f x = d)) as [E|E].
  - rewrite !filter_cons_True by done. simpl. by rewrite IH.
  - by rewrite !filter_cons_False by done.
Qed.

(** The digit [d] occurs once among [f 0 .. f 8] when it occurs at [t0]
    and nowhere else. *)
Lemma once_at (f : Z → Z) d t0 :
  0 <= t0 < 9 → f t0 = d → (∀ t, 0 <= t < 9 → f t = d → t = t0) →
  length (filter (λ y, y = d) (f <$> seqZ 0 9)) = 1%nat.
Proof.
  intros Ht0 Hf Hu. rewrite filter_eq_fmap.
  apply (filter_unique _ _ t0).
  - apply NoDup_seqZ.
  - apply elem_of_seqZ. lia.
  - done.
  - intros t Ht. apply elem_of_seqZ in Ht. apply Hu. lia.
Qed.

Lemma in_row_items r a b e c :
  row_items r =
    [9 * a + b; 81 + 9 * a + e; 162 + 9 * b + e; 243 + 27 * (a / 3) + 9 * (b / 3) + e] →
  c ∈ row_items r ↔
  c = 9 * a + b ∨ c = 81 + 9 * a + e ∨ c = 162 + 9 * b + e ∨
  c = 243 + 27 * (a / 3) + 9 * (b / 3) + e.
Proof. intros ->. rewrite !elem_of_cons. set_solver. Qed.

Section exact_cover.
Context (g : list (list Z)) (R : list Z).
Context (Hg : nine_by_nine g).
Context (HR : ∀ r, r ∈ R → 0 <= r < row_size).
Context (Hnd : NoDup (R ≫= row_items)).
Context (Hall : ∀ c, 0 <= c < constraints → c ∈ R ≫= row_items).
Context (Hpl : ∀ r, r ∈ R → placed g r).

(** Every column is the column of a chosen row. *)
Lemma column_row c :
  0 <= c < constraints →
  ∃ r a b e, r ∈ R ∧ 0 <= a < 9 ∧ 0 <= b < 9 ∧ 0 <= e < 9 ∧ r = 81 * a + 9 * b + e ∧
    cell_at g a b = e + 1 ∧
    row_items r =
      [9 * a + b; 81 + 9 * a + e; 162 + 9 * b + e; 243 + 27 * (a / 3) + 9 * (b / 3) + e] ∧
    c ∈ row_items r.
Proof.
  intros Hc. apply Hall in Hc. apply list_elem_of_bind in Hc as (r & Hc & Hr).
  destruct (row_items_decode r (HR r Hr)) as (a & b & e & Ha & Hb & He & Hre & (D1 & D2 & D3) & _ & Hit).
  exists r, a, b, e. repeat split; try done; try lia.
  pose proof (Hpl r Hr) as Hp. unfold placed in Hp. by rewrite D1, D2, D3 in Hp.
Qed.

(** The cell [(i, j)] holds the digit of the one chosen row of this cell. *)
Lemma cell_row i j :
  0 <= i < 9 → 0 <= j < 9 →
  ∃ e, 0 <= e < 9 ∧ 81 * i + 9 * j + e ∈ R ∧ cell_at g i j = e + 1.
Proof.
  intros Hi Hj.
  destruct (column_row (9 * i + j)) as (r & a & b & e & Hr & Ha & Hb & He & -> & Hcell & Hit & Hin);
    [consts; lia|].
  rewrite Hit in Hin.
  assert (a = i ∧ b = j) as [-> ->].
  { repeat (apply elem_of_cons in Hin as [Hin|Hin]); [lia|lia|lia| |set_solver].
    Z.div_mod_to_equations. lia. }
  by exists e.
Qed.

(** The chosen row of the cell [(i, j)] when the cell holds [e + 1]. *)
Lemma cell_row_of i j e :
  0 <= i < 9 → 0 <= j < 9 → cell_at g i j = e + 1 → 81 * i + 9 * j + e ∈ R ∧ 0 <= e < 9.
Proof.
  intros Hi Hj Hc. destruct (cell_row i j Hi Hj) as (e' & He' & Hr & Hc').
  assert (e' = e) as -> by lia. done.
Qed.

Lemma row_items_of i j e :
  0 <= i < 9 → 0 <= j < 9 → 0 <= e < 9 →
  row_items (81 * i + 9 * j + e) =
    [9 * i + j; 81 + 9 * i + e; 162 + 9 * j + e; 243 + 27 * (i / 3) + 9 * (j / 3) + e].
Proof.
  intros Hi Hj He.
  destruct (row_items_decode (81 * i + 9 * j + e)) as (a & b & e' & Ha & Hb & He' & Hre & _ & _ & ->);
    [consts; lia|].
  assert (a = i ∧ b = j ∧ e' = e) as (-> & -> & ->) by lia. done.
Qed.

Lemma exact_cover_rows i d :
  0 <= i < 9 → 1 <= d <= 9 → length (filter (λ y, y = d) (grid_row g i)) = 1%nat.
Proof.
  intros Hi Hd.
  destruct (column_row (81 + 9 * i + (d - 1))) as (r & a & b & e & Hr & Ha & Hb & He & -> & Hcell & Hit & Hin);
    [consts; lia|].
  apply (in_row_items _ _ _ _ _ Hit) in Hin.
  assert (a = i ∧ e = d - 1) as [-> ->] by (Z.div_mod_to_equations; lia).
  apply (once_at _ d b); [done|by rewrite Hcell; lia|].
  intros t Ht Hc.
  destruct (cell_row_of i t (d - 1) Hi Ht ltac:(lia)) as [Hr' _].
  assert (E : 81 * i + 9 * b + (d - 1) = 81 * i + 9 * t + (d - 1)); [|lia].
  apply (cover_unique R _ _ (81 + 9 * i + (d - 1)) Hnd Hr Hr').
  - rewrite Hit. set_solver.
  - rewrite (row_items_of i t (d - 1)) by lia. set_solver.
Qed.

Lemma exact_cover_cols j d :
  0 <= j < 9 → 1 <= d <= 9 → length (filter (λ y, y = d) (grid_col g j)) = 1%nat.
Proof.
  intros Hj Hd.
  destruct (column_row (162 + 9 * j + (d - 1))) as (r & a & b & e & Hr & Ha & Hb & He & -> & Hcell & Hit & Hin);
    [consts; lia|].
  apply (in_row_items _ _ _ _ _ Hit) in Hin.
  assert (b = j ∧ e = d - 1) as [-> ->] by (Z.div_mod_to_equations; lia).
  apply (once_at _ d a); [done|by rewrite Hcell; lia|].
  intros t Ht Hc.
  destruct (cell_row_of t j (d - 1) Ht Hj ltac:(lia)) as [Hr' _].
  assert (E : 81 * a + 9 * j + (d - 1) = 81 * t + 9 * j + (d - 1)); [|lia].
  apply (cover_unique R _ _ (162 + 9 * j + (d - 1)) Hnd Hr Hr').
  - rewrite Hit. set_solver.
  - rewrite (row_items_of t j (d - 1)) by lia. set_solver.
Qed.

Lemma exact_cover_blocks β d :
  0 <= β < 9 → 1 <= d <= 9 → length (filter (λ y, y = d) (grid_block g β)) = 1%nat.
Proof.
  intros Hβ Hd.
  destruct (column_row (243 + 9 * β + (d - 1))) as (r & a & b & e & Hr & Ha & Hb & He & -> & Hcell & Hit & Hin);
    [consts; lia|].
  apply (in_row_items _ _ _ _ _ Hit) in Hin.
  assert (a / 3 = β / 3 ∧ b / 3 = β mod 3 ∧ e = d - 1) as (Ea & Eb & ->)
    by (Z.div_mod_to_equations; lia).
  apply (once_at _ d (3 * (a mod 3) + b mod 3)).
  - Z.div_mod_to_equations; lia.
  - replace (3 * (β / 3) + (3 * (a mod 3) + b mod 3) / 3) with a
      by (Z.div_mod_to_equations; lia).
    replace (3 * (β mod 3) + (3 * (a mod 3) + b mod 3) mod 3) with b
      by (Z.div_mod_to_equations; lia).
    rewrite Hcell. lia.
  - intros t Ht Hc.
    assert (Hi : 0 <= 3 * (β / 3) + t / 3 < 9) by (Z.div_mod_to_equations; lia).
    assert (Hj : 0 <= 3 * (β mod 3) + t mod 3 < 9) by (Z.div_mod_to_equations; lia).
    destruct (cell_row_of _ _ (d - 1) Hi Hj ltac:(lia)) as [Hr' _].
    assert (E : 81 * a + 9 * b + (d - 1) =
                81 * (3 * (β / 3) + t / 3) + 9 * (3 * (β mod 3) + t mod 3) + (d - 1)).
    { apply (cover_unique R _ _ (243 + 9 * β + (d - 1)) Hnd Hr Hr').
      - rewrite Hit. rewrite !elem_of_cons. right; right; right; left.
        Z.div_mod_to_equations; lia.
      - rewrite (row_items_of _ _ (d - 1)) by lia.
        rewrite !elem_of_cons. right; right; right; left.
        Z.div_mod_to_equations; lia. }
    Z.div_mod_to_equations; lia.
Qed.

Lemma exact_cover_valid : valid_sudoku g.
Proof.
  split; [done|]. apply Forall_forall. intros i Hi. apply elem_of_seqZ in Hi.
  repeat split; apply Forall_forall; intros d Hd; apply elem_of_seqZ in Hd.
  - apply exact_cover_rows; lia.
  - apply exact_cover_cols; lia.
  - apply exact_cover_blocks; lia.
Qed.

End exact_cover.

(** * A solved Sudoku is an exact cover *)

(** A list in which each element of [ds] occurs once holds [ds] and
    elements that are not in [ds]. *)
Lemma counts_perm (ds : list Z) : ∀ l,
  NoDup ds → (∀ d, d ∈ ds → length (filter (λ x, x = d) l) = 1%nat) →
  ∃ l', l ≡ₚ ds ++ l' ∧ ∀ x, x ∈ l' → x ∉ ds.
Proof.
  induction ds as [|d ds IH]; intros l Hnd Hc.
  - exists l. split; [done|]. intros x _. apply not_elem_of_nil.
  - apply NoDup_cons in Hnd as [Hd Hnd].
    assert (Hin : d ∈ l).
    { pose proof (Hc d ltac:(apply list_elem_of_here)) as H1.
      destruct (filter (λ x, x = d) l) as [|y ?] eqn:E; [done|].
      assert (Hy : y ∈ filter (λ x, x = d) l) by (rewrite E; apply list_elem_of_here).
      apply list_elem_of_filter in Hy as [-> Hy]. done. }
    apply elem_of_Permutation in Hin as [l1 Hl1].
    assert (Hc1 : ∀ d', d' ∈ ds → length (filter (λ x, x = d') l1) = 1%nat).
    { intros d' Hd'. rewrite <- (Hc d') by (by apply list_elem_of_further).
      rewrite Hl1. rewrite filter_cons_False; [done|]. intros ->. done. }
    destruct (IH l1 Hnd Hc1) as (l' & Hl' & Hout).
    exists l'. split; [by rewrite Hl1, Hl'|].
    intros x Hx. apply not_elem_of_cons. split; [|by apply Hout].
    intros ->. pose proof (Hc d ltac:(apply list_elem_of_here)) as H1.
    rewrite Hl1, Hl' in H1. rewrite filter_cons_True in H1 by done.
    rewrite filter_app, length_cons, length_app in H1.
    apply elem_of_Permutation in Hx as [l2 Hl2]. rewrite Hl2 in H1.
    rewrite filter_cons_True in H1 by done. simpl in H1. lia.
Qed.

Lemma once_each_perm l : length l = 9%nat → once_each l → l ≡ₚ seqZ 1 9.
Proof.
  intros Hlen Ho. unfold once_each in Ho. rewrite Forall_forall in Ho.
  destruct (counts_perm (seqZ 1 9) l (NoDup_seqZ _ _) Ho) as (l' & Hl & _).
  assert (Hl0 : length l' = 0%nat).
  { apply Permutation_length in Hl. rewrite length_app, length_seqZ in Hl. lia. }
  apply nil_length_inv in Hl0. subst l'. by rewrite app_nil_r in Hl.
Qed.

(** The nine cells [f 0 .. f 8] of a row, a column or a block of a
    solved Sudoku. *)
Lemma unit_cells (f : Z → Z) :
  once_each (f <$> seqZ 0 9) →
  (∀ t, 0 <= t < 9 → 1 <= f t <= 9) ∧
  (∀ d, 1 <= d <= 9 → ∃ t, 0 <= t < 9 ∧ f t = d) ∧
  (∀ t t', 0 <= t < 9 → 0 <= t' < 9 → f t = f t' → t = t').
Proof.
  intros Ho.
  assert (Hlen : length (f <$> seqZ 0 9) = 9%nat) by (by rewrite length_fmap, length_seqZ).
  pose proof (once_each_perm _ Hlen Ho) as Hp.
  split; [|split].
  - intros t Ht.
    assert (H : f t ∈ f <$> seqZ 0 9) by (apply list_elem_of_fmap_2, elem_of_seqZ; lia).
    rewrite Hp in H. apply elem_of_seqZ in H. lia.
  - intros d Hd.
    assert (H : d ∈ seqZ 1 9) by (apply elem_of_seqZ; lia).
    rewrite <- Hp in H. apply list_elem_of_fmap in H as (t & -> & Ht).
    apply elem_of_seqZ in Ht. exists t. split; [lia|done].
  - intros t t' Ht Ht' E.
    assert (Hnd : NoDup (f <$> seqZ 0 9)) by (rewrite Hp; apply NoDup_seqZ).
    assert (H1 : (f <$> seqZ 0 9) !! Z.to_nat t = Some (f t)).
    { rewrite list_lookup_fmap, lookup_seqZ_lt by lia. simpl. f_equal. f_equal. lia. }
    assert (H2 : (f <$> seqZ 0 9) !! Z.to_nat t' = Some (f t)).
    { rewrite list_lookup_fmap, lookup_seqZ_lt by lia. simpl. rewrite E. f_equal. f_equal. lia. }
    pose proof (NoDup_lookup _ _ _ _ Hnd H1 H2). lia.
Qed.

Section solved.
Context (g : list (list Z)) (Hv : valid_sudoku g).

Lemma solved_row i : 0 <= i < 9 → once_each ((λ j, cell_at g i j) <$> seqZ 0 9).
Proof.
  intros Hi. destruct Hv as [_ H]. rewrite Forall_seqZ in H.
  by destruct (H i ltac:(lia)) as (? & _ & _).
Qed.
Lemma solved_col j : 0 <= j < 9 → once_each ((λ i, cell_at g i j) <$> seqZ 0 9).
Proof.
  intros Hj. destruct Hv as [_ H]. rewrite Forall_seqZ in H.
  by destruct (H j ltac:(lia)) as (_ & ? & _).
Qed.
Lemma solved_block β : 0 <= β < 9 →
  once_each ((λ t, cell_at g (3 * (β / 3) + t / 3) (3 * (β mod 3) + t mod 3)) <$> seqZ 0 9).
Proof.
  intros Hβ. destruct Hv as [_ H]. rewrite Forall_seqZ in H.
  by destruct (H β ltac:(lia)) as (_ & _ & ?).
Qed.

Lemma solved_digit i j : 0 <= i < 9 → 0 <= j < 9 → 1 <= cell_at g i j <= 9.
Proof.
  intros Hi Hj. destruct (unit_cells _ (solved_row i Hi)) as (H & _ & _). by apply H.
Qed.

(** The candidate row of a cell of the grid is placed. *)
Lemma placed_cell i j :
  0 <= i < 9 → 0 <= j < 9 →
  0 <= 81 * i + 9 * j + (cell_at g i j - 1) < row_size ∧
  placed g (81 * i + 9 * j + (cell_at g i j - 1)).
Proof.
  intros Hi Hj. pose proof (solved_digit i j Hi Hj) as Hd.
  split; [consts; lia|]. unfold placed.
  replace ((81 * i + 9 * j + (cell_at g i j - 1)) / 81) with i by (Z.div_mod_to_equations; lia).
  replace ((81 * i + 9 * j + (cell_at g i j - 1)) / 9 mod 9) with j
    by (Z.div_mod_to_equations; lia).
  Z.div_mod_to_equations; lia.
Qed.

(** A placed row, decoded. *)
Lemma placed_decode ρ :
  0 <= ρ < row_size → placed g ρ →
  ∃ a b e, 0 <= a < 9 ∧ 0 <= b < 9 ∧ 0 <= e < 9 ∧ ρ = 81 * a + 9 * b + e ∧
    cell_at g a b = e + 1 ∧
    row_items ρ =
      [9 * a + b; 81 + 9 * a + e; 162 + 9 * b + e; 243 + 27 * (a / 3) + 9 * (b / 3) + e].
Proof.
  intros Hρ Hp.
  destruct (row_items_decode ρ Hρ) as (a & b & e & Ha & Hb & He & Hre & (D1 & D2 & D3) & _ & Hit).
  exists a, b, e. unfold placed in Hp. rewrite D1, D2, D3 in Hp. done.
Qed.

(** Every constraint column is a column of a placed row. *)
Lemma solved_covers c :
  0 <= c < constraints → ∃ ρ, 0 <= ρ < row_size ∧ placed g ρ ∧ c ∈ row_items ρ.
Proof.
  intros Hc. consts.
  assert (Hcase : 0 <= c < 81 ∨ 81 <= c < 162 ∨ 162 <= c < 243 ∨ 243 <= c < 324) by lia.
  destruct Hcase as [H | [H | [H | H]]].
  - set (i := c / 9). set (j := c mod 9).
    assert (Hi : 0 <= i < 9) by (unfold i; Z.div_mod_to_equations; lia).
    assert (Hj : 0 <= j < 9) by (unfold j; Z.div_mod_to_equations; lia).
    destruct (placed_cell i j Hi Hj) as [Hr Hp]. pose proof (solved_digit i j Hi Hj).
    eexists. split; [exact Hr|]. split; [exact Hp|].
    rewrite (row_items_of i j (cell_at g i j - 1)) by lia.
    apply elem_of_cons. left. unfold i, j. Z.div_mod_to_equations; lia.
  - set (i := (c - 81) / 9). set (e := (c - 81) mod 9).
    assert (Hi : 0 <= i < 9) by (unfold i; Z.div_mod_to_equations; lia).
    assert (He : 0 <= e < 9) by (unfold e; Z.div_mod_to_equations; lia).
    destruct (unit_cells _ (solved_row i Hi)) as (_ & Hex & _).
    destruct (Hex (e + 1) ltac:(lia)) as (j & Hj & Hcell). cbv beta in Hcell.
    destruct (placed_cell i j Hi Hj) as [Hr Hp]. rewrite Hcell in Hr, Hp.
    eexists. split; [exact Hr|]. split; [exact Hp|].
    rewrite (row_items_of i j (e + 1 - 1)) by lia.
    apply elem_of_cons. right. apply elem_of_cons. left.
    unfold i, e. Z.div_mod_to_equations; lia.
  - set (j := (c - 162) / 9). set (e := (c - 162) mod 9).
    assert (Hj : 0 <= j < 9) by (unfold j; Z.div_mod_to_equations; lia).
    assert (He : 0 <= e < 9) by (unfold e; Z.div_mod_to_equations; lia).
    destruct (unit_cells _ (solved_col j Hj)) as (_ & Hex & _).
    destruct (Hex (e + 1) ltac:(lia)) as (i & Hi & Hcell). cbv beta in Hcell.
    destruct (placed_cell i j Hi Hj) as [Hr Hp]. rewrite Hcell in Hr, Hp.
    eexists. split; [exact Hr|]. split; [exact Hp|].
    rewrite (row_items_of i j (e + 1 - 1)) by lia.
    do 2 (apply elem_of_cons; right). apply elem_of_cons. left.
    unfold j, e. Z.div_mod_to_equations; lia.
  - set (β := (c - 243) / 9). set (e := (c - 243) mod 9).
    assert (Hβ : 0 <= β < 9) by (unfold β; Z.div_mod_to_equations; lia).
    assert (He : 0 <= e < 9) by (unfold e; Z.div_mod_to_equations; lia).
    destruct (unit_cells _ (solved_block β Hβ)) as (_ & Hex & _).
    destruct (Hex (e + 1) ltac:(lia)) as (t & Ht & Hcell). cbv beta in Hcell.
    set (i := 3 * (β / 3) + t / 3) in *. set (j := 3 * (β mod 3) + t mod 3) in *.
    assert (Hi : 0 <= i < 9) by (unfold i; Z.div_mod_to_equations; lia).
    assert (Hj : 0 <= j < 9) by (unfold j; Z.div_mod_to_equations; lia).
    destruct (placed_cell i j Hi Hj) as [Hr Hp]. rewrite Hcell in Hr, Hp.
    eexists. split; [exact Hr|]. split; [exact Hp|].
    rewrite (row_items_of i j (e + 1 - 1)) by lia.
    do 3 (apply elem_of_cons; right). apply elem_of_cons. left.
    unfold i, j, β, e. Z.div_mod_to_equations; lia.
Qed.

(** Two placed rows with a common column are the same row. *)
Lemma solved_disjoint ρ ρ' c :
  0 <= ρ < row_size → 0 <= ρ' < row_size → placed g ρ → placed g ρ' →
  c ∈ row_items ρ → c ∈ row_items ρ' → ρ = ρ'.
Proof.
  intros Hρ Hρ' Hp Hp' Hc Hc'.
  destruct (placed_decode ρ Hρ Hp) as (a & b & e & Ha & Hb & He & -> & Hcell & Hit).
  destruct (placed_decode ρ' Hρ' Hp') as (a' & b' & e' & Ha' & Hb' & He' & -> & Hcell' & Hit').
  apply (in_row_items _ _ _ _ _ Hit) in Hc. apply (in_row_items _ _ _ _ _ Hit') in Hc'.
  assert (Hqa : 0 <= a / 3 < 3) by (clear -Ha; Z.div_mod_to_equations; lia).
  assert (Hqb : 0 <= b / 3 < 3) by (clear -Hb; Z.div_mod_to_equations; lia).
  assert (Hqa' : 0 <= a' / 3 < 3) by (clear -Ha'; Z.div_mod_to_equations; lia).
  assert (Hqb' : 0 <= b' / 3 < 3) by (clear -Hb'; Z.div_mod_to_equations; lia).
  assert (Hcase : (a = a' ∧ b = b') ∨ (a = a' ∧ e = e') ∨ (b = b' ∧ e = e') ∨
                  (a / 3 = a' / 3 ∧ b / 3 = b' / 3 ∧ e = e')).
  { clear Hit Hit' Hcell Hcell' Hp Hp' Hρ Hρ' Hv.
    remember (a / 3) as qa. remember (b / 3) as qb.
    remember (a' / 3) as qa'. remember (b' / 3) as qb'.
    clear Heqqa Heqqb Heqqa' Heqqb'.
    destruct Hc as [Hc | [Hc | [Hc | Hc]]]; destruct Hc' as [Hc' | [Hc' | [Hc' | Hc']]];
      first [ left; lia | right; left; lia | right; right; left; lia
            | right; right; right; lia ]. }
  destruct Hcase as [[<- <-] | [[<- <-] | [[<- <-] | (Ea & Eb & <-)]]].
  - lia.
  - destruct (unit_cells _ (solved_row a Ha)) as (_ & _ & Hinj).
    rewrite (Hinj b b' Hb Hb'); [done|]. cbv beta. lia.
  - destruct (unit_cells _ (solved_col b Hb)) as (_ & _ & Hinj).
    rewrite (Hinj a a' Ha Ha'); [done|]. cbv beta. lia.
  - set (β := 3 * (a / 3) + b / 3).
    assert (Hβ : 0 <= β < 9) by (unfold β; Z.div_mod_to_equations; lia).
    destruct (unit_cells _ (solved_block β Hβ)) as (_ & _ & Hinj).
    assert (E : 3 * (a mod 3) + b mod 3 = 3 * (a' mod 3) + b' mod 3).
    { apply Hinj; [Z.div_mod_to_equations; lia..|]. cbv beta.
      replace (3 * (β / 3) + (3 * (a mod 3) + b mod 3) / 3) with a
        by (unfold β; Z.div_mod_to_equations; lia).
      replace (3 * (β mod 3) + (3 * (a mod 3) + b mod 3) mod 3) with b
        by (unfold β; Z.div_mod_to_equations; lia).
      replace (3 * (β / 3) + (3 * (a' mod 3) + b' mod 3) / 3) with a'
        by (unfold β; Z.div_mod_to_equations; lia).
      replace (3 * (β mod 3) + (3 * (a' mod 3) + b' mod 3) mod 3) with b'
        by (unfold β; Z.div_mod_to_equations; lia).
      lia. }
    Z.div_mod_to_equations; lia.
Qed.

End solved.

(** Two grids of nine lines of nine numbers with the same cells. *)
Lemma grid_ext (a b : list (list Z)) :
  nine_by_nine a → nine_by_nine b →
  (∀ i j, 0 <= i < 9 → 0 <= j < 9 → cell_at a i j = cell_at b i j) → a = b.
Proof.
  intros [Hla Ha] [Hlb Hb] Hcells. rewrite Forall_forall in Ha, Hb.
  apply list_eq_same_length with 9%nat; [done..|].
  intros i la lb Hi Hia Hib.
  pose proof (Ha la (list_elem_of_lookup_2 _ _ _ Hia)) as Hlla.
  pose proof (Hb lb (list_elem_of_lookup_2 _ _ _ Hib)) as Hllb.
  apply list_eq_same_length with 9%nat; [done..|].
  intros j x y Hj Hx Hy.
  specialize (Hcells (Z.of_nat i) (Z.of_nat j) ltac:(lia) ltac:(lia)).
  unfold cell_at in Hcells. rewrite !Nat2Z.id, Hia, Hib in Hcells. simpl in Hcells.
  by rewrite Hx, Hy in Hcells.
Qed.

(** * The search from a state that satisfies the invariant *)

Lemma bind_row_items_length (R : list Z) :
  (∀ r, r ∈ R → 0 <= r < row_size) → length (R ≫= row_items) = (4 * length R)%nat.
Proof.
  induction R as [|r R IH]; intros HR; [done|].
  rewrite bind_cons, length_app, IH by (intros; apply HR; set_solver).
  destruct (row_items_ok r) as (_ & _ & ->); [apply HR; set_solver|]. simpl. lia.
Qed.

Lemma bind_row_items_range (R : list Z) c :
  (∀ r, r ∈ R → 0 <= r < row_size) → c ∈ R ≫= row_items → 0 <= c < constraints.
Proof.
  intros HR Hc. apply list_elem_of_bind in Hc as (r & Hc & Hr).
  destruct (row_items_ok r (HR r Hr)) as (_ & Hall & _).
  rewrite Forall_forall in Hall. by apply Hall.
Qed.

Lemma SInv_count s k R Lv V :
  SInv s k R Lv V → (length Lv + 4 * length R = 324)%nat.
Proof.
  intros HS. pose proof (si_inv _ _ _ _ _ HS) as HI.
  destruct (inv_hring _ _ _ HI) as (_ & HndL & HLr).
  rewrite <- bind_row_items_length by apply (si_rows _ _ _ _ _ HS).
  rewrite <- length_app.
  assert (HP : Lv ++ (R ≫= row_items) ≡ₚ seqZ 0 constraints).
  { apply NoDup_Permutation.
    - apply NoDup_app. split; [done|]. split; [|apply (si_nodup _ _ _ _ _ HS)].
      intros c Hc. by apply (si_live _ _ _ _ _ HS c (HLr c Hc)).
    - apply NoDup_seqZ.
    - intros c. rewrite elem_of_app, elem_of_seqZ. split.
      + intros [Hc|Hc]; [apply HLr in Hc; lia|].
        apply (bind_row_items_range R) in Hc; [lia|apply (si_rows _ _ _ _ _ HS)].
      + intros Hc.
        destruct (decide (c ∈ R ≫= row_items)) as [|Hn]; [by right|left].
        apply (si_live _ _ _ _ _ HS); [lia|done]. }
  rewrite HP, length_seqZ. done.
Qed.

(** The four cells of a row and their columns. *)
Lemma row_cells_perm r k :
  0 <= k < cells_per_row →
  PCell r k :: mates (PCell r k) ≡ₚ PCell r <$> seqZ 0 cells_per_row.
Proof.
  intros Hk. consts.
  assert (k = 0 ∨ k = 1 ∨ k = 2 ∨ k = 3) as [-> | [-> | [-> | ->]]] by lia;
    vm_compute; [done| | |].
  - symmetry. apply (Permutation_cons_append [PCell r 1; PCell r 2; PCell r 3] (PCell r 0)).
  - change ([PCell r 2; PCell r 3] ++ [PCell r 0; PCell r 1] ≡ₚ [PCell r 0; PCell r 1] ++ [PCell r 2; PCell r 3]).
    apply Permutation_app_comm.
  - apply (Permutation_cons_append [PCell r 0; PCell r 1; PCell r 2] (PCell r 3)).
Qed.

Lemma row_items_columns h r :
  shape h → 0 <= r < row_size → row_items r = row_columns h r.
Proof.
  intros Hs Hr. destruct (row_items_ok r Hr) as (_ & _ & Hlen).
  pose proof (sh_col_cell h Hs r 0 Hr ltac:(consts; lia)) as H0.
  pose proof (sh_col_cell h Hs r 1 Hr ltac:(consts; lia)) as H1.
  pose proof (sh_col_cell h Hs r 2 Hr ltac:(consts; lia)) as H2.
  pose proof (sh_col_cell h Hs r 3 Hr ltac:(consts; lia)) as H3.
  unfold row_columns.
  destruct (row_items r) as [|a [|b [|c [|d [|]]]]]; try done.
  change (Z.to_nat 0) with 0%nat in H0. change (Z.to_nat 1) with 1%nat in H1.
  change (Z.to_nat 2) with 2%nat in H2. change (Z.to_nat 3) with 3%nat in H3.
  simpl in H0, H1, H2, H3. by simplify_eq.
Qed.

Lemma row_columns_perm h r k :
  shape h → 0 <= r < row_size → 0 <= k < cells_per_row →
  col_ h (PCell r k) :: (col_ h <$> mates (PCell r k)) ≡ₚ row_items r.
Proof.
  intros Hs Hr Hk. rewrite (row_items_columns h r Hs Hr). unfold row_columns.
  rewrite <- (fmap_cons (col_ h)), (row_cells_perm r k Hk).
  by rewrite <- list_fmap_compose.
Qed.

Lemma cover_result_down h Lv V c y :
  Inv h Lv V → c ∈ Lv → valid_ptr y → col_ h y = c →
  down_ (cover_result h V c) y = down_ h y.
Proof.
  intros HI Hc Hy Hcol.
  destruct (unlink_all_frame c (targets V c) _ (shape_header h Lv V HI c Hc)
              (targets_frame h Lv V HI c Hc)) as [H _].
  unfold cover_result. destruct (H y Hy) as [_ ->].
  - by rewrite col_unlink_header.
  - apply down_unlink_header.
Qed.

Lemma cover_result_rows h Lv V c :
  Inv h Lv V → c ∈ Lv →
  path (down_ (cover_result h V c)) (down_ (cover_result h V c) (PCol c)) (V c) (PCol c).
Proof.
  intros HI Hc.
  pose proof (inv_vring _ _ _ HI c Hc) as Hv.
  pose proof (vring_header_not_in _ _ _ Hv) as Hnot.
  destruct Hv as (Hch & _ & Hcells & _).
  pose proof (live_range h Lv V HI c Hc) as Hr.
  pose proof (inv_shape _ _ _ HI) as Hs.
  rewrite (cover_result_down h Lv V c (PCol c) HI Hc).
  - eapply path_ext; [|by apply (chain_path _ _ _ _ _ Hch)].
    intros y Hy. destruct (Hcells y Hy) as [Hy1 Hy2].
    apply (cover_result_down h Lv V c y HI Hc); [by apply is_cell_valid|done].
  - simpl. consts. lia.
  - apply (sh_col_hdr h Hs). consts. lia.
Qed.

Section rows.
Context (s : Sudoku) (k : Z) (R : list Z) (Lv : list Z) (V : Z -> list ptr).
Context (HS : SInv s k R Lv V).
Context (c : Z) (Hc : c ∈ Lv).
Context (rec : Sudoku -> res Sudoku).
Context (Hrec : ∀ s1 R1 Lv1 V1, SInv s1 (k + 1) R1 Lv1 V1 →
  (length Lv1 + 4 <= length Lv)%nat → (∀ r, r ∈ R → r ∈ R1) →
  ∃ s2, rec s1 = Ok s2 ∧ search_post s1 s2 (k + 1) R1).

Let h := heap s.
Let h1 := cover_result h V c.

Lemma search_rows_total rows : ∀ r sc n,
  path (down_ h1) r rows (PCol c) → (∀ x, x ∈ rows → x ∈ V c) → NoDup rows →
  heap sc = h1 → root sc = root s → length (solution sc) = length (solution s) →
  (∀ t, (t < Z.to_nat k)%nat → solution sc !! t = solution s !! t) →
  (length rows + 20 <= n)%nat →
  ∃ s', search_rows rec n k (PCol c) r sc = Ok s' ∧
    heap s' = h1 ∧ root s' = root sc ∧ row_count s' = row_count sc ∧
    length (solution s') = length (solution sc) ∧
    (∀ t, (t < Z.to_nat k)%nat → solution s' !! t = solution sc !! t) ∧
    ∃ new, out s' = out sc ++ new ∧ NoDup new ∧
           ∀ g, g ∈ new ↔
                valid_sudoku g ∧ (∀ r, r ∈ R → placed g r) ∧
                ∃ ρ κ, PCell ρ κ ∈ rows ∧ placed g ρ.
Proof.
  pose proof (si_inv _ _ _ _ _ HS) as HI. fold h in HI.
  pose proof (cover_Inv h Lv V HI c Hc) as HI1. fold h1 in HI1.
  pose proof (SInv_count _ _ _ _ _ HS) as Hcount.
  pose proof (si_k _ _ _ _ _ HS) as Hk.
  pose proof (si_len _ _ _ _ _ HS) as Hlen.
  assert (Hk81 : 0 <= k < grid_size).
  { destruct Lv; [set_solver|]. simpl in Hcount. consts. lia. }
  induction rows as [|x rows IH]; intros r sc n Hp Hin Hndr Hheap Hroot Hsl Hsol Hn.
  - simpl in Hp. subst r. destruct n; [simpl in Hn; lia|].
    exists sc. cbn [search_rows]. rewrite decide_True by done.
    repeat split; try done. exists []. split; [by rewrite app_nil_r|].
    split; [apply NoDup_nil_2|]. intros g. split; [by intros ?%elem_of_nil|].
    intros (_ & _ & ρ & κ & Hin' & _). by apply elem_of_nil in Hin'.
  - simpl in Hp. destruct Hp as (-> & Hne & Hp).
    destruct n; [simpl in Hn; lia|]. simpl in Hn.
    cbn [search_rows]. rewrite decide_False by done.
    assert (HxV : x ∈ V c) by (apply Hin; set_solver).
    destruct (ring_cell h Lv V HI c x Hc HxV) as [Hcell Hcolx].
    destruct x as [|ρ κ]; [done|]. destruct Hcell as [Hρ Hκ].
    assert (Hcell : is_cell (PCell ρ κ)) by done.
    pose proof (inv_shape _ _ _ HI) as Hsh. pose proof (inv_shape _ _ _ HI1) as Hsh1.
    (* solution[k] = r->row *)
    rewrite Hheap. rewrite (sh_row h1 Hsh1 ρ κ Hρ Hκ).
    unfold set_solution. rewrite decide_True by done.
    change (Ok ?a ≫= ?f) with (f a). cbv beta. cbn [heap].
    rewrite Hheap.
    (* the columns of the other cells of the row *)
    set (ds := col_ h1 <$> mates (PCell ρ κ)).
    assert (Hds : ds = col_ h <$> mates (PCell ρ κ)).
    { apply list_fmap_ext. intros. apply col_cover_result. }
    pose proof (row_columns_perm h ρ κ Hsh Hρ Hκ) as Hperm.
    rewrite Hcolx, <- Hds in Hperm.
    destruct (row_items_ok ρ Hρ) as (Hnd & Hrange & Hlen4).
    assert (Hndc : NoDup (c :: ds)) by by rewrite Hperm.
    assert (Hlenc : length (c :: ds) = 4%nat) by by rewrite Hperm.
    assert (HdsLv : ∀ d, d ∈ c :: ds → d ∈ Lv).
    { intros d Hd. apply elem_of_cons in Hd as [->|Hd]; [done|].
      rewrite Hds in Hd. apply list_elem_of_fmap in Hd as (y & -> & Hy).
      by destruct (inv_rows _ _ _ HI c (PCell ρ κ) y Hc HxV Hy). }
    apply NoDup_cons in Hndc as [Hcds Hndds].
    assert (HdsLv1 : ∀ y, y ∈ mates (PCell ρ κ) → col_ h1 y ∈ cover_Lv Lv c).
    { intros y Hy. apply list_elem_of_filter. split.
      - intros E. apply Hcds. rewrite <- E. by apply list_elem_of_fmap_2.
      - apply HdsLv. right. by apply list_elem_of_fmap_2. }
    assert (Hmc : ∀ y, y ∈ mates (PCell ρ κ) → is_cell y)
      by (intros y Hy; by apply (mates_is_cell (PCell ρ κ))).
    rewrite (cover_others_spec (PCell ρ κ) (mates (PCell ρ κ)) h1 _ _ _ n HI1
               (mates_right_path h1 _ Hsh1 Hcell) Hmc Hndds HdsLv1)
      by (change (length (mates (PCell ρ κ))) with 3%nat; lia).
    change (Ok ?a ≫= ?f) with (f a). cbv beta. fold ds.
    set (h2 := covers_heap h1 (cover_V V c) ds).
    assert (HI2 : Inv h2 (covers_Lv Lv (c :: ds)) (covers_V V (c :: ds))).
    { apply (covers_Inv (c :: ds) h Lv V HI); [by apply NoDup_cons|done]. }
    (* the recursive call *)
    set (s1 := with_heap _ h2).
    assert (HS1 : SInv s1 (k + 1) (R ++ [ρ]) (covers_Lv Lv (c :: ds)) (covers_V V (c :: ds))).
    { split.
      - exact HI2.
      - cbn. rewrite Hroot. apply (si_root _ _ _ _ _ HS).
      - cbn. rewrite length_insert, Hsl. exact Hlen.
      - rewrite length_app. simpl. lia.
      - intros t r Ht. cbn.
        destruct (decide (t < length R)%nat) as [Hlt|Hge].
        + rewrite lookup_app_l in Ht by done.
          rewrite list_lookup_insert_ne by lia.
          rewrite Hsol by lia. by apply (si_trace _ _ _ _ _ HS).
        + rewrite lookup_app_r in Ht by lia.
          destruct (t - length R)%nat as [|?] eqn:E; [|done]. simpl in Ht. injection Ht as <-.
          replace t with (Z.to_nat k) by lia.
          apply list_lookup_insert_eq. rewrite Hsl, Hlen. lia.
      - intros r Hr. apply elem_of_app in Hr as [Hr|Hr]; [by apply (si_rows _ _ _ _ _ HS)|].
        apply list_elem_of_singleton in Hr. by subst.
      - rewrite bind_app. change ([ρ] ≫= row_items) with (row_items ρ ++ []).
        rewrite app_nil_r. apply NoDup_app. split; [apply (si_nodup _ _ _ _ _ HS)|]. split; [|done].
        intros d Hd Hd'. rewrite <- Hperm in Hd'.
        apply HdsLv in Hd'. apply (si_live _ _ _ _ _ HS) in Hd'; [done|].
        by apply (bind_row_items_range R d (si_rows _ _ _ _ _ HS)).
      - intros d Hd. rewrite covers_Lv_spec, bind_app, not_elem_of_app.
        change ([ρ] ≫= row_items) with (row_items ρ ++ []).
        rewrite app_nil_r, <- Hperm. rewrite (si_live _ _ _ _ _ HS d Hd). done.
      - cbn. apply (avail_covers (c :: ds) h Lv V HI); [by apply NoDup_cons|done|].
        apply (si_avail _ _ _ _ _ HS). }
    assert (Hlen2 : (length (covers_Lv Lv (c :: ds)) + 4 <= length Lv)%nat).
    { destruct (inv_hring _ _ _ HI) as (_ & HndL & _).
      pose proof (covers_Lv_length (c :: ds) Lv HndL ltac:(by apply NoDup_cons) HdsLv).
      lia. }
    destruct (Hrec s1 _ _ _ HS1 Hlen2 ltac:(set_solver))
      as (s2 & -> & Hh2 & Hr2 & Hrc2 & Hl2 & Hsol2 & new2 & Hout2 & Hnd2 & Hgood2).
    change (Ok ?a ≫= ?f) with (f a). cbv beta.
    (* undo the covers of the row *)
    rewrite Hh2. cbn [s1 with_heap heap].
    destruct (Inv_right_cell _ _ _ _ _ _ (PCell ρ κ) HI1
                (covers_Inv ds h1 (cover_Lv Lv c) (cover_V V c) HI1 Hndds
                   ltac:(intros d Hd; apply list_elem_of_fmap in Hd as (y & -> & Hy);
                         by apply HdsLv1)) Hcell) as [_ Hleft].
    fold h2 in Hleft. rewrite Hleft. unfold h2, ds.
    rewrite (uncover_others_spec (PCell ρ κ) h1 _ _ HI1 (mates (PCell ρ κ)) _ n Hmc Hndds HdsLv1
               (mates_left_path h1 _ Hsh1 Hcell))
      by (change (length (mates (PCell ρ κ))) with 3%nat; lia).
    change (Ok ?a ≫= ?f) with (f a). cbv beta.
    (* the next row *)
    destruct (IH (down_ h1 (PCell ρ κ)) (with_heap s2 h1) n Hp)
      as (s' & -> & Hh' & Hr' & Hrc' & Hl' & Hsol' & new' & Hout' & Hnd' & Hgood').
    + intros y Hy. apply Hin. set_solver.
    + by apply NoDup_cons in Hndr as [_ ?].
    + done.
    + cbn. rewrite Hr2. cbn. done.
    + cbn. rewrite Hl2. cbn. by rewrite length_insert.
    + intros t Ht. cbn. rewrite Hsol2 by lia. cbn.
      rewrite list_lookup_insert_ne by lia. by apply Hsol.
    + lia.
    + exists s'. split; [done|]. cbn in Hr', Hrc', Hl', Hsol', Hout'.
      split; [done|]. split; [by rewrite Hr', Hr2|]. split; [by rewrite Hrc', Hrc2|].
      split; [by rewrite Hl', Hl2; cbn; rewrite length_insert|].
      split.
      { intros t Ht. rewrite Hsol', Hsol2 by lia. cbn.
        by rewrite list_lookup_insert_ne by lia. }
      exists (new2 ++ new'). split.
      { rewrite Hout', Hout2. cbn. by rewrite app_assoc. }
      split.
      { apply NoDup_app. split; [done|]. split; [|done].
        intros g Hg2 Hg'. apply Hgood2 in Hg2 as [Hv Hpl2].
        apply Hgood' in Hg' as (_ & _ & ρ' & κ' & Hin' & Hp').
        assert (Hpρ : placed g ρ) by (apply Hpl2; set_solver).
        destruct (ring_cell h Lv V HI c (PCell ρ' κ') Hc ltac:(apply Hin; set_solver))
          as [[Hρ' Hκ'] Hcol'].
        pose proof (sh_col_cell h Hsh ρ κ Hρ Hκ) as Hit. rewrite Hcolx in Hit.
        pose proof (sh_col_cell h Hsh ρ' κ' Hρ' Hκ') as Hit'. rewrite Hcol' in Hit'.
        assert (ρ = ρ') as <-.
        { apply (solved_disjoint g Hv ρ ρ' c); try done.
          - by apply list_elem_of_lookup_2 in Hit.
          - by apply list_elem_of_lookup_2 in Hit'. }
        pose proof (NoDup_lookup _ _ _ _ Hnd Hit Hit') as Eκ.
        assert (κ' = κ) as -> by lia.
        apply NoDup_cons in Hndr as [Hx _]. done. }
      intros g. rewrite elem_of_app, Hgood2, Hgood'. split.
      * intros [[Hv Hpl]|(Hv & Hpl & ρ' & κ' & Hin' & Hp')].
        -- split; [done|]. split; [intros r Hr; apply Hpl; set_solver|].
           exists ρ, κ. split; [apply list_elem_of_here|]. apply Hpl. set_solver.
        -- split; [done|]. split; [done|]. exists ρ', κ'. split; [|done].
           by apply list_elem_of_further.
      * intros (Hv & Hpl & ρ' & κ' & Hin' & Hp').
        apply elem_of_cons in Hin' as [E|Hin'].
        -- left. injection E as -> ->. split; [done|]. intros r Hr.
           apply elem_of_app in Hr as [Hr|Hr]; [by apply Hpl|].
           apply list_elem_of_singleton in Hr. by subst.
        -- right. split; [done|]. split; [done|]. by exists ρ', κ'.
Qed.

End rows.

Section search.
Context (Hprint : ∀ s k R V, SInv s k R [] V →
  ∃ s', printSolution s = Ok s' ∧ search_post s s' k R).

(** The body of [search], whatever the recursive call is, as long as
    it returns on the states that satisfy the invariant one level
    deeper, with the four columns of one more row covered. *)
Lemma search_step_total rec n k s R Lv V :
  SInv s k R Lv V → (length Lv + 29 <= n)%nat →
  (∀ s1 R1 Lv1 V1, SInv s1 (k + 1) R1 Lv1 V1 →
     (length Lv1 + 4 <= length Lv)%nat → (∀ r, r ∈ R → r ∈ R1) →
     ∃ s2, rec s1 = Ok s2 ∧ search_post s1 s2 (k + 1) R1) →
  ∃ s', search_step rec n k s = Ok s' ∧ search_post s s' k R.
Proof.
  intros HS Hn Hrec. unfold search_step.
  pose proof (si_inv _ _ _ _ _ HS) as HI.
  pose proof (inv_shape _ _ _ HI) as Hsh.
  rewrite (si_root _ _ _ _ _ HS). change (PCol (column_size - 1)) with rootp.
  pose proof (Inv_header_path _ _ _ HI) as Hpath.
  destruct (decide (Lv = [])) as [->|Hne].
  - simpl in Hpath. rewrite decide_True by done. by apply (Hprint s k R V).
  - assert (Hr : right_ (heap s) rootp ≠ rootp).
    { destruct Lv; [done|]. simpl in Hpath. destruct Hpath as (-> & ? & _). done. }
    rewrite decide_False by done.
    destruct (choose_spec (heap s) rootp (PCol <$> Lv) n (right_ (heap s) rootp)
                (right_ (heap s) rootp) Hpath ltac:(rewrite length_fmap; lia))
      as (c' & -> & Hc').
    change (Ok ?a ≫= ?f) with (f a). cbv beta.
    assert (Hin : c' ∈ PCol <$> Lv).
    { destruct Hc' as [[-> _]|(L1 & L2 & -> & _)]; [|set_solver].
      destruct Lv; [done|]. simpl in Hpath. destruct Hpath as (-> & _). set_solver. }
    apply list_elem_of_fmap in Hin as (c & -> & Hc). clear Hc'.
    pose proof (live_range _ _ _ HI c Hc) as Hcr.
    rewrite (sh_col_hdr _ Hsh c) by (consts; lia).
    rewrite (cover_eq _ _ _ HI c Hc) by lia.
    change (Ok ?a ≫= ?f) with (f a). cbv beta.
    destruct (search_rows_total s k R Lv V HS c Hc rec) with
      (rows := V c) (r := down_ (cover_result (heap s) V c) (PCol c))
      (sc := with_heap s (cover_result (heap s) V c)) (n := n)
      as (s2 & -> & Hh2 & Hr2 & Hrc2 & Hl2 & Hsol2 & new & Hout & Hndn & Hgood).
    + exact Hrec.
    + by apply (cover_result_rows _ Lv).
    + done.
    + by pose proof (inv_vring _ _ _ HI c Hc) as (_ & ? & _).
    + done.
    + done.
    + done.
    + done.
    + pose proof (inv_vring _ _ _ HI c Hc) as (_ & _ & _ & _ & Hlen). lia.
    + change (Ok ?a ≫= ?f) with (f a). cbv beta.
      rewrite Hh2, col_cover_result, (sh_col_hdr _ Hsh c) by (consts; lia).
      rewrite (uncover_eq _ _ _ HI c Hc) by lia.
      change (Ok ?a ≫= ?f) with (f a). cbv beta.
      eexists. split; [done|]. cbn in Hr2, Hrc2, Hl2, Hsol2, Hout.
      split; [done|]. split; [done|]. split; [done|]. split; [done|]. split; [done|].
      exists new. split; [done|]. split; [done|]. intros g. rewrite Hgood. split; [tauto|].
      intros [Hv Hpl]. split; [done|]. split; [done|].
      (* the row of [g] that covers the chosen column is present *)
      destruct (solved_covers g Hv c ltac:(consts; lia)) as (ρ & Hρ & Hp & Hcρ).
      apply list_elem_of_lookup in Hcρ as [i Hi].
      destruct (row_items_ok ρ Hρ) as (_ & Hrange & Hlen4).
      rewrite Forall_forall in Hrange.
      pose proof (lookup_lt_Some _ _ _ Hi) as Hlt. rewrite Hlen4 in Hlt.
      assert (Hκ : 0 <= Z.of_nat i < cells_per_row) by (consts; lia).
      pose proof (sh_col_cell _ Hsh ρ (Z.of_nat i) Hρ Hκ) as Hcol.
      rewrite Nat2Z.id, Hi in Hcol. injection Hcol as Hcol.
      exists ρ, (Z.of_nat i). split; [|done]. rewrite Hcol.
      apply (si_avail _ _ _ _ _ HS); [done..|].
      intros d Hd. apply (si_live _ _ _ _ _ HS d (Hrange d Hd)).
      intros Hin. apply list_elem_of_bind in Hin as (r & Hdr & HrR).
      assert (r = ρ) as ->.
      { apply (solved_disjoint g Hv r ρ d); try done.
        - by apply (si_rows _ _ _ _ _ HS).
        - by apply Hpl. }
      apply (si_live _ _ _ _ _ HS c Hcr) in Hc. apply Hc.
      apply list_elem_of_bind. exists ρ. split; [|done]. by apply list_elem_of_lookup_2 in Hi.
Qed.

Lemma search_total n : ∀ k s R Lv V,
  SInv s k R Lv V → (length Lv + 30 <= n)%nat →
  ∃ s', search n k s = Ok s' ∧ search_post s s' k R.
Proof.
  induction n as [|n IH]; intros k s R Lv V HS Hn; [lia|].
  change (search (S n) k s) with (search_step (search n (k + 1)) n k s).
  apply (search_step_total _ n k s R Lv V HS); [lia|].
  intros s1 R1 Lv1 V1 HS1 Hlen1 HR1. apply (IH _ _ _ _ _ HS1). lia.
Qed.

End search.

(** * [printSolution] on a complete trace *)

Lemma cellval_spec L : ∀ acc i j v,
  (acc = Some v ∨ ∃ r, r ∈ L ∧ r `quot` 81 = i ∧ (r `quot` 9) `rem` 9 = j) →
  (∀ r, r ∈ L → r `quot` 81 = i → (r `quot` 9) `rem` 9 = j → r `rem` 9 = v) →
  cellval L acc i j = Some v.
Proof.
  induction L as [|r L IH]; intros acc i j v Hex Hu; simpl.
  - destruct Hex as [|(r & Hr & _)]; [done|set_solver].
  - apply IH; [|intros; apply Hu; [set_solver|done..]].
    case_decide as Hd.
    + left. f_equal. apply Hu; [set_solver|tauto..].
    + destruct Hex as [|(r' & Hr' & H1 & H2)]; [by left|right].
      exists r'. split; [|done]. apply elem_of_cons in Hr' as [->|]; [tauto|done].
Qed.

Lemma grid_write_spec (g : list (list (option Z))) r c v :
  grid9 g → 0 <= r < 9 → 0 <= c < 9 →
  ∃ g', grid_write g r c v = Ok g' ∧ grid9 g' ∧
    ∀ i j acc, 0 <= i < 9 → 0 <= j < 9 →
      g !! Z.to_nat i ≫= (λ line, line !! Z.to_nat j) = Some acc →
      g' !! Z.to_nat i ≫= (λ line, line !! Z.to_nat j) =
        Some (if decide (r = i ∧ c = j) then Some v else acc).
Proof.
  intros [Hlen Hall] Hr Hc. unfold grid_write. rewrite decide_True by done.
  destruct (lookup_lt_is_Some_2 g (Z.to_nat r)) as [line Hline]; [lia|].
  rewrite Hline. eexists. split; [done|].
  assert (Hll : length line = 9%nat).
  { rewrite Forall_forall in Hall. apply Hall. by eapply list_elem_of_lookup_2. }
  split.
  - split; [by rewrite length_insert|].
    apply Forall_insert; [done|]. by rewrite length_insert.
  - intros i j acc Hi Hj Hget.
    destruct (decide (r = i)) as [->|Hne].
    + rewrite list_lookup_insert_eq by lia. rewrite Hline in Hget. simpl in *.
      destruct (decide (c = j)) as [->|Hne].
      * rewrite list_lookup_insert_eq by lia. by rewrite decide_True.
      * rewrite list_lookup_insert_ne by lia. rewrite Hget. by rewrite decide_False by tauto.
    + rewrite list_lookup_insert_ne by lia. rewrite Hget. by rewrite decide_False by tauto.
Qed.

Lemma decode_loop_spec sol L : ∀ k g,
  grid9 g → 0 <= k →
  (∀ t r, L !! t = Some r → sol !! (Z.to_nat k + t)%nat = Some (Some r)) →
  (∀ r, r ∈ L → 0 <= r < row_size) →
  ∃ g', decode_loop (length L) k sol g = Ok g' ∧ grid9 g' ∧
    ∀ i j acc, 0 <= i < 9 → 0 <= j < 9 →
      g !! Z.to_nat i ≫= (λ line, line !! Z.to_nat j) = Some acc →
      g' !! Z.to_nat i ≫= (λ line, line !! Z.to_nat j) = Some (cellval L acc i j).
Proof.
  induction L as [|r L IH]; intros k g Hg Hk Hsol HL.
  - exists g. simpl. done.
  - cbn [length decode_loop].
    pose proof (Hsol 0%nat r eq_refl) as H0. rewrite Nat.add_0_r in H0. rewrite H0.
    destruct (row_items_decode r) as (a & b & e & Ha & Hb & He & _ & _ & (Q1 & Q2 & Q3) & _);
      [apply HL; set_solver|].
    rewrite Q1, Q2, Q3.
    destruct (grid_write_spec g a b e Hg Ha Hb) as (g1 & -> & Hg1 & Hget1).
    change (Ok ?x ≫= ?f) with (f x). cbv beta.
    destruct (IH (k + 1) g1 Hg1 ltac:(lia)) as (g' & -> & Hg' & Hget').
    + intros t r' Ht. replace (Z.to_nat (k + 1) + t)%nat with (Z.to_nat k + S t)%nat by lia.
      by apply Hsol.
    + intros; apply HL; set_solver.
    + exists g'. split; [done|]. split; [done|].
      intros i j acc Hi Hj Hget. cbn [cellval]. rewrite Q1, Q2, Q3.
      apply Hget'; [done..|]. by apply Hget1.
Qed.

Lemma mapM_Ok {A B} (f : A → res B) (l : list A) :
  (∀ x, x ∈ l → ∃ y, f x = Ok y) →
  ∃ l', mapM f l = Ok l' ∧ length l' = length l ∧
    ∀ i x, l !! i = Some x → ∃ y, l' !! i = Some y ∧ f x = Ok y.
Proof.
  induction l as [|x l IH]; intros Hl.
  - exists []. simpl. done.
  - destruct (Hl x) as [y Hy]; [set_solver|].
    destruct IH as (l' & Hl' & Hlen & Hget); [intros; apply Hl; set_solver|].
    exists (y :: l'). cbn [mapM]. rewrite Hy, Hl'. split; [done|]. split; [simpl; lia|].
    intros [|i] x' Hi; simpl in *; [simplify_eq; eauto|]. by apply Hget.
Qed.

(** A grid all of whose cells were written prints as the grid of the
    digits. *)
Lemma print_lines (g : list (list (option Z))) (val : Z → Z → Z) :
  grid9 g →
  (∀ i j, 0 <= i < 9 → 0 <= j < 9 →
     g !! Z.to_nat i ≫= (λ line, line !! Z.to_nat j) = Some (Some (val i j))) →
  ∃ lines, mapM (mapM print_cell) g = Ok lines ∧ nine_by_nine lines ∧
    ∀ i j, 0 <= i < 9 → 0 <= j < 9 → cell_at lines i j = val i j + 1.
Proof.
  intros [Hlen Hall] Hget. rewrite Forall_forall in Hall.
  assert (Hline : ∀ i line, g !! i = Some line →
    ∃ line', mapM print_cell line = Ok line' ∧ length line' = 9%nat ∧
      ∀ j, 0 <= j < 9 → line' !! Z.to_nat j = Some (val (Z.of_nat i) j + 1)).
  { intros i line Hi.
    assert (Hll : length line = 9%nat) by (apply Hall; by eapply list_elem_of_lookup_2).
    pose proof (lookup_lt_Some _ _ _ Hi) as Hlt.
    assert (Hcells : ∀ j, 0 <= j < 9 → line !! Z.to_nat j = Some (Some (val (Z.of_nat i) j))).
    { intros j Hj. specialize (Hget (Z.of_nat i) j ltac:(lia) Hj).
      rewrite Nat2Z.id, Hi in Hget. done. }
    destruct (mapM_Ok print_cell line) as (line' & Hm & Hlen' & Hget').
    { intros x Hx. apply list_elem_of_lookup in Hx as [j Hj].
      pose proof (lookup_lt_Some _ _ _ Hj) as Hjlt.
      specialize (Hcells (Z.of_nat j) ltac:(lia)). rewrite Nat2Z.id, Hj in Hcells.
      simplify_eq. by eexists. }
    exists line'. split; [done|]. split; [lia|].
    intros j Hj. destruct (Hget' _ _ (Hcells j Hj)) as (y & -> & Hy).
    simpl in Hy. by simplify_eq. }
  destruct (mapM_Ok (mapM print_cell) g) as (lines & Hm & Hlen' & Hget').
  { intros line Hl. apply list_elem_of_lookup in Hl as [i Hi].
    destruct (Hline i line Hi) as (line' & ? & _). by exists line'. }
  exists lines. split; [done|]. split.
  - split; [lia|]. apply Forall_forall. intros line' Hl.
    apply list_elem_of_lookup in Hl as [i Hi].
    destruct (lookup_lt_is_Some_2 g i) as [line Hgi]; [apply lookup_lt_Some in Hi; lia|].
    destruct (Hget' i line Hgi) as (y & Hy & Hm').
    destruct (Hline i line Hgi) as (line'' & Hm'' & Hl9 & _).
    rewrite Hi in Hy. injection Hy as <-. rewrite Hm'' in Hm'. by injection Hm' as <-.
  - intros i j Hi Hj. unfold cell_at.
    destruct (lookup_lt_is_Some_2 g (Z.to_nat i)) as [line Hgi]; [lia|].
    destruct (Hget' _ line Hgi) as (y & -> & Hm').
    destruct (Hline _ line Hgi) as (line'' & Hm'' & _ & Hval).
    rewrite Hm'' in Hm'. injection Hm' as <-.
    simpl. rewrite (Hval j Hj). simpl. by rewrite Z2Nat.id by lia.
Qed.

(** With no live column left, [printSolution] succeeds: it appends one
    grid, in which every row of the trace is placed and every cell of
    which is the cell of a row of the trace; this grid is a solved
    Sudoku, the only one in which the rows are placed. *)
Lemma print_decodes s k R V :
  SInv s k R [] V →
  ∃ lines,
    printSolution s =
      Ok (mkSudoku (row_count s) (heap s) (root s) (solution s) (out s ++ [lines])) ∧
    valid_sudoku lines ∧ (∀ r, r ∈ R → placed lines r) ∧
    (∀ i j, 0 <= i < 9 → 0 <= j < 9 → ∃ e, 0 <= e < 9 ∧ 81 * i + 9 * j + e ∈ R) ∧
    ∀ g', valid_sudoku g' → (∀ r, r ∈ R → placed g' r) → g' = lines.
Proof.
  intros HS. pose proof (SInv_count _ _ _ _ _ HS) as Hcount. simpl in Hcount.
  pose proof (si_rows _ _ _ _ _ HS) as HR.
  pose proof (si_nodup _ _ _ _ _ HS) as Hnd.
  assert (Hall : ∀ c, 0 <= c < constraints → c ∈ R ≫= row_items).
  { intros c Hc. destruct (decide (c ∈ R ≫= row_items)) as [|Hn]; [done|].
    apply (si_live _ _ _ _ _ HS c Hc) in Hn. set_solver. }
  unfold printSolution.
  destruct (decode_loop_spec (solution s) R 0 (replicate 9 (replicate 9 None)))
    as (g & Hdec & Hg & Hget).
  { split; [done|]. by repeat constructor. }
  { done. }
  { intros t r Ht. by apply (si_trace _ _ _ _ _ HS). }
  { done. }
  replace (Z.to_nat grid_size) with (length R) by (consts; lia).
  rewrite Hdec. change (Ok ?x ≫= ?f) with (f x). cbv beta.
  (* every cell has been written by the one row of the cell *)
  assert (Hcell : ∀ i j, 0 <= i < 9 → 0 <= j < 9 →
    ∃ e, 0 <= e < 9 ∧ 81 * i + 9 * j + e ∈ R ∧
      g !! Z.to_nat i ≫= (λ line, line !! Z.to_nat j) = Some (Some e)).
  { intros i j Hi Hj.
    pose proof (Hall (9 * i + j) ltac:(consts; lia)) as Hin.
    apply list_elem_of_bind in Hin as (r & Hin & Hr).
    destruct (row_items_decode r (HR r Hr)) as (a & b & e & Ha & Hb & He & -> & _ & (Q1 & Q2 & Q3) & Hit).
    assert (a = i ∧ b = j) as [-> ->].
    { rewrite Hit in Hin.
      repeat (apply elem_of_cons in Hin as [Hin|Hin]); [lia|lia|lia| |set_solver].
      Z.div_mod_to_equations. lia. }
    exists e. split; [done|]. split; [done|].
    rewrite (Hget i j None Hi Hj).
    - f_equal. apply cellval_spec; [right; eauto|].
      intros r' Hr' E1 E2.
      destruct (row_items_decode r' (HR r' Hr')) as (a' & b' & e' & Ha' & Hb' & He' & -> & _ & (Q1' & Q2' & Q3') & Hit').
      rewrite Q1' in E1. rewrite Q2' in E2. rewrite Q3'. subst a' b'.
      assert (E : 81 * i + 9 * j + e' = 81 * i + 9 * j + e); [|lia].
      apply (cover_unique R _ _ (9 * i + j) Hnd Hr' Hr).
      + rewrite Hit'. set_solver.
      + rewrite Hit. set_solver.
    - rewrite lookup_replicate_2 by lia. change (Some ?x ≫= ?f) with (f x). cbv beta.
      by rewrite lookup_replicate_2 by lia. }
  (* the digit of the cell *)
  set (val := λ i j, default 0 (mjoin (g !! Z.to_nat i ≫= (λ line, line !! Z.to_nat j)))).
  destruct (print_lines g val Hg) as (lines & -> & H9 & Hval).
  { intros i j Hi Hj. destruct (Hcell i j Hi Hj) as (e & _ & _ & He).
    unfold val. by rewrite He. }
  change (Ok ?x ≫= ?f) with (f x). cbv beta.
  exists lines. split; [done|].
  assert (Hpl : ∀ r, r ∈ R → placed lines r).
  { intros r Hr.
    destruct (row_items_decode r (HR r Hr)) as (a & b & e & Ha & Hb & He & -> & (D1 & D2 & D3) & _ & Hit).
    unfold placed. rewrite D1, D2, D3, (Hval a b Ha Hb).
    destruct (Hcell a b Ha Hb) as (e' & He' & Hr' & Hg').
    unfold val. rewrite Hg'. simpl.
    assert (E : 81 * a + 9 * b + e' = 81 * a + 9 * b + e); [|lia].
    apply (cover_unique R _ _ (9 * a + b) Hnd Hr' Hr).
    - rewrite (row_items_of a b e') by done. set_solver.
    - rewrite Hit. set_solver. }
  assert (Hvl : valid_sudoku lines) by by apply (exact_cover_valid lines R).
  split; [done|]. split; [done|]. split.
  { intros i j Hi Hj. destruct (Hcell i j Hi Hj) as (e & He & Hr & _). by exists e. }
  intros g' Hv' Hpl'. apply grid_ext; [by destruct Hv'|done|].
  intros i j Hi Hj. destruct (Hcell i j Hi Hj) as (e & He & Hr & _).
  pose proof (Hpl' _ Hr) as P1. pose proof (Hpl _ Hr) as P2. unfold placed in P1, P2.
  replace ((81 * i + 9 * j + e) / 81) with i in P1, P2 by (Z.div_mod_to_equations; lia).
  replace ((81 * i + 9 * j + e) / 9 mod 9) with j in P1, P2 by (Z.div_mod_to_equations; lia).
  congruence.
Qed.

Lemma print_total s k R V :
  SInv s k R [] V → ∃ s', printSolution s = Ok s' ∧ search_post s s' k R.
Proof.
  intros HS. destruct (print_decodes s k R V HS) as (lines & Hp & Hv & Hpl & _ & Huniq).
  eexists. split; [exact Hp|]. cbn.
  repeat split; try done.
  exists [lines]. split; [done|]. split; [apply NoDup_singleton|].
  intros g'. rewrite list_elem_of_singleton. split.
  - by intros ->.
  - intros [Hv' Hpl']. by apply Huniq.
Qed.

(** * Loading compatible clues, and the whole run *)

Lemma cover_four_list fuel gr h Lv V d0 d1 d2 d3 :
  Inv h Lv V → 0 <= gr < row_size →
  col_ h (PCell gr 0) = d0 → col_ h (PCell gr 1) = d1 →
  col_ h (PCell gr 2) = d2 → col_ h (PCell gr 3) = d3 →
  NoDup [d0; d1; d2; d3] → d0 ∈ Lv → d1 ∈ Lv → d2 ∈ Lv → d3 ∈ Lv → (14 <= fuel)%nat →
  cover_four fuel gr h = Ok (covers_heap h V [d0; d1; d2; d3]).
Proof.
  intros HI Hgr E0 E1 E2 E3 Hnd L0 L1 L2 L3 Hfuel.
  apply NoDup_cons in Hnd as [N0 Hnd]. apply NoDup_cons in Hnd as [N1 Hnd].
  apply NoDup_cons in Hnd as [N2 _].
  apply not_elem_of_cons in N0 as [N01 N0]. apply not_elem_of_cons in N0 as [N02 N0].
  apply not_elem_of_cons in N0 as [N03 _].
  apply not_elem_of_cons in N1 as [N12 N1]. apply not_elem_of_cons in N1 as [N13 _].
  apply not_elem_of_cons in N2 as [N23 _].
  unfold cover_four. rewrite decide_True by done. rewrite E0.
  pose proof (cover_Inv h Lv V HI d0 L0) as HI1.
  rewrite (cover_eq h Lv V HI d0 L0) by lia.
  change (Ok ?x ≫= ?f) with (f x). cbv beta. rewrite col_cover_result, E1.
  assert (H1 : d1 ∈ cover_Lv Lv d0).
  { apply list_elem_of_filter. split; [congruence|done]. }
  pose proof (cover_Inv _ _ _ HI1 d1 H1) as HI2.
  rewrite (cover_eq _ _ _ HI1 d1 H1) by lia.
  change (Ok ?x ≫= ?f) with (f x). cbv beta. rewrite !col_cover_result, E2.
  assert (H2 : d2 ∈ cover_Lv (cover_Lv Lv d0) d1).
  { apply list_elem_of_filter. split; [congruence|].
    apply list_elem_of_filter. split; [congruence|done]. }
  pose proof (cover_Inv _ _ _ HI2 d2 H2) as HI3.
  rewrite (cover_eq _ _ _ HI2 d2 H2) by lia.
  change (Ok ?x ≫= ?f) with (f x). cbv beta. rewrite !col_cover_result, E3.
  assert (H3 : d3 ∈ cover_Lv (cover_Lv (cover_Lv Lv d0) d1) d2).
  { apply list_elem_of_filter. split; [congruence|].
    apply list_elem_of_filter. split; [congruence|].
    apply list_elem_of_filter. split; [congruence|done]. }
  rewrite (cover_eq _ _ _ HI3 d3 H3) by lia. done.
Qed.

Lemma cover_four_spec fuel gr h Lv V :
  Inv h Lv V → 0 <= gr < row_size → NoDup (row_items gr) →
  (∀ d, d ∈ row_items gr → d ∈ Lv) → (14 <= fuel)%nat →
  cover_four fuel gr h = Ok (covers_heap h V (row_items gr)).
Proof.
  intros HI Hgr Hnd Hin Hfuel.
  rewrite (row_items_columns h gr (inv_shape _ _ _ HI) Hgr) in Hnd, Hin |- *.
  unfold row_columns in Hnd, Hin |- *.
  change (seqZ 0 cells_per_row) with [0; 1; 2; 3] in Hnd, Hin |- *.
  cbn [fmap list_fmap] in Hnd, Hin |- *.
  apply (cover_four_list fuel gr h Lv V); try done.
  - apply Hin. apply list_elem_of_here.
  - apply Hin. do 1 apply list_elem_of_further. apply list_elem_of_here.
  - apply Hin. do 2 apply list_elem_of_further. apply list_elem_of_here.
  - apply Hin. do 3 apply list_elem_of_further. apply list_elem_of_here.
Qed.

(** One more chosen row: its four columns leave the live columns. *)
Lemma SInv_extend s k R Lv V ρ s1 :
  SInv s k R Lv V → 0 <= ρ < row_size →
  (∀ d, d ∈ row_items ρ → d ∉ R ≫= row_items) →
  heap s1 = covers_heap (heap s) V (row_items ρ) → root s1 = root s →
  solution s1 = <[Z.to_nat k := Some ρ]> (solution s) →
  0 <= k < grid_size ∧
  SInv s1 (k + 1) (R ++ [ρ]) (covers_Lv Lv (row_items ρ)) (covers_V V (row_items ρ)).
Proof.
  intros HS Hρ Hfresh Hheap Hroot Hsol.
  pose proof (si_inv _ _ _ _ _ HS) as HI.
  pose proof (SInv_count _ _ _ _ _ HS) as Hcount.
  pose proof (si_k _ _ _ _ _ HS) as Hk.
  pose proof (si_len _ _ _ _ _ HS) as Hlen.
  destruct (row_items_ok ρ Hρ) as (Hnd & Hrange & Hlen4).
  rewrite Forall_forall in Hrange.
  assert (Hin : ∀ d, d ∈ row_items ρ → d ∈ Lv).
  { intros d Hd. apply (si_live _ _ _ _ _ HS d); [by apply Hrange|by apply Hfresh]. }
  assert (Hk81 : 0 <= k < grid_size).
  { destruct (inv_hring _ _ _ HI) as (_ & HndL & _).
    pose proof (covers_Lv_length (row_items ρ) Lv HndL Hnd Hin). consts. lia. }
  split; [done|]. split.
  - rewrite Hheap. by apply covers_Inv.
  - rewrite Hroot. apply (si_root _ _ _ _ _ HS).
  - rewrite Hsol, length_insert. exact Hlen.
  - rewrite length_app. simpl. lia.
  - intros t r Ht. rewrite Hsol.
    destruct (decide (t < length R)%nat) as [Hlt|Hge].
    + rewrite lookup_app_l in Ht by done.
      rewrite list_lookup_insert_ne by lia. by apply (si_trace _ _ _ _ _ HS).
    + rewrite lookup_app_r in Ht by lia.
      destruct (t - length R)%nat as [|?] eqn:E; [|done]. simpl in Ht. injection Ht as <-.
      replace t with (Z.to_nat k) by lia.
      apply list_lookup_insert_eq. rewrite Hlen. consts. lia.
  - intros r Hr. apply elem_of_app in Hr as [Hr|Hr]; [by apply (si_rows _ _ _ _ _ HS)|].
    apply list_elem_of_singleton in Hr. by subst.
  - rewrite bind_app. change ([ρ] ≫= row_items) with (row_items ρ ++ []).
    rewrite app_nil_r. apply NoDup_app. split; [apply (si_nodup _ _ _ _ _ HS)|].
    split; [|done]. intros d Hd Hd'. by apply (Hfresh d).
  - intros d Hd. rewrite covers_Lv_spec, bind_app, not_elem_of_app.
    change ([ρ] ≫= row_items) with (row_items ρ ++ []).
    rewrite app_nil_r. rewrite (si_live _ _ _ _ _ HS d Hd). done.
  - rewrite Hheap. apply avail_covers; [done..|]. apply (si_avail _ _ _ _ _ HS).
Qed.

Lemma place_clues_total fuel l : ∀ zs R Lv V,
  SInv zs.2 zs.1 R Lv V → (∀ r, r ∈ l → 0 <= r < row_size) →
  NoDup ((R ++ l) ≫= row_items) → (14 <= fuel)%nat →
  ∃ zs' Lv' V', place_clues fuel l zs = Ok zs' ∧ SInv zs'.2 zs'.1 (R ++ l) Lv' V' ∧
    out zs'.2 = out zs.2.
Proof.
  induction l as [|gr l IH]; intros zs R Lv V HS Hl Hnd Hfuel.
  - exists zs, Lv, V. rewrite app_nil_r. done.
  - assert (Hgr : 0 <= gr < row_size) by (apply Hl; set_solver).
    destruct (row_items_ok gr Hgr) as (Hndgr & Hrange & _).
    rewrite Forall_forall in Hrange.
    assert (Hfresh : ∀ d, d ∈ row_items gr → d ∉ R ≫= row_items).
    { intros d Hd Hd'. rewrite bind_app, bind_cons in Hnd.
      apply NoDup_app in Hnd as (_ & Hdisj & _). apply (Hdisj d Hd'). set_solver. }
    assert (Hin : ∀ d, d ∈ row_items gr → d ∈ Lv).
    { intros d Hd. apply (si_live _ _ _ _ _ HS d); [by apply Hrange|by apply Hfresh]. }
    cbn [place_clues]. unfold place_clue.
    rewrite (cover_four_spec fuel gr _ Lv V (si_inv _ _ _ _ _ HS) Hgr Hndgr Hin Hfuel).
    change (Ok ?x ≫= ?f) with (f x). cbv beta.
    set (s1 := mkSudoku (row_count zs.2) (covers_heap (heap zs.2) V (row_items gr))
                 (root zs.2) (<[Z.to_nat zs.1 := Some gr]> (solution zs.2)) (out zs.2)).
    destruct (SInv_extend zs.2 zs.1 R Lv V gr s1 HS Hgr Hfresh eq_refl eq_refl eq_refl)
      as [Hk HS1].
    unfold set_solution. rewrite decide_True by done.
    change (Ok ?x ≫= ?f) with (f x). cbv beta. cbn [with_heap row_count heap root solution out].
    fold s1.
    destruct (IH (zs.1 + 1, s1) (R ++ [gr]) _ _ HS1) as (zs' & Lv' & V' & Hpc & HS' & Hout).
    + intros; apply Hl; set_solver.
    + by rewrite <- app_assoc.
    + done.
    + exists zs', Lv', V'. rewrite <- app_assoc in HS'. split; [exact Hpc|]. done.
Qed.

Lemma avail_h0 : avail h0 (seqZ 0 constraints) V0.
Proof.
  destruct constructed_coverage as (_ & _ & Hlinks). rewrite Forall_forall in Hlinks.
  intros ρ κ Hρ Hκ _.
  destruct (Hlinks ρ ltac:(apply elem_of_seqZ; lia)) as (_ & _ & Hk).
  rewrite Forall_forall in Hk. specialize (Hk κ ltac:(apply elem_of_seqZ; lia)).
  assert (Hin : PCell ρ κ ∈ filter (λ p, row_ h0 p = Some ρ)
                              (col_cells h0 (col_ h0 (PCell ρ κ))))
    by (rewrite Hk; apply list_elem_of_here).
  apply list_elem_of_filter in Hin as [_ Hin]. exact Hin.
Qed.

Lemma SInv_s0 : SInv s0 0 [] (seqZ 0 constraints) V0.
Proof.
  destruct constructed_s0 as (Hroot & _ & Hsol & _).
  split.
  - exact Inv_h0.
  - exact Hroot.
  - rewrite Hsol. apply length_replicate.
  - reflexivity.
  - intros t r Ht. rewrite lookup_nil in Ht. discriminate.
  - intros r Hr. inversion Hr.
  - apply NoDup_nil_2.
  - clear Hroot Hsol. intros c Hc. rewrite elem_of_seqZ.
    split; [intros _; apply not_elem_of_nil|lia].
  - exact avail_h0.
Qed.

(** The clues of a grid, cell by cell. *)
Lemma line_clues_spec i line : ∀ j r,
  r ∈ line_clues i j line ↔
  ∃ t v, line !! t = Some v ∧ v ≠ 0 ∧ r = 81 * i + 9 * (j + Z.of_nat t) + v - 1.
Proof.
  induction line as [|v line IH]; intros j r; simpl.
  - split; [set_solver|]. by intros (t & v & ? & _).
  - rewrite elem_of_app, IH. split.
    + intros [Hr|(t & v' & Ht & Hv & ->)].
      * case_decide; [|set_solver]. apply list_elem_of_singleton in Hr as ->.
        exists 0%nat, v. repeat split; [done|]. lia.
      * exists (S t), v'. repeat split; [done..|]. lia.
    + intros ([|t] & v' & Ht & Hv & ->); simpl in Ht.
      * injection Ht as ->. left. rewrite decide_True by done.
        apply list_elem_of_singleton. lia.
      * right. exists t, v'. repeat split; [done..|]. lia.
Qed.

Lemma grid_clues_spec grid : ∀ i r,
  r ∈ grid_clues i grid ↔
  ∃ u t line v, grid !! u = Some line ∧ line !! t = Some v ∧ v ≠ 0 ∧
    r = 81 * (i + Z.of_nat u) + 9 * Z.of_nat t + v - 1.
Proof.
  induction grid as [|line grid IH]; intros i r; simpl.
  - split; [set_solver|]. by intros (u & t & l & v & ? & _).
  - rewrite elem_of_app, IH, line_clues_spec. split.
    + intros [(t & v & Ht & Hv & ->)|(u & t & l & v & Hu & Ht & Hv & ->)].
      * exists 0%nat, t, line, v. repeat split; [done..|]. lia.
      * exists (S u), t, l, v. repeat split; [done..|]. lia.
    + intros ([|u] & t & l & v & Hu & Ht & Hv & ->); simpl in Hu.
      * injection Hu as ->. left. exists t, v. repeat split; [done..|]. lia.
      * right. exists u, t, l, v. repeat split; [done..|]. lia.
Qed.

Lemma clues_range grid r : digits_grid grid → r ∈ clues grid → 0 <= r < row_size.
Proof.
  intros [[Hlen Hlines] Hdig] Hr.
  apply grid_clues_spec in Hr as (u & t & line & v & Hu & Ht & Hv & ->).
  rewrite Forall_forall in Hlines, Hdig.
  pose proof (list_elem_of_lookup_2 _ _ _ Hu) as Hin.
  pose proof (Hlines line Hin) as Hl9. pose proof (Hdig line Hin) as Hd.
  rewrite Forall_forall in Hd. pose proof (Hd v (list_elem_of_lookup_2 _ _ _ Ht)).
  apply lookup_lt_Some in Hu, Ht. consts. lia.
Qed.

Lemma placed_keeps_clues grid g :
  digits_grid grid → (∀ r, r ∈ clues grid → placed g r) → keeps_clues grid g.
Proof.
  intros Hd Hpl. apply Forall_forall. intros i Hi. apply Forall_forall. intros j Hj Hne.
  apply elem_of_seqZ in Hi, Hj.
  unfold cell_at in Hne |- * at 2.
  destruct (grid !! Z.to_nat i) as [line|] eqn:Hline; [|done]. simpl in *.
  destruct (line !! Z.to_nat j) as [v|] eqn:Hv; [|done]. simpl in *.
  assert (Hr : 81 * i + 9 * j + v - 1 ∈ clues grid).
  { apply grid_clues_spec. exists (Z.to_nat i), (Z.to_nat j), line, v.
    repeat split; [done..|]. lia. }
  pose proof (clues_range grid _ Hd Hr) as Hrange.
  specialize (Hpl _ Hr). unfold placed in Hpl.
  destruct Hd as [[Hlen Hlines] Hdig].
  rewrite Forall_forall in Hdig.
  pose proof (Hdig line (list_elem_of_lookup_2 _ _ _ Hline)) as Hdl.
  rewrite Forall_forall in Hdl. pose proof (Hdl v (list_elem_of_lookup_2 _ _ _ Hv)).
  replace ((81 * i + 9 * j + v - 1) / 81) with i in Hpl by (Z.div_mod_to_equations; lia).
  replace ((81 * i + 9 * j + v - 1) / 9 mod 9) with j in Hpl by (Z.div_mod_to_equations; lia).
  rewrite Hpl. Z.div_mod_to_equations; lia.
Qed.

Lemma keeps_clues_placed grid g :
  digits_grid grid → keeps_clues grid g → ∀ r, r ∈ clues grid → placed g r.
Proof.
  intros [[Hlen Hlines] Hdig] Hk r Hr.
  apply grid_clues_spec in Hr as (u & t & line & v & Hu & Ht & Hv & ->).
  rewrite Forall_forall in Hlines, Hdig.
  pose proof (list_elem_of_lookup_2 _ _ _ Hu) as Hin.
  pose proof (Hlines line Hin) as Hl9. pose proof (Hdig line Hin) as Hd.
  rewrite Forall_forall in Hd. pose proof (Hd v (list_elem_of_lookup_2 _ _ _ Ht)) as Hv9.
  pose proof (lookup_lt_Some _ _ _ Hu) as Hu9. pose proof (lookup_lt_Some _ _ _ Ht) as Ht9.
  unfold keeps_clues in Hk. rewrite Forall_seqZ in Hk.
  specialize (Hk (Z.of_nat u) ltac:(lia)). rewrite Forall_seqZ in Hk.
  specialize (Hk (Z.of_nat t) ltac:(lia)).
  assert (Hc : cell_at grid (Z.of_nat u) (Z.of_nat t) = v).
  { unfold cell_at. rewrite !Nat2Z.id, Hu. simpl. by rewrite Ht. }
  rewrite Hc in Hk. specialize (Hk Hv). unfold placed.
  replace ((81 * (0 + Z.of_nat u) + 9 * Z.of_nat t + v - 1) / 81) with (Z.of_nat u)
    by (Z.div_mod_to_equations; lia).
  replace ((81 * (0 + Z.of_nat u) + 9 * Z.of_nat t + v - 1) / 9 mod 9) with (Z.of_nat t)
    by (Z.div_mod_to_equations; lia).
  rewrite Hk. Z.div_mod_to_equations; lia.
Qed.

(** The run on a grid of the input contract whose clues are compatible:
    it returns, and the grids that it has reported are the solved
    Sudokus that keep the clues. *)
Lemma solve_total fuel grid :
  digits_grid grid → clues_compatible grid → (354 <= fuel)%nat →
  ∃ s', loadGridAndSolve fuel grid s0 = Ok s' ∧ NoDup (out s') ∧
    ∀ g, g ∈ out s' ↔ valid_sudoku g ∧ keeps_clues grid g.
Proof.
  intros Hd Hc Hfuel. unfold loadGridAndSolve.
  pose proof Hd as [[Hlen Hlines] _].
  pose proof (load_grid_spec fuel grid grid 0 (0, s0) ltac:(done) eq_refl Hlines) as Hload.
  rewrite Hlen in Hload. rewrite Hload. fold (clues grid).
  destruct (place_clues_total fuel (clues grid) (0, s0) [] _ _ SInv_s0)
    as (zs & Lv & V & -> & HS & Hout).
  - intros r Hr. by apply (clues_range grid).
  - done.
  - lia.
  - change (Ok ?x ≫= ?f) with (f x). cbv beta.
    pose proof (Inv_live_length _ _ _ (si_inv _ _ _ _ _ HS)) as HL.
    destruct (search_total print_total fuel _ _ _ _ _ HS ltac:(lia))
      as (s' & -> & _ & _ & _ & _ & _ & new & Hnew & Hndn & Hgood).
    exists s'. split; [done|].
    destruct constructed_s0 as (_ & _ & _ & Hout0 & _).
    cbn in Hout. rewrite Hout, Hout0 in Hnew. cbn in Hnew. rewrite Hnew.
    split; [done|]. intros g. rewrite Hgood, app_nil_l. split.
    + intros [Hv Hpl]. split; [done|]. by apply placed_keeps_clues.
    + intros [Hv Hk]. split; [done|]. by apply keeps_clues_placed.
Qed.

(** * The run on grids with compatible clues *)

Lemma digits_main_grid : digits_grid main_grid.
Proof. apply (bool_decide_unpack _). vm_compute. exact I. Defined.

Lemma compatible_main_grid : clues_compatible main_grid.
Proof. apply (bool_decide_unpack _). vm_compute. exact I. Defined.

(** X1.  For a grid of nine lines of nine numbers from 0 to 9 in which
    no two clues claim the same cell, the same digit of a row, of a
    column or of a block, [loadGridAndSolve] on the constructed solver
    returns, and every grid that it has printed is a solved Sudoku that
    holds every clue at its place. *)
Theorem loadGridAndSolve_sound fuel grid :
  digits_grid grid → clues_compatible grid → (354 <= fuel)%nat →
  ∃ s', loadGridAndSolve fuel grid s0 = Ok s' ∧
    ∀ g, g ∈ out s' → valid_sudoku g ∧ keeps_clues grid g.
Proof.
  intros Hd Hc Hfuel. destruct (solve_total fuel grid Hd Hc Hfuel) as (s' & Hs & _ & Hout).
  exists s'. split; [exact Hs|]. intros g Hg. by apply Hout.
Qed.

Lemma loadGridAndSolve_sound_witness :
  digits_grid main_grid ∧ clues_compatible main_grid ∧ (354 <= 354)%nat ∧
  ∃ s', loadGridAndSolve 354 main_grid s0 = Ok s' ∧
    ∀ g, g ∈ out s' → valid_sudoku g ∧ keeps_clues main_grid g.
Proof.
  split; [exact digits_main_grid|]. split; [exact compatible_main_grid|]. split; [lia|].
  apply (loadGridAndSolve_sound 354 main_grid);
    [exact digits_main_grid|exact compatible_main_grid|lia].
Defined.

(** X2.  A call [search(k)] in a state that satisfies the invariant of
    the search returns with the matrix, the root and the first [k]
    entries of the trace as it found them; what it has printed in between
    are solved Sudokus in which the rows chosen before the call are
    placed. *)
Theorem search_restores n k s R Lv V :
  SInv s k R Lv V → (length Lv + 30 <= n)%nat →
  ∃ s', search n k s = Ok s' ∧
    heap s' = heap s ∧ root s' = root s ∧
    length (solution s') = length (solution s) ∧
    (∀ t, (t < Z.to_nat k)%nat → solution s' !! t = solution s !! t) ∧
    ∃ new, out s' = out s ++ new ∧
           ∀ g, g ∈ new → valid_sudoku g ∧ ∀ r, r ∈ R → placed g r.
Proof.
  intros HS Hn.
  destruct (search_total print_total n k s R Lv V HS Hn)
    as (s' & Hs & Hh & Hr & _ & Hl & Hsol & new & Hout & _ & Hnew).
  exists s'. split; [exact Hs|]. split; [exact Hh|]. split; [exact Hr|].
  split; [exact Hl|]. split; [exact Hsol|]. exists new. split; [exact Hout|].
  intros g Hg. by apply Hnew.
Qed.

Lemma search_restores_witness :
  SInv s0 0 [] (seqZ 0 constraints) V0 ∧
  (length (seqZ 0 constraints) + 30 <= 354)%nat ∧
  ∃ s', search 354 0 s0 = Ok s' ∧
    heap s' = heap s0 ∧ root s' = root s0 ∧
    length (solution s') = length (solution s0) ∧
    (∀ t, (t < Z.to_nat 0)%nat → solution s' !! t = solution s0 !! t) ∧
    ∃ new, out s' = out s0 ++ new ∧
           ∀ g, g ∈ new → valid_sudoku g ∧ ∀ r, r ∈ [] → placed g r.
Proof.
  assert (Hn : (length (seqZ 0 constraints) + 30 <= 354)%nat)
    by (rewrite length_seqZ; consts; lia).
  split; [exact SInv_s0|]. split; [exact Hn|].
  exact (search_restores 354 0 s0 [] (seqZ 0 constraints) V0 SInv_s0 Hn).
Defined.

(** X3.  The encoding of the constructor is right: when candidate rows
    whose columns are pairwise distinct and make up all the 324
    constraint columns are placed in a grid of nine lines of nine
    numbers, every row, every column and every block of the grid holds
    each digit from 1 to 9 once. *)
Theorem exact_cover_is_sudoku (g : list (list Z)) (R : list Z) :
  nine_by_nine g →
  Forall (λ r, 0 <= r < row_size) R →
  NoDup (R ≫= row_items) →
  Forall (λ c, c ∈ R ≫= row_items) (seqZ 0 constraints) →
  Forall (placed g) R →
  valid_sudoku g.
Proof.
  rewrite !Forall_forall. intros Hg HR Hnd Hall Hpl.
  apply (exact_cover_valid g R); try done.
  intros c Hc. apply Hall, elem_of_seqZ. lia.
Qed.

Lemma exact_cover_is_sudoku_witness :
  nine_by_nine solved_grid ∧
  Forall (λ r, 0 <= r < row_size) (clues solved_grid) ∧
  NoDup (clues solved_grid ≫= row_items) ∧
  Forall (λ c, c ∈ clues solved_grid ≫= row_items) (seqZ 0 constraints) ∧
  Forall (placed solved_grid) (clues solved_grid) ∧
  valid_sudoku solved_grid.
Proof.
  assert (H1 : nine_by_nine solved_grid)
    by (apply (bool_decide_unpack _); vm_compute; exact I).
  assert (H2 : Forall (λ r, 0 <= r < row_size) (clues solved_grid))
    by (apply (bool_decide_unpack _); vm_compute; exact I).
  assert (H3 : NoDup (clues solved_grid ≫= row_items))
    by (apply (bool_decide_unpack _); vm_compute; exact I).
  assert (H4 : Forall (λ c, c ∈ clues solved_grid ≫= row_items) (seqZ 0 constraints))
    by (apply (bool_decide_unpack _); vm_compute; exact I).
  assert (H5 : Forall (placed solved_grid) (clues solved_grid)).
  { unfold placed. apply (bool_decide_unpack _). vm_compute. exact I. }
  split; [exact H1|]. split; [exact H2|]. split; [exact H3|]. split; [exact H4|].
  split; [exact H5|].
  exact (exact_cover_is_sudoku solved_grid (clues solved_grid) H1 H2 H3 H4 H5).
Defined.

Lemma valid_solved_grid : valid_sudoku solved_grid.
Proof. apply (bool_decide_unpack _). vm_compute. exact I. Defined.

Lemma keeps_main_grid : keeps_clues main_grid solved_grid.
Proof. apply (bool_decide_unpack _). vm_compute. exact I. Defined.

(** X8.  The search is complete: for a grid of the input contract with
    compatible clues, every solved Sudoku that keeps the clues is among
    the grids that [loadGridAndSolve] has printed when it returns. *)
Theorem loadGridAndSolve_complete fuel grid g :
  digits_grid grid → clues_compatible grid → (354 <= fuel)%nat →
  valid_sudoku g → keeps_clues grid g →
  ∃ s', loadGridAndSolve fuel grid s0 = Ok s' ∧ g ∈ out s'.
Proof.
  intros Hd Hc Hfuel Hv Hk.
  destruct (solve_total fuel grid Hd Hc Hfuel) as (s' & Hs & _ & Hout).
  exists s'. split; [exact Hs|]. by apply Hout.
Qed.

Lemma loadGridAndSolve_complete_witness :
  digits_grid main_grid ∧ clues_compatible main_grid ∧ (354 <= 354)%nat ∧
  valid_sudoku solved_grid ∧ keeps_clues main_grid solved_grid ∧
  ∃ s', loadGridAndSolve 354 main_grid s0 = Ok s' ∧ solved_grid ∈ out s'.
Proof.
  split; [exact digits_main_grid|]. split; [exact compatible_main_grid|]. split; [lia|].
  split; [exact valid_solved_grid|]. split; [exact keeps_main_grid|].
  apply (loadGridAndSolve_complete 354 main_grid solved_grid);
    [exact digits_main_grid|exact compatible_main_grid|lia|
     exact valid_solved_grid|exact keeps_main_grid].
Defined.

(** X14.  No solution is printed twice: for a grid of the input contract
    with compatible clues, the grids that [loadGridAndSolve] has printed
    when it returns are pairwise different; with X1 and X8 they are the
    solutions of the grid, each once. *)
Theorem loadGridAndSolve_no_repeat fuel grid :
  digits_grid grid → clues_compatible grid → (354 <= fuel)%nat →
  ∃ s', loadGridAndSolve fuel grid s0 = Ok s' ∧ NoDup (out s').
Proof.
  intros Hd Hc Hfuel. destruct (solve_total fuel grid Hd Hc Hfuel) as (s' & Hs & Hnd & _).
  exists s'. split; [exact Hs|exact Hnd].
Qed.

Lemma loadGridAndSolve_no_repeat_witness :
  digits_grid two_solutions_grid ∧ clues_compatible two_solutions_grid ∧ (354 <= 354)%nat ∧
  ∃ s', loadGridAndSolve 354 two_solutions_grid s0 = Ok s' ∧ NoDup (out s').
Proof.
  assert (Hd : digits_grid two_solutions_grid)
    by (apply (bool_decide_unpack _); vm_compute; exact I).
  assert (Hc : clues_compatible two_solutions_grid)
    by (apply (bool_decide_unpack _); vm_compute; exact I).
  split; [exact Hd|]. split; [exact Hc|]. split; [lia|].
  apply (loadGridAndSolve_no_repeat 354 two_solutions_grid); [exact Hd|exact Hc|lia].
Defined.

(** * Rows, dead ends and the bound of the trace *)

(** The other cells of a row of a live column lie in live columns,
    different from each other and from the column. *)
Lemma row_mates_live h Lv V c x :
  Inv h Lv V → c ∈ Lv → x ∈ V c →
  is_cell x ∧ (∀ y, y ∈ mates x → is_cell y) ∧
  NoDup (col_ (cover_result h V c) <$> mates x) ∧
  ∀ y, y ∈ mates x → col_ (cover_result h V c) y ∈ cover_Lv Lv c.
Proof.
  intros HI Hc Hx.
  destruct (ring_cell h Lv V HI c x Hc Hx) as [Hcell Hcolx].
  pose proof (inv_shape _ _ _ HI) as Hsh.
  destruct x as [|ρ κ]; [done|]. destruct Hcell as [Hρ Hκ].
  assert (Hcell : is_cell (PCell ρ κ)) by done.
  assert (Hds : col_ (cover_result h V c) <$> mates (PCell ρ κ) = col_ h <$> mates (PCell ρ κ)).
  { apply list_fmap_ext. intros. apply col_cover_result. }
  pose proof (row_columns_perm h ρ κ Hsh Hρ Hκ) as Hperm.
  rewrite Hcolx, <- Hds in Hperm.
  destruct (row_items_ok ρ Hρ) as (Hnd & _ & _).
  rewrite <- Hperm in Hnd. apply NoDup_cons in Hnd as [Hcds Hndds].
  split; [done|]. split; [intros y Hy; by apply (mates_is_cell (PCell ρ κ))|].
  split; [done|].
  intros y Hy. apply list_elem_of_filter. split.
  - intros E. apply Hcds. apply list_elem_of_fmap. exists y. split; [symmetry; exact E|done].
  - rewrite col_cover_result. by destruct (inv_rows _ _ _ HI c (PCell ρ κ) y Hc Hx Hy).
Qed.

Lemma in_col_cells_h0 : PCell 0 0 ∈ col_cells h0 0.
Proof. apply (bool_decide_unpack _). vm_compute. exact I. Defined.

(** X4.  What [search] does and undoes for one row: on a reachable
    matrix, for a cell [x] of a live column [c], covering [c], covering
    the columns of the other cells of the row of [x] from left to right,
    uncovering them from right to left and uncovering [c] returns the
    matrix as it was, and the covers of the row are undone before [c] is
    uncovered. *)
Theorem row_cover_round_trip h st c x n :
  reachable h st → live h c → x ∈ col_cells h c → (18 <= n)%nat →
  ∃ h1 h2, cover n c h = Ok h1 ∧
    cover_others n x (right_ h1 x) h1 = Ok h2 ∧
    uncover_others n x (left_ h2 x) h2 = Ok h1 ∧
    uncover n c h1 = Ok h.
Proof.
  intros Hr Hl Hx Hn. destruct (reachable_Inv h st Hr) as (Lv & V & HI).
  apply (Inv_live h Lv V HI) in Hl. rewrite (Inv_col_cells h Lv V c HI Hl) in Hx.
  destruct (row_mates_live h Lv V c x HI Hl Hx) as (Hcell & Hmc & Hnd & Hlive).
  pose proof (cover_Inv h Lv V HI c Hl) as HI1.
  pose proof (inv_shape _ _ _ HI1) as Hsh1.
  assert (Hlen : length (mates x) = 3%nat) by (by destruct x).
  exists (cover_result h V c), (covers_heap (cover_result h V c) (cover_V V c)
                                  (col_ (cover_result h V c) <$> mates x)).
  split; [apply (cover_eq h Lv V HI c Hl); lia|].
  split.
  { apply (cover_others_spec x (mates x) _ _ _ _ n HI1); try done.
    - by apply mates_right_path.
    - lia. }
  split; [|apply (uncover_eq h Lv V HI c Hl); lia].
  assert (HI2 : Inv (covers_heap (cover_result h V c) (cover_V V c)
                       (col_ (cover_result h V c) <$> mates x))
                  (covers_Lv (cover_Lv Lv c) (col_ (cover_result h V c) <$> mates x))
                  (covers_V (cover_V V c) (col_ (cover_result h V c) <$> mates x))).
  { apply covers_Inv; [done..|].
    intros d Hd. apply list_elem_of_fmap in Hd as (y & -> & Hy). by apply Hlive. }
  destruct (Inv_right_cell _ _ _ _ _ _ x HI1 HI2 Hcell) as [_ ->].
  apply (uncover_others_spec x _ _ _ HI1 (mates x) _ n); try done.
  - by apply mates_left_path.
  - lia.
Qed.

Lemma row_cover_round_trip_witness :
  reachable h0 [] ∧ live h0 0 ∧ PCell 0 0 ∈ col_cells h0 0 ∧ (18 <= 18)%nat ∧
  ∃ h1 h2, cover 18 0 h0 = Ok h1 ∧
    cover_others 18 (PCell 0 0) (right_ h1 (PCell 0 0)) h1 = Ok h2 ∧
    uncover_others 18 (PCell 0 0) (left_ h2 (PCell 0 0)) h2 = Ok h1 ∧
    uncover 18 0 h1 = Ok h0.
Proof.
  split; [constructor|]. split; [exact live_h0_0|]. split; [exact in_col_cells_h0|].
  split; [lia|].
  apply (row_cover_round_trip h0 [] 0 (PCell 0 0) 18);
    [constructor|exact live_h0_0|exact in_col_cells_h0|lia].
Defined.

(** * The bound of the trace, dead ends and grids without solution *)

Lemma search_unfold n k s : search (S n) k s = search_step (search n (k + 1)) n k s.
Proof. reflexivity. Qed.

Lemma search_rows_no_store rec n k c r s s' :
  ¬ (0 <= k < grid_size) → search_rows rec n k c r s = Ok s' → r = c ∧ s' = s.
Proof.
  intros Hk. destruct n as [|n]; [done|]. cbn [search_rows].
  case_decide as Hr; [intros [= <-]; done|].
  unfold set_solution. rewrite decide_False by done. done.
Qed.

Lemma solved_state_empty :
  right_ (heap solved_state) (PCol (root solved_state)) = PCol (root solved_state).
Proof. vm_compute. reflexivity. Qed.

Lemma solved_state_prints :
  match printSolution solved_state with Ok _ => True | _ => False end.
Proof. vm_compute. exact I. Qed.

(** X5.  The trace has 81 entries, and [search] stores [solution[k]]
    without a check.  A call [search(k)] with [k] outside 0..80 that
    returns has stored nothing and has made no recursive call: it has
    printed, or the column it chose had no row; it leaves the trace as it
    was, and returns the same whatever the recursive call would do. *)
Theorem search_trace_bound rec n k s s' :
  ¬ (0 <= k < grid_size) → search_step rec n k s = Ok s' →
  solution s' = solution s ∧ root s' = root s ∧
  (∀ rec', search_step rec' n k s = Ok s') ∧
  (right_ (heap s) (PCol (root s)) = PCol (root s) ∨ out s' = out s).
Proof.
  intros Hk. unfold search_step. case_decide as He.
  - intros Hp. destruct (printSolution_Ok s s' Hp) as (_ & Hsol & Hroot & _).
    split; [done|]. split; [done|]. split; [done|]. by left.
  - destruct (choose _ _ _ _ _) as [c| |]; [|done..].
    change (Ok ?a ≫= ?f) with (f a). cbv beta.
    destruct (cover _ _ _) as [h1| |]; [|done..].
    change (Ok ?a ≫= ?f) with (f a). cbv beta.
    destruct (search_rows rec n k c (down_ h1 c) (with_heap s h1)) as [s2| |] eqn:Hrows;
      [|done..].
    destruct (search_rows_no_store _ _ _ _ _ _ _ Hk Hrows) as [Hd ->].
    change (Ok ?a ≫= ?f) with (f a). cbv beta.
    destruct (uncover _ _ _) as [h3| |] eqn:Hun; [|done..].
    intros [= <-]. split; [done|]. split; [done|]. split; [|by right].
    intros rec'.
    assert (Hrows' : search_rows rec' n k c (down_ h1 c) (with_heap s h1)
                     = Ok (with_heap s h1)).
    { destruct n as [|n]; [done|]. cbn [search_rows]. by rewrite decide_True. }
    rewrite Hrows'. change (Ok ?a ≫= ?f) with (f a). cbv beta. by rewrite Hun.
Qed.

Lemma is_Ok_eq {A} (r : res A) (d : A) :
  match r with Ok _ => True | _ => False end →
  r = Ok (match r with Ok x => x | _ => d end).
Proof. destruct r; [reflexivity|contradiction|contradiction]. Qed.

Lemma printed_state_eq : printSolution solved_state = Ok printed_state.
Proof. unfold printed_state. apply is_Ok_eq. exact solved_state_prints. Qed.

Lemma search_step_empty rec n k s :
  right_ (heap s) (PCol (root s)) = PCol (root s) →
  search_step rec n k s = printSolution s.
Proof. intros H. unfold search_step. by rewrite decide_True. Qed.

Lemma search_trace_bound_witness :
  ¬ (0 <= 81 < grid_size) ∧
  search_step (search 0 (81 + 1)) 0 81 solved_state = Ok printed_state ∧
  solution printed_state = solution solved_state ∧
  root printed_state = root solved_state ∧
  (∀ rec', search_step rec' 0 81 solved_state = Ok printed_state) ∧
  (right_ (heap solved_state) (PCol (root solved_state)) = PCol (root solved_state) ∨
   out printed_state = out solved_state).
Proof.
  assert (Hk : ¬ (0 <= 81 < grid_size)) by (unfold grid_size; lia).
  pose proof (eq_trans (search_step_empty (search 0 (81 + 1)) 0 81 solved_state
                          solved_state_empty) printed_state_eq) as Hs.
  split; [exact Hk|]. split; [exact Hs|].
  exact (search_trace_bound (search 0 (81 + 1)) 0 81 solved_state printed_state Hk Hs).
Defined.

(** * Dead ends *)

(** The scan of [search] returns a live column of least count. *)
Lemma choose_least h Lv V n :
  Inv h Lv V → Lv ≠ [] → (length Lv < n)%nat →
  ∃ c, choose n rootp (right_ h rootp) (right_ h rootp) h = Ok (PCol c) ∧ c ∈ Lv ∧
       ∀ d, d ∈ Lv → get_count h c <= get_count h d.
Proof.
  intros HI Hne Hn. pose proof (Inv_header_path _ _ _ HI) as Hpath.
  pose proof (inv_shape _ _ _ HI) as Hsh.
  assert (Hsc : ∀ d, d ∈ Lv → scan_count h (PCol d) = get_count h d).
  { intros d Hd. unfold scan_count. rewrite (sh_col_hdr _ Hsh d); [done|].
    pose proof (live_range _ _ _ HI d Hd). consts. lia. }
  destruct (choose_spec h rootp (PCol <$> Lv) n (right_ h rootp) (right_ h rootp) Hpath
              ltac:(rewrite length_fmap; lia)) as (c' & Hch & Hc').
  assert (Hhead : right_ h rootp ∈ PCol <$> Lv).
  { destruct Lv; [done|]. simpl in Hpath. destruct Hpath as (-> & _). apply list_elem_of_here. }
  assert (Hmin : c' ∈ PCol <$> Lv ∧ ∀ x, x ∈ PCol <$> Lv → scan_count h c' <= scan_count h x).
  { destruct Hc' as [[-> Hle]|(L1 & L2 & HL & _ & H1 & H2)]; [done|].
    rewrite HL. split; [set_solver|]. intros x Hx.
    apply elem_of_app in Hx as [Hx|Hx]; [specialize (H1 x Hx); lia|].
    apply elem_of_cons in Hx as [->|Hx]; [lia|by apply H2]. }
  destruct Hmin as [Hin Hmin]. apply list_elem_of_fmap in Hin as (c & -> & Hc).
  exists c. split; [done|]. split; [done|].
  intros d Hd. rewrite <- (Hsc c Hc), <- (Hsc d Hd). apply Hmin. by apply list_elem_of_fmap_2.
Qed.

Lemma with_heap_id s h1 : with_heap (with_heap s h1) (heap s) = s.
Proof. by destruct s. Qed.

(** The body of [search] at a dead end: the scan finds a column of
    count 0, whose ring is empty; [cover] leaves the header alone in its
    ring, the row loop does not start, and [uncover] restores the
    matrix. *)
Lemma dead_end_step n k s R Lv V c :
  SInv s k R Lv V → c ∈ Lv → get_count (heap s) c = 0 → (length Lv + 29 <= n)%nat →
  ∃ c', choose n rootp (right_ (heap s) rootp) (right_ (heap s) rootp) (heap s)
          = Ok (PCol c') ∧
        c' ∈ Lv ∧ get_count (heap s) c' = 0 ∧
        cover n c' (heap s) = Ok (cover_result (heap s) V c') ∧
        down_ (cover_result (heap s) V c') (PCol c') = PCol c' ∧
        uncover n c' (cover_result (heap s) V c') = Ok (heap s) ∧
        ∀ rec, search_step rec n k s = Ok s.
Proof.
  intros HS Hc Hzero Hn.
  pose proof (si_inv _ _ _ _ _ HS) as HI.
  pose proof (inv_shape _ _ _ HI) as Hsh.
  pose proof (Inv_header_path _ _ _ HI) as Hpath.
  assert (Hne : Lv ≠ []) by (intros ->; by apply elem_of_nil in Hc).
  assert (Hr : right_ (heap s) rootp ≠ rootp).
  { destruct Lv; [done|]. simpl in Hpath. destruct Hpath as (-> & ? & _). done. }
  destruct (choose_least (heap s) Lv V n HI Hne ltac:(lia)) as (c' & Hch & Hc' & Hmin).
  pose proof (live_range _ _ _ HI c' Hc') as Hcr.
  (* the chosen column has no rows *)
  destruct (inv_vring _ _ _ HI c' Hc') as (_ & _ & _ & Hcount & _).
  assert (HV : V c' = []).
  { specialize (Hmin c Hc). apply nil_length_inv. lia. }
  assert (Hzero' : get_count (heap s) c' = 0) by (rewrite Hcount, HV; reflexivity).
  pose proof (cover_result_rows (heap s) Lv V c' HI Hc') as Hrows.
  rewrite HV in Hrows. simpl in Hrows.
  pose proof (cover_eq _ _ _ HI c' Hc' n ltac:(lia)) as Hcov.
  pose proof (uncover_eq _ _ _ HI c' Hc' n ltac:(lia)) as Hunc.
  exists c'. split; [exact Hch|]. split; [exact Hc'|]. split; [exact Hzero'|].
  split; [exact Hcov|]. split; [exact Hrows|]. split; [exact Hunc|].
  intros rec. unfold search_step.
  rewrite (si_root _ _ _ _ _ HS). change (PCol (column_size - 1)) with rootp.
  rewrite decide_False by done. rewrite Hch.
  change (Ok ?a ≫= ?f) with (f a). cbv beta.
  rewrite (sh_col_hdr _ Hsh c') by (consts; lia).
  rewrite Hcov.
  change (Ok ?a ≫= ?f) with (f a). cbv beta.
  rewrite Hrows.
  destruct n as [|n]; [lia|]. cbn [search_rows]. rewrite decide_True by done.
  change (Ok ?a ≫= ?f) with (f a). cbv beta. cbn [with_heap heap].
  rewrite col_cover_result, (sh_col_hdr _ Hsh c') by (consts; lia).
  rewrite Hunc.
  change (Ok ?a ≫= ?f) with (f a). cbv beta.
  f_equal. by destruct s.
Qed.

(** X6.  A dead end: when some live column has count 0 in a state that
    satisfies the invariant of the search, [search] chooses a column
    without rows, makes no iteration of the row loop, and returns the
    solver exactly as it was: nothing stored in the trace, nothing
    printed, the matrix restored. *)
Theorem search_dead_end n k s R Lv V c :
  SInv s k R Lv V → c ∈ Lv → get_count (heap s) c = 0 →
  (length Lv + 30 <= n)%nat →
  search n k s = Ok s.
Proof.
  intros HS Hc Hzero Hn. destruct n as [|n]; [lia|].
  destruct (dead_end_step n k s R Lv V c HS Hc Hzero ltac:(lia))
    as (c' & _ & _ & _ & _ & _ & _ & Hstep).
  rewrite search_unfold. apply Hstep.
Qed.

Lemma digits_dead_end_grid : digits_grid dead_end_grid.
Proof. apply (bool_decide_unpack _). vm_compute. exact I. Defined.

Lemma compatible_dead_end_grid : clues_compatible dead_end_grid.
Proof. apply (bool_decide_unpack _). vm_compute. exact I. Defined.

Lemma dead_end_count : get_count (heap dead_end_state) 8 = 0.
Proof. vm_compute. reflexivity. Qed.

Lemma dead_end_column : 8 ∉ clues dead_end_grid ≫= row_items.
Proof. apply (bool_decide_unpack _). vm_compute. exact I. Qed.

Lemma SInv_dead_end :
  ∃ Lv V, SInv dead_end_state 9 (clues dead_end_grid) Lv V.
Proof.
  destruct (place_clues_total 400 (clues dead_end_grid) (0, s0) [] _ _ SInv_s0)
    as (zs & Lv & V & Hpc & HS & _).
  - intros r Hr. exact (clues_range dead_end_grid r digits_dead_end_grid Hr).
  - exact compatible_dead_end_grid.
  - lia.
  - exists Lv, V.
    pose proof digits_dead_end_grid as [[Hlen Hlines] _].
    pose proof (load_grid_spec 400 dead_end_grid dead_end_grid 0 (0, s0)
                  ltac:(lia) eq_refl Hlines) as Hload.
    change (length dead_end_grid) with 9%nat in Hload.
    fold (clues dead_end_grid) in Hload. rewrite Hpc in Hload.
    assert (E : dead_end_state = zs.2) by (unfold dead_end_state; by rewrite Hload).
    rewrite E. pose proof (si_k _ _ _ _ _ HS) as Hk.
    change (Z.of_nat (length ([] ++ clues dead_end_grid))) with 9 in Hk.
    rewrite Hk in HS. exact HS.
Qed.

Lemma search_dead_end_witness :
  ∃ Lv V, SInv dead_end_state 9 (clues dead_end_grid) Lv V ∧ 8 ∈ Lv ∧
    get_count (heap dead_end_state) 8 = 0 ∧ (length Lv + 30 <= 354)%nat ∧
    search 354 9 dead_end_state = Ok dead_end_state.
Proof.
  destruct SInv_dead_end as (Lv & V & HS).
  assert (H8 : 8 ∈ Lv).
  { apply (si_live _ _ _ _ _ HS 8); [unfold constraints, grid_size; lia|].
    exact dead_end_column. }
  assert (Hn : (length Lv + 30 <= 354)%nat).
  { pose proof (Inv_live_length _ _ _ (si_inv _ _ _ _ _ HS)). lia. }
  exists Lv, V. split; [exact HS|]. split; [exact H8|]. split; [exact dead_end_count|].
  split; [exact Hn|].
  exact (search_dead_end 354 9 dead_end_state (clues dead_end_grid) Lv V 8 HS H8
           dead_end_count Hn).
Defined.

(** * Grids without solution *)

Lemma keeps_clues_at grid g i j :
  keeps_clues grid g → 0 <= i < 9 → 0 <= j < 9 → cell_at grid i j ≠ 0 →
  cell_at g i j = cell_at grid i j.
Proof.
  intros Hk Hi Hj. unfold keeps_clues in Hk. rewrite Forall_seqZ in Hk.
  specialize (Hk i ltac:(lia)). rewrite Forall_seqZ in Hk. apply Hk. lia.
Qed.

Lemma once_each_at l d : once_each l → 1 <= d <= 9 → length (filter (λ x, x = d) l) = 1%nat.
Proof. intros H Hd. unfold once_each in H. rewrite Forall_seqZ in H. apply H. lia. Qed.

Lemma unsatisfiable_dead_end_grid : unsatisfiable dead_end_grid.
Proof.
  intros g [_ Hv] Hk. rewrite Forall_seqZ in Hv.
  destruct (Hv 0 ltac:(lia)) as (Hrow & _ & _). destruct (Hv 8 ltac:(lia)) as (_ & Hcol & _).
  pose proof (once_each_at _ 9 Hrow ltac:(lia)) as H9r.
  pose proof (once_each_at _ 9 Hcol ltac:(lia)) as H9c.
  unfold grid_row in H9r. unfold grid_col in H9c.
  change (seqZ 0 9) with [0; 1; 2; 3; 4; 5; 6; 7; 8] in H9r, H9c.
  cbn [fmap list_fmap] in H9r, H9c.
  rewrite (keeps_clues_at dead_end_grid g 0 0 Hk), (keeps_clues_at dead_end_grid g 0 1 Hk),
    (keeps_clues_at dead_end_grid g 0 2 Hk), (keeps_clues_at dead_end_grid g 0 3 Hk),
    (keeps_clues_at dead_end_grid g 0 4 Hk), (keeps_clues_at dead_end_grid g 0 5 Hk),
    (keeps_clues_at dead_end_grid g 0 6 Hk), (keeps_clues_at dead_end_grid g 0 7 Hk)
    in H9r by first [lia | (vm_compute; intros ?; discriminate)].
  rewrite (keeps_clues_at dead_end_grid g 1 8 Hk) in H9c
    by first [lia | (vm_compute; intros ?; discriminate)].
  change (cell_at dead_end_grid 0 0) with 1 in H9r. change (cell_at dead_end_grid 0 1) with 2 in H9r.
  change (cell_at dead_end_grid 0 2) with 3 in H9r. change (cell_at dead_end_grid 0 3) with 4 in H9r.
  change (cell_at dead_end_grid 0 4) with 5 in H9r. change (cell_at dead_end_grid 0 5) with 6 in H9r.
  change (cell_at dead_end_grid 0 6) with 7 in H9r. change (cell_at dead_end_grid 0 7) with 8 in H9r.
  change (cell_at dead_end_grid 1 8) with 9 in H9c.
  rewrite !filter_cons_False in H9r by lia.
  destruct (decide (cell_at g 0 8 = 9)) as [E|E].
  - rewrite !filter_cons_True in H9c by done. cbn [length] in H9c. lia.
  - rewrite filter_cons_False in H9r by done. done.
Qed.

(** X7.  A grid of the input contract with compatible clues and without
    a solution: the run returns and has printed nothing. *)
Theorem no_solution_no_report fuel grid :
  digits_grid grid → clues_compatible grid → unsatisfiable grid → (354 <= fuel)%nat →
  run fuel grid = Ok [].
Proof.
  intros Hd Hc Hu Hfuel. unfold run. rewrite new_Sudoku_eq.
  change (Ok ?a ≫= ?f) with (f a). cbv beta.
  destruct (solve_total fuel grid Hd Hc Hfuel) as (s' & -> & _ & Hgood).
  change (Ok ?a ≫= ?f) with (f a). cbv beta. f_equal.
  destruct (out s') as [|g l]; [done|]. exfalso.
  destruct (proj1 (Hgood g) (list_elem_of_here _ _)) as [Hv Hk]. exact (Hu g Hv Hk).
Qed.

Lemma no_solution_no_report_witness :
  digits_grid dead_end_grid ∧ clues_compatible dead_end_grid ∧
  unsatisfiable dead_end_grid ∧ (354 <= 354)%nat ∧ run 354 dead_end_grid = Ok [].
Proof.
  split; [exact digits_dead_end_grid|]. split; [exact compatible_dead_end_grid|].
  split; [exact unsatisfiable_dead_end_grid|]. split; [lia|].
  apply (no_solution_no_report 354 dead_end_grid);
    [exact digits_dead_end_grid|exact compatible_dead_end_grid|
     exact unsatisfiable_dead_end_grid|lia].
Defined.

(** * What [loadGridAndSolve] reads *)

Lemma cover_clue_range fuel n gr k h h' :
  (0 < n)%nat → cover_clue fuel n gr k h = Ok h' → 0 <= gr < row_size.
Proof.
  intros Hn. destruct n as [|n]; [lia|]. cbn [cover_clue]. by case_decide.
Qed.

Lemma load_cell_reads fuel grid i j zs zs' :
  load_cell fuel grid i j zs = Ok zs' →
  ∃ v, grid_at grid i j = Ok v ∧ (v ≠ 0 → 0 <= 81 * i + 9 * j + v - 1 < row_size).
Proof.
  unfold load_cell. destruct (grid_at grid i j) as [v| |]; [|done..].
  change (Ok ?a ≫= ?f) with (f a). cbv beta. intros H. exists v. split; [done|].
  intros Hv. rewrite decide_True in H by done.
  destruct (cover_clue fuel (Z.to_nat cells_per_row) (81 * i + 9 * j + v - 1) 0 (heap zs.2))
    as [h| |] eqn:E; [|done..].
  apply (cover_clue_range fuel (Z.to_nat cells_per_row) _ 0 (heap zs.2) h); [consts; lia|exact E].
Qed.

Lemma load_line_reads fuel grid i n : ∀ j zs zs',
  load_line fuel n grid i j zs = Ok zs' →
  ∀ t, j <= t < j + Z.of_nat n →
    ∃ v, grid_at grid i t = Ok v ∧ (v ≠ 0 → 0 <= 81 * i + 9 * t + v - 1 < row_size).
Proof.
  induction n as [|n IH]; intros j zs zs' H t Ht; [lia|].
  cbn [load_line] in H.
  destruct (load_cell fuel grid i j zs) as [zs1| |] eqn:E; [|done..].
  change (Ok ?a ≫= ?f) with (f a) in H. cbv beta in H.
  destruct (decide (t = j)) as [->|Hne]; [by eapply load_cell_reads|].
  apply (IH _ _ _ H). lia.
Qed.

Lemma load_grid_reads fuel grid n : ∀ i zs zs',
  load_grid fuel n grid i zs = Ok zs' →
  ∀ u t, i <= u < i + Z.of_nat n → 0 <= t < 9 →
    ∃ v, grid_at grid u t = Ok v ∧ (v ≠ 0 → 0 <= 81 * u + 9 * t + v - 1 < row_size).
Proof.
  induction n as [|n IH]; intros i zs zs' H u t Hu Ht; [lia|].
  cbn [load_grid] in H.
  destruct (load_line fuel 9 grid i 0 zs) as [zs1| |] eqn:E; [|done..].
  change (Ok ?a ≫= ?f) with (f a) in H. cbv beta in H.
  destruct (decide (u = i)) as [->|Hne].
  - apply (load_line_reads _ _ _ _ _ _ _ E). lia.
  - apply (IH _ _ _ H); lia.
Qed.

Lemma main_result_Ok : match loadGridAndSolve 400 main_grid s0 with Ok _ => True | _ => False end.
Proof. vm_compute. exact I. Qed.

Lemma main_result_eq : loadGridAndSolve 400 main_grid s0 = Ok main_result.
Proof. unfold main_result. apply is_Ok_eq. exact main_result_Ok. Qed.

(** X9.  [loadGridAndSolve] reads [grid[i][j]] for all [i], [j] below 9
    and checks neither the size of the grid nor its numbers.  Whenever it
    returns, the grid had these 81 entries, and every entry is 0 or a
    number [v] whose candidate row [81 i + 9 j + v - 1] lies in the
    matrix; on any other grid the behaviour is undefined. *)
Theorem loadGridAndSolve_reads fuel grid s s' :
  loadGridAndSolve fuel grid s = Ok s' →
  ∀ i j, 0 <= i < 9 → 0 <= j < 9 →
    ∃ v, grid_at grid i j = Ok v ∧ (v ≠ 0 → 0 <= 81 * i + 9 * j + v - 1 < row_size).
Proof.
  unfold loadGridAndSolve. intros H i j Hi Hj.
  destruct (load_grid fuel 9 grid 0 (0, s)) as [zs| |] eqn:E; [|done..].
  apply (load_grid_reads _ _ _ _ _ _ E); lia.
Qed.

Lemma loadGridAndSolve_reads_witness :
  loadGridAndSolve 400 main_grid s0 = Ok main_result ∧
  ∀ i j, 0 <= i < 9 → 0 <= j < 9 →
    ∃ v, grid_at main_grid i j = Ok v ∧ (v ≠ 0 → 0 <= 81 * i + 9 * j + v - 1 < row_size).
Proof.
  split; [exact main_result_eq|].
  exact (loadGridAndSolve_reads 400 main_grid s0 main_result main_result_eq).
Defined.

Lemma grid_at_take grid i j :
  0 <= i < 9 → 0 <= j < 9 → grid_at (take 9 <$> take 9 grid) i j = grid_at grid i j.
Proof.
  intros Hi Hj. unfold grid_at.
  rewrite list_lookup_fmap, lookup_take_lt by lia.
  destruct (grid !! Z.to_nat i) as [line|]; [|done]. simpl.
  by rewrite lookup_take_lt by lia.
Qed.

Lemma load_line_ext fuel grid grid' i n : ∀ j zs,
  (∀ t, j <= t < j + Z.of_nat n → grid_at grid' i t = grid_at grid i t) →
  load_line fuel n grid' i j zs = load_line fuel n grid i j zs.
Proof.
  induction n as [|n IH]; intros j zs Hg; [done|].
  cbn [load_line]. unfold load_cell. rewrite Hg by lia.
  destruct (grid_at grid i j) as [v| |]; [|done..].
  change (Ok ?a ≫= ?f) with (f a). cbv beta.
  case_decide.
  - destruct (cover_clue _ _ _ _ _) as [h| |]; [|done..].
    change (Ok ?a ≫= ?f) with (f a). cbv beta.
    destruct (set_solution _ _ _) as [s1| |]; [|done..].
    change (Ok ?a ≫= ?f) with (f a). cbv beta. apply IH. intros; apply Hg; lia.
  - change (Ok ?a ≫= ?f) with (f a). cbv beta. apply IH. intros; apply Hg; lia.
Qed.

Lemma load_grid_ext fuel grid grid' n : ∀ i zs,
  (∀ u t, i <= u < i + Z.of_nat n → 0 <= t < 9 → grid_at grid' u t = grid_at grid u t) →
  load_grid fuel n grid' i zs = load_grid fuel n grid i zs.
Proof.
  induction n as [|n IH]; intros i zs Hg; [done|].
  cbn [load_grid]. rewrite (load_line_ext fuel grid grid' i 9 0 zs) by (intros; apply Hg; lia).
  destruct (load_line fuel 9 grid i 0 zs) as [zs1| |]; [|done..].
  change (Ok ?a ≫= ?f) with (f a). cbv beta. apply IH. intros; apply Hg; lia.
Qed.

(** X10.  [loadGridAndSolve] looks at nothing but the first nine numbers
    of the first nine lines of the grid: further lines and further
    numbers of a line change nothing. *)
Theorem loadGridAndSolve_nine_by_nine fuel grid s :
  loadGridAndSolve fuel (take 9 <$> take 9 grid) s = loadGridAndSolve fuel grid s.
Proof.
  unfold loadGridAndSolve.
  rewrite (load_grid_ext fuel grid (take 9 <$> take 9 grid) 9 0 (0, s)); [done|].
  intros u t Hu Ht. apply grid_at_take; lia.
Qed.

(** * Encoding and decoding of a grid, and what [cover] keeps *)

Lemma length_concat_lines {A} (g : list (list A)) n :
  Forall (λ line, length line = n) g → length (concat g) = (length g * n)%nat.
Proof.
  induction 1 as [|line g Hl _ IH]; [done|]. simpl. rewrite length_app, IH, Hl. done.
Qed.

Lemma elem_of_concat {A} (x : A) (g : list (list A)) :
  x ∈ concat g → ∃ line, x ∈ line ∧ line ∈ g.
Proof.
  induction g as [|line g IH]; simpl; [by intros ?%elem_of_nil|].
  intros [H|H]%elem_of_app.
  - exists line. split; [done|apply list_elem_of_here].
  - destruct (IH H) as (l & ? & ?). exists l. split; [done|by apply list_elem_of_further].
Qed.

Lemma cell_at_lookup (g : list (list Z)) i j line v :
  g !! i = Some line → line !! j = Some v → cell_at g (Z.of_nat i) (Z.of_nat j) = v.
Proof. intros Hi Hj. unfold cell_at. rewrite !Nat2Z.id, Hi. simpl. by rewrite Hj. Qed.

Lemma cell_at_Some (g : list (list Z)) i j :
  nine_by_nine g → 0 <= i < 9 → 0 <= j < 9 →
  ∃ line, g !! Z.to_nat i = Some line ∧ line !! Z.to_nat j = Some (cell_at g i j).
Proof.
  intros [Hlen Hlines] Hi Hj. rewrite Forall_forall in Hlines.
  destruct (lookup_lt_is_Some_2 g (Z.to_nat i)) as [line Hline]; [lia|].
  pose proof (Hlines line (list_elem_of_lookup_2 _ _ _ Hline)) as Hl9.
  destruct (lookup_lt_is_Some_2 line (Z.to_nat j)) as [v Hv]; [lia|].
  exists line. split; [done|]. unfold cell_at. rewrite Hline. simpl. by rewrite Hv.
Qed.

Lemma solution_solved_state : solution solved_state = Some <$> clues solved_grid.
Proof. vm_compute. reflexivity. Qed.

Lemma nine_solved_grid : nine_by_nine solved_grid.
Proof. apply (bool_decide_unpack _). vm_compute. exact I. Defined.

Lemma digits_solved_grid : Forall (Forall (λ v, 1 <= v <= 9)) solved_grid.
Proof. apply (bool_decide_unpack _). vm_compute. exact I. Defined.

(** X11.  Encoding and decoding agree: when the trace holds the indices
    [81 i + 9 j + v - 1] that [loadGridAndSolve] records for a full grid
    of digits, in the order of its two loops, [printSolution] prints this
    very grid. *)
Theorem print_round_trip s g :
  nine_by_nine g → Forall (Forall (λ v, 1 <= v <= 9)) g →
  solution s = Some <$> clues g →
  ∃ s', printSolution s = Ok s' ∧ out s' = out s ++ [g].
Proof.
  intros Hg Hd Hsol.
  assert (Hdg : digits_grid g).
  { split; [done|]. eapply Forall_impl; [exact Hd|]. intros line Hl.
    eapply Forall_impl; [exact Hl|]. intros v Hv. cbv beta in Hv. lia. }
  pose proof Hg as [Hlen Hlines].
  assert (Hcell : ∀ i j, 0 <= i < 9 → 0 <= j < 9 →
    1 <= cell_at g i j <= 9 ∧ 81 * i + 9 * j + cell_at g i j - 1 ∈ clues g).
  { intros i j Hi Hj. destruct (cell_at_Some g i j Hg Hi Hj) as (line & Hline & Hv).
    rewrite Forall_forall in Hd. pose proof (Hd line (list_elem_of_lookup_2 _ _ _ Hline)) as Hl.
    rewrite Forall_forall in Hl. pose proof (Hl _ (list_elem_of_lookup_2 _ _ _ Hv)) as Hr.
    split; [exact Hr|]. apply grid_clues_spec.
    exists (Z.to_nat i), (Z.to_nat j), line, (cell_at g i j).
    split; [done|]. split; [done|]. split; [lia|]. lia. }
  assert (Hn : length (clues g) = Z.to_nat grid_size).
  { unfold clues. rewrite grid_clues_length, filter_all.
    - rewrite (length_concat_lines g 9 Hlines), Hlen. done.
    - intros v Hv. apply elem_of_concat in Hv as (line & Hv & Hline).
      rewrite Forall_forall in Hd. pose proof (Hd line Hline) as Hl.
      rewrite Forall_forall in Hl. specialize (Hl v Hv). cbv beta in Hl. lia. }
  unfold printSolution. rewrite <- Hn.
  destruct (decode_loop_spec (solution s) (clues g) 0 (replicate 9 (replicate 9 None)))
    as (g1 & -> & Hg1 & Hget).
  { split; [done|]. by repeat constructor. }
  { done. }
  { intros t r Ht. rewrite Hsol, list_lookup_fmap. simpl. by rewrite Ht. }
  { intros r Hr. by apply (clues_range g). }
  change (Ok ?x ≫= ?f) with (f x). cbv beta.
  destruct (print_lines g1 (λ i j, cell_at g i j - 1) Hg1) as (lines & -> & H9 & Hval).
  { intros i j Hi Hj. destruct (Hcell i j Hi Hj) as [Hv Hr].
    rewrite (Hget i j None Hi Hj).
    - f_equal. apply cellval_spec.
      + right. exists (81 * i + 9 * j + cell_at g i j - 1). split; [done|].
        destruct (row_items_decode (81 * i + 9 * j + cell_at g i j - 1) ltac:(consts; lia))
          as (a & b & e & Ha & Hb & He & Hre & _ & (Q1 & Q2 & Q3) & _).
        rewrite Q1, Q2. lia.
      + intros r' Hr' E1 E2.
        pose proof (clues_range g r' Hdg Hr') as Hrange.
        apply grid_clues_spec in Hr' as (u & t & line & v & Hu & Ht & Hv0 & ->).
        pose proof (cell_at_lookup g u t line v Hu Ht) as Hc.
        pose proof (lookup_lt_Some _ _ _ Hu) as Hu9.
        rewrite Forall_forall in Hlines.
        pose proof (Hlines line (list_elem_of_lookup_2 _ _ _ Hu)) as Hl9.
        pose proof (lookup_lt_Some _ _ _ Ht) as Ht9.
        destruct (Hcell (Z.of_nat u) (Z.of_nat t) ltac:(lia) ltac:(lia)) as [Hv' _].
        rewrite Hc in Hv'.
        destruct (row_items_decode _ Hrange)
          as (a & b & e & Ha & Hb & He & Hre & _ & (Q1 & Q2 & Q3) & _).
        rewrite Q1 in E1. rewrite Q2 in E2. rewrite Q3.
        assert (Z.of_nat u = i ∧ Z.of_nat t = j ∧ e = v - 1) as (Eu & Et & ->) by lia.
        rewrite Eu, Et in Hc. lia.
    - rewrite lookup_replicate_2 by lia. change (Some ?x ≫= ?f) with (f x). cbv beta.
      by rewrite lookup_replicate_2 by lia. }
  change (Ok ?x ≫= ?f) with (f x). cbv beta.
  eexists. split; [done|]. cbn. f_equal. f_equal.
  apply grid_ext; [done..|]. intros i j Hi Hj. rewrite (Hval i j Hi Hj). lia.
Qed.

Lemma print_round_trip_witness :
  nine_by_nine solved_grid ∧ Forall (Forall (λ v, 1 <= v <= 9)) solved_grid ∧
  solution solved_state = Some <$> clues solved_grid ∧
  ∃ s', printSolution solved_state = Ok s' ∧ out s' = out solved_state ++ [solved_grid].
Proof.
  split; [exact nine_solved_grid|]. split; [exact digits_solved_grid|].
  split; [exact solution_solved_state|].
  exact (print_round_trip solved_state solved_grid nine_solved_grid digits_solved_grid
           solution_solved_state).
Defined.

(** X12.  The counts are kept in step with the rings: on every
    reachable matrix the count of a live column is the number of cells
    in its ring, at most nine; the cells of the ring are distinct cells
    of this column, and the other cells of their rows are in the rings of
    live columns. *)
Theorem reachable_counts h st c :
  reachable h st → live h c →
  get_count h c = Z.of_nat (length (col_cells h c)) ∧
  (length (col_cells h c) <= 9)%nat ∧ NoDup (col_cells h c) ∧
  ∀ x, x ∈ col_cells h c →
    is_cell x ∧ col_ h x = c ∧
    ∀ y, y ∈ mates x → live h (col_ h y) ∧ y ∈ col_cells h (col_ h y).
Proof.
  intros Hr Hl. destruct (reachable_Inv h st Hr) as (Lv & V & HI).
  apply (Inv_live h Lv V HI) in Hl. rewrite (Inv_col_cells h Lv V c HI Hl).
  destruct (inv_vring _ _ _ HI c Hl) as (_ & Hnd & Hcells & Hcount & Hlen).
  split; [done|]. split; [done|]. split; [done|].
  intros x Hx. destruct (Hcells x Hx) as [Hc Hcol]. split; [done|]. split; [done|].
  intros y Hy. destruct (inv_rows _ _ _ HI c x y Hl Hx Hy) as [Hly Hin].
  split; [by apply (Inv_live h Lv V HI)|]. by rewrite (Inv_col_cells h Lv V _ HI Hly).
Qed.

Lemma reachable_counts_witness :
  reachable h0 [] ∧ live h0 0 ∧
  get_count h0 0 = Z.of_nat (length (col_cells h0 0)) ∧
  (length (col_cells h0 0) <= 9)%nat ∧ NoDup (col_cells h0 0) ∧
  ∀ x, x ∈ col_cells h0 0 →
    is_cell x ∧ col_ h0 x = 0 ∧
    ∀ y, y ∈ mates x → live h0 (col_ h0 y) ∧ y ∈ col_cells h0 (col_ h0 y).
Proof.
  split; [constructor|]. split; [exact live_h0_0|].
  exact (reachable_counts h0 [] 0 reach_new live_h0_0).
Defined.

Lemma path_next_ne nxt L : ∀ a z x,
  path nxt a L z → NoDup L → x ∈ L → nxt x ≠ x.
Proof.
  induction L as [|y L IH]; intros a z x Hp Hnd Hx; [by apply elem_of_nil in Hx|].
  simpl in Hp. destruct Hp as (-> & Hyz & Hp). apply NoDup_cons in Hnd as [Hy Hnd].
  apply elem_of_cons in Hx as [->|Hx]; [|by apply (IH _ _ _ Hp)].
  destruct L as [|y' L]; simpl in Hp.
  - congruence.
  - destruct Hp as (-> & _). intros E. apply Hy. rewrite E. apply list_elem_of_here.
Qed.

(** X13.  What [cover] keeps: on a reachable matrix, [cover(c)] of a
    live column changes no [col] or [row] field, no [left] or [right]
    pointer of a cell, and nothing of the column [c] itself: the header
    keeps its [left] and [right] pointers, and the cells of the column
    and the header keep their [up] and [down] pointers.  This is what
    [uncover(c)] relies on. *)
Theorem cover_frame h st c n h' :
  reachable h st → live h c → cover n c h = Ok h' →
  (∀ x, col_ h' x = col_ h x ∧ row_ h' x = row_ h x) ∧
  (∀ x, is_cell x → left_ h' x = left_ h x ∧ right_ h' x = right_ h x) ∧
  left_ h' (PCol c) = left_ h (PCol c) ∧ right_ h' (PCol c) = right_ h (PCol c) ∧
  (∀ y, valid_ptr y → col_ h y = c → up_ h' y = up_ h y ∧ down_ h' y = down_ h y).
Proof.
  intros Hr Hl Hcov. destruct (reachable_Inv h st Hr) as (Lv & V & HI).
  apply (Inv_live h Lv V HI) in Hl.
  assert (E : h' = cover_result h V c).
  { pose proof (approx_Ok _ _ _ (cover_mono n (n + 14) c h ltac:(lia)) Hcov) as H1.
    rewrite (cover_eq h Lv V HI c Hl) in H1 by lia. congruence. }
  subst h'. unfold cover_result.
  destruct (unlink_all_static (targets V c) (unlink_header (PCol c) h))
    as (Hleft & Hright & Hcol & Hrow).
  pose proof (inv_shape _ _ _ HI) as Hsh.
  pose proof (live_range _ _ _ HI c Hl) as Hcr.
  destruct (sh_horiz h Hsh c ltac:(consts; lia)) as (l & r & Hcl & Hcr' & _ & _).
  destruct (header_neighbours h Lv V HI c Hl) as [Hn1 Hn2].
  assert (Hrne : right_ h (PCol c) ≠ PCol c).
  { apply (path_next_ne _ _ _ _ _ (Inv_header_path _ _ _ HI)).
    - apply NoDup_fmap_2_strong; [by intros ?? _ _ [= ->]|].
      by destruct (inv_hring _ _ _ HI) as (_ & ? & _).
    - by apply list_elem_of_fmap_2. }
  assert (Hlne : left_ h (PCol c) ≠ PCol c).
  { intros E. rewrite E in Hn2. done. }
  split; [intros x; by rewrite Hcol, Hrow, col_unlink_header, row_unlink_header|].
  split.
  { intros x Hx. rewrite Hleft, Hright, left_unlink_header, right_unlink_header.
    rewrite Hcl, Hcr'. destruct x; [done|]. by rewrite !decide_False by done. }
  split; [by rewrite Hleft, left_unlink_header, decide_False by done|].
  split; [by rewrite Hright, right_unlink_header, decide_False by done|].
  intros y Hy Hcy.
  destruct (unlink_all_frame c (targets V c) _ (shape_header h Lv V HI c Hl)
              (targets_frame h Lv V HI c Hl)) as [H _].
  destruct (H y Hy) as [-> ->]; [by rewrite col_unlink_header|].
  by rewrite up_unlink_header, down_unlink_header.
Qed.

Lemma cover_frame_eq : cover 14 0 h0 = Ok (cover_result h0 V0 0).
Proof.
  apply (cover_eq h0 _ V0 Inv_h0); [|lia]. apply elem_of_seqZ. unfold constraints, grid_size. lia.
Qed.

Lemma cover_frame_witness :
  reachable h0 [] ∧ live h0 0 ∧ cover 14 0 h0 = Ok (cover_result h0 V0 0) ∧
  (∀ x, col_ (cover_result h0 V0 0) x = col_ h0 x ∧ row_ (cover_result h0 V0 0) x = row_ h0 x) ∧
  (∀ x, is_cell x → left_ (cover_result h0 V0 0) x = left_ h0 x ∧
                    right_ (cover_result h0 V0 0) x = right_ h0 x) ∧
  left_ (cover_result h0 V0 0) (PCol 0) = left_ h0 (PCol 0) ∧
  right_ (cover_result h0 V0 0) (PCol 0) = right_ h0 (PCol 0) ∧
  (∀ y, valid_ptr y → col_ h0 y = 0 →
     up_ (cover_result h0 V0 0) y = up_ h0 y ∧ down_ (cover_result h0 V0 0) y = down_ h0 y).
Proof.
  split; [constructor|]. split; [exact live_h0_0|]. split; [exact cover_frame_eq|].
  exact (cover_frame h0 [] 0 14 (cover_result h0 V0 0) reach_new live_h0_0 cover_frame_eq).
Defined.

(** * The run of [main], a grid with conflicting clues, the constructor *)

Lemma run_main_400 : run 400 main_grid = Ok [solved_grid].
Proof. vm_compute. reflexivity. Qed.

Lemma run_from n m grid r :
  (n <= m)%nat → run n grid = r → r ≠ OutOfFuel → run m grid = r.
Proof.
  intros Hnm Hr Hne. destruct (run_mono n m grid Hnm) as [E|E]; congruence.
Qed.

Lemma run_out fuel grid s' :
  loadGridAndSolve fuel grid s0 = Ok s' → run fuel grid = Ok (out s').
Proof. intros H. unfold run. rewrite new_Sudoku_eq. simpl. by rewrite H. Qed.

(** X15.  The run of [main]: on the grid that [main] passes, the run
    prints one grid, [solved_grid], and returns; this grid is the only
    solved Sudoku that keeps the clues of the grid of [main]. *)
Theorem main_prints_the_solution fuel :
  (400 <= fuel)%nat →
  run fuel main_grid = Ok [solved_grid] ∧
  ∀ g, valid_sudoku g → keeps_clues main_grid g → g = solved_grid.
Proof.
  intros Hfuel.
  assert (Hrun : run fuel main_grid = Ok [solved_grid])
    by (apply (run_from 400 fuel); [exact Hfuel|exact run_main_400|discriminate]).
  split; [exact Hrun|]. intros g Hv Hk.
  destruct (solve_total fuel main_grid digits_main_grid compatible_main_grid ltac:(lia))
    as (s' & Hs & _ & Hout).
  pose proof (run_out fuel main_grid s' Hs) as Hrun'. rewrite Hrun in Hrun'.
  injection Hrun' as Hrun'.
  pose proof (proj2 (Hout g) (conj Hv Hk)) as Hin. rewrite <- Hrun' in Hin.
  exact (proj1 (list_elem_of_singleton _ _) Hin).
Qed.

Lemma main_prints_the_solution_witness :
  (400 <= 400)%nat ∧
  run 400 main_grid = Ok [solved_grid] ∧
  ∀ g, valid_sudoku g → keeps_clues main_grid g → g = solved_grid.
Proof.
  split; [lia|]. apply (main_prints_the_solution 400). lia.
Defined.

Lemma is_Ok_pair (r : res (Z * Sudoku)) (k : Z) (d : Sudoku) :
  match r with Ok zs => zs.1 = k | _ => False end →
  r = Ok (k, match r with Ok zs => zs.2 | _ => d end).
Proof. destruct r as [[k' s]| |]; [|contradiction..]. simpl. by intros ->. Qed.

Lemma is_Ok_ex {A} (r : res A) (P : A → Prop) :
  match r with Ok a => P a | _ => False end → ∃ a, r = Ok a ∧ P a.
Proof. destruct r as [a| |]; [|contradiction..]. intros H. by exists a. Qed.

Lemma overrun_loaded : load_grid 400 9 overrun_grid 0 (0, s0) = Ok (81, overrun_state).
Proof.
  unfold overrun_state. apply is_Ok_pair. vm_compute. reflexivity.
Qed.

Lemma overrun_ring : right_ (heap overrun_state) rootp ≠ rootp.
Proof. vm_compute. discriminate. Qed.

Lemma overrun_choose :
  choose 30 rootp (right_ (heap overrun_state) rootp) (right_ (heap overrun_state) rootp)
    (heap overrun_state) = Ok (PCol 238) ∧
  get_count (heap overrun_state) 238 = -5.
Proof. split; vm_compute; reflexivity. Qed.

Lemma overrun_cover :
  ∃ h1, cover 30 238 (heap overrun_state) = Ok h1 ∧ down_ h1 (PCol 238) = PCell 643 2.
Proof. apply is_Ok_ex. vm_compute. reflexivity. Qed.

Lemma overrun_run_20 : run 20 overrun_grid = Undef.
Proof. vm_compute. reflexivity. Qed.

(** X16.  The input contract does not keep [search] within the trace.
    [overrun_grid] is a grid of nine lines of nine digits, with a digit
    twice in a row.  Loading it records 81 clues and leaves a header ring
    that is not empty; [search(81)] chooses the column 238, whose count
    has become -5 and which has a row, and stores [solution[81]], one
    past the end of the trace: the run has no defined result. *)
Theorem conflicting_clues_overrun :
  digits_grid overrun_grid ∧
  load_grid 400 9 overrun_grid 0 (0, s0) = Ok (81, overrun_state) ∧
  right_ (heap overrun_state) rootp ≠ rootp ∧
  choose 30 rootp (right_ (heap overrun_state) rootp) (right_ (heap overrun_state) rootp)
    (heap overrun_state) = Ok (PCol 238) ∧
  get_count (heap overrun_state) 238 = -5 ∧
  (∃ h1, cover 30 238 (heap overrun_state) = Ok h1 ∧ down_ h1 (PCol 238) = PCell 643 2) ∧
  ∀ fuel, (20 <= fuel)%nat → run fuel overrun_grid = Undef.
Proof.
  split; [apply (bool_decide_unpack _); vm_compute; exact I|].
  split; [exact overrun_loaded|]. split; [exact overrun_ring|].
  split; [exact (proj1 overrun_choose)|]. split; [exact (proj2 overrun_choose)|].
  split; [exact overrun_cover|].
  intros fuel Hfuel. apply (run_from 20 fuel); [exact Hfuel|exact overrun_run_20|discriminate].
Qed.

(** X17.  The constructor returns: its 729 rows fit the arrays.  It sets
    the root to [columns[324]], leaves [row_count] at 729 and the trace
    unwritten, and links the headers 0 to 323 and the root, in this
    order, into one ring of [right] pointers that the [left] pointers
    mirror. *)
Theorem constructor_header_ring :
  new_Sudoku = Ok s0 ∧ root s0 = column_size - 1 ∧ row_count s0 = row_size ∧
  solution s0 = replicate (Z.to_nat grid_size) None ∧ out s0 = [] ∧
  chain (right_ (heap s0)) (left_ (heap s0)) rootp (PCol <$> seqZ 0 constraints) rootp ∧
  live_cols (heap s0) = PCol <$> seqZ 0 constraints.
Proof.
  destruct constructed_s0 as (Hroot & Hrc & Hsol & Hout & _ & _ & Hchain & _).
  split; [exact new_Sudoku_eq|]. split; [exact Hroot|]. split; [exact Hrc|].
  split; [exact Hsol|]. split; [exact Hout|]. split; [exact Hchain|].
  exact (Inv_live_cols h0 _ V0 Inv_h0).
Qed.

(** * The matrix after the clues have been loaded *)

(** In a state that satisfies the invariant of the search, the rows
    that are present are the rows that share no column with the chosen
    rows. *)
Lemma SInv_present s k R Lv V ρ κ :
  SInv s k R Lv V → 0 <= ρ < row_size → 0 <= κ < cells_per_row →
  (live (heap s) (col_ (heap s) (PCell ρ κ)) ∧
   PCell ρ κ ∈ col_cells (heap s) (col_ (heap s) (PCell ρ κ)))
  ↔ ∀ d, d ∈ row_items ρ → d ∉ R ≫= row_items.
Proof.
  intros HS Hρ Hκ. pose proof (si_inv _ _ _ _ _ HS) as HI.
  pose proof (inv_shape _ _ _ HI) as Hsh.
  destruct (row_items_ok ρ Hρ) as (_ & Hrange & _). rewrite Forall_forall in Hrange.
  pose proof (row_columns_perm (heap s) ρ κ Hsh Hρ Hκ) as Hperm.
  split.
  - intros [Hl Hin] d Hd. apply (Inv_live _ _ _ HI) in Hl.
    rewrite (Inv_col_cells _ _ _ _ HI Hl) in Hin.
    apply (si_live _ _ _ _ _ HS d (Hrange d Hd)).
    rewrite <- Hperm in Hd. apply elem_of_cons in Hd as [->|Hd]; [done|].
    apply list_elem_of_fmap in Hd as (y & -> & Hy).
    by destruct (inv_rows _ _ _ HI _ _ y Hl Hin Hy).
  - intros Hfree.
    assert (Hall : ∀ d, d ∈ row_items ρ → d ∈ Lv).
    { intros d Hd. apply (si_live _ _ _ _ _ HS d (Hrange d Hd)). by apply Hfree. }
    assert (Hl : col_ (heap s) (PCell ρ κ) ∈ Lv).
    { apply Hall. rewrite <- Hperm. apply list_elem_of_here. }
    split; [by apply (Inv_live _ _ _ HI)|].
    rewrite (Inv_col_cells _ _ _ _ HI Hl). by apply (si_avail _ _ _ _ _ HS).
Qed.

(** * Reporting a solution and going on *)

(** The header ring is empty when no column is live, and only then. *)
Lemma SInv_empty_ring s k R Lv V :
  SInv s k R Lv V → right_ (heap s) (PCol (root s)) = PCol (root s) → Lv = [].
Proof.
  intros HS Hr. rewrite (si_root _ _ _ _ _ HS) in Hr.
  change (PCol (column_size - 1)) with rootp in Hr.
  pose proof (Inv_header_path _ _ _ (si_inv _ _ _ _ _ HS)) as Hpath.
  destruct Lv as [|c Lv]; [reflexivity|].
  simpl in Hpath. destruct Hpath as (E & Hne & _). rewrite Hr in E. congruence.
Qed.

(** With no live column the trace is full: 81 rows. *)
Lemma SInv_full s k R V : SInv s k R [] V → length R = 81%nat ∧ k = 81.
Proof.
  intros HS. pose proof (SInv_count _ _ _ _ _ HS) as Hc. simpl in Hc.
  pose proof (si_k _ _ _ _ _ HS) as Hk. lia.
Qed.

(** ** What [printSolution] prints, in any state *)

Lemma decode_loop_inv sol : ∀ n k g g',
  grid9 g → 0 <= k → decode_loop n k sol g = Ok g' →
  ∃ L, length L = n ∧
    (∀ t r, L !! t = Some r → sol !! (Z.to_nat k + t)%nat = Some (Some r)) ∧
    grid9 g' ∧
    ∀ i j acc, 0 <= i < 9 → 0 <= j < 9 →
      g !! Z.to_nat i ≫= (λ line, line !! Z.to_nat j) = Some acc →
      g' !! Z.to_nat i ≫= (λ line, line !! Z.to_nat j) = Some (cellval L acc i j).
Proof.
  induction n as [|n IH]; intros k g g' Hg Hk H.
  - injection H as <-. exists []. split; [reflexivity|]. split.
    + intros t r Ht. rewrite lookup_nil in Ht. discriminate Ht.
    + split; [exact Hg|]. intros i j acc _ _ Hget. exact Hget.
  - cbn [decode_loop] in H.
    destruct (sol !! Z.to_nat k) as [[r|]|] eqn:Hr; [|discriminate H..].
    apply bind_Ok in H as (g1 & Hw & H).
    assert (Hrc : 0 <= r `quot` 81 < 9 ∧ 0 <= (r `quot` 9) `rem` 9 < 9).
    { unfold grid_write in Hw. case_decide; [assumption|discriminate Hw]. }
    destruct (grid_write_spec g _ _ (r `rem` 9) Hg (proj1 Hrc) (proj2 Hrc))
      as (g1' & Hw' & Hg1 & Hget1).
    rewrite Hw in Hw'. injection Hw' as <-.
    destruct (IH (k + 1) g1 g' Hg1 ltac:(lia) H) as (L & HlenL & Hsol & Hg' & Hget).
    exists (r :: L). split; [cbn [length]; by rewrite HlenL|]. split; [|split].
    + intros [|t] r' Ht; cbn in Ht.
      * injection Ht as <-. by rewrite Nat.add_0_r.
      * replace (Z.to_nat k + S t)%nat with (Z.to_nat (k + 1) + t)%nat by lia.
        by apply Hsol.
    + exact Hg'.
    + intros i j acc Hi Hj Hacc. cbn [cellval]. apply Hget; [done..|].
      by apply Hget1.
Qed.

Lemma mapM_inv {A B} (f : A → res B) (l : list A) : ∀ l',
  mapM f l = Ok l' →
  length l' = length l ∧ ∀ i x, l !! i = Some x → ∃ y, l' !! i = Some y ∧ f x = Ok y.
Proof.
  induction l as [|x l IH]; intros l' H.
  - injection H as <-. split; [reflexivity|]. intros i x Hi. rewrite lookup_nil in Hi.
    discriminate Hi.
  - cbn [mapM] in H. apply bind_Ok in H as (y & Hy & H).
    apply bind_Ok in H as (ys & Hys & H). injection H as <-.
    destruct (IH ys Hys) as [Hlen Hget]. split; [cbn [length]; by rewrite Hlen|].
    intros [|i] x' Hi; cbn in Hi |- *.
    + injection Hi as <-. by exists y.
    + by apply Hget.
Qed.

(** When [printSolution] returns, the 81 entries of the trace were
    written, and it has added one grid to the output and changed nothing
    else: the grid whose cell [(i, j)] holds the digit of the last entry
    of the trace that decodes to this cell. *)
Lemma printSolution_decodes s s' :
  printSolution s = Ok s' →
  heap s' = heap s ∧ solution s' = solution s ∧ root s' = root s ∧
  row_count s' = row_count s ∧
  ∃ L g, length L = 81%nat ∧
    (∀ t r, L !! t = Some r → solution s !! t = Some (Some r)) ∧
    out s' = out s ++ [g] ∧ nine_by_nine g ∧
    ∀ i j, 0 <= i < 9 → 0 <= j < 9 →
      ∃ v, cellval L None i j = Some v ∧ cell_at g i j = v + 1.
Proof.
  unfold printSolution. intros H.
  apply bind_Ok in H as (g1 & Hdec & H). apply bind_Ok in H as (lines & Hmap & H).
  injection H as <-. cbn [heap solution root row_count out].
  split; [reflexivity|]. split; [reflexivity|]. split; [reflexivity|].
  split; [reflexivity|].
  destruct (decode_loop_inv (solution s) (Z.to_nat grid_size) 0
              (replicate 9 (replicate 9 None)) g1)
    as (L & HlenL & Hsol & [Hg9 Hgl] & Hget);
    [split; [reflexivity|by repeat constructor]|lia|exact Hdec|].
  change (Z.to_nat grid_size) with 81%nat in HlenL.
  destruct (mapM_inv _ _ _ Hmap) as [Hlen Hlines].
  rewrite Forall_forall in Hgl.
  (* the lines *)
  assert (Hline : ∀ i, 0 <= i < 9 →
    ∃ line line', g1 !! Z.to_nat i = Some line ∧ lines !! Z.to_nat i = Some line' ∧
      length line' = 9%nat ∧
      ∀ j, 0 <= j < 9 → ∃ v, cellval L None i j = Some v ∧
                             line' !! Z.to_nat j = Some (v + 1)).
  { intros i Hi.
    destruct (lookup_lt_is_Some_2 g1 (Z.to_nat i)) as [line Hgi]; [lia|].
    destruct (Hlines _ _ Hgi) as (line' & Hli & Hm).
    destruct (mapM_inv _ _ _ Hm) as [Hlen' Hcells].
    pose proof (Hgl line (list_elem_of_lookup_2 _ _ _ Hgi)) as Hl9.
    exists line, line'. split; [exact Hgi|]. split; [exact Hli|]. split; [lia|].
    intros j Hj.
    destruct (lookup_lt_is_Some_2 line (Z.to_nat j)) as [x Hx]; [lia|].
    destruct (Hcells _ _ Hx) as (y & Hy & Hp).
    assert (Hnone : replicate 9 (replicate 9 (@None Z)) !! Z.to_nat i
                      ≫= (λ line, line !! Z.to_nat j) = Some None).
    { rewrite lookup_replicate_2 by lia. change (Some ?a ≫= ?f) with (f a). cbv beta.
      by rewrite lookup_replicate_2 by lia. }
    pose proof (Hget i j None Hi Hj Hnone) as Hc.
    rewrite Hgi in Hc. change (Some ?a ≫= ?f) with (f a) in Hc. cbv beta in Hc.
    rewrite Hx in Hc. injection Hc as ->.
    destruct (cellval L None i j) as [v|]; [|discriminate Hp].
    injection Hp as <-. by exists v. }
  exists L, lines. split; [exact HlenL|]. split.
  { intros t r Ht. exact (Hsol t r Ht). }
  split; [reflexivity|]. split.
  - split; [lia|]. apply Forall_forall. intros line' Hin.
    apply list_elem_of_lookup in Hin as [i Hi].
    pose proof (lookup_lt_Some _ _ _ Hi) as Hlt.
    destruct (Hline (Z.of_nat i) ltac:(lia)) as (line & line'' & _ & Hli & Hl9 & _).
    rewrite Nat2Z.id, Hi in Hli. by injection Hli as <-.
  - intros i j Hi Hj.
    destruct (Hline i Hi) as (line & line' & _ & Hli & _ & Hcells).
    destruct (Hcells j Hj) as (v & Hv & Hj').
    exists v. split; [exact Hv|]. unfold cell_at. rewrite Hli. cbn. by rewrite Hj'.
Qed.

(** C2, amended.  In a state of the search (one that satisfies the
    invariant [SInv], as every state does that is reached on a grid with
    compatible clues), a call [search(k)] returns, with the matrix, the
    root and the first [k] entries of the trace as it found them.  When
    it is entered with [root->right == root], the depth is 81 and the call
    reports one grid and leaves the whole trace alone: the grid decoded
    from the 81 entries of the trace, in which every entry is placed and
    every cell of which comes from an entry.  This ends that call only.
    The callers resume their row loops: whatever the state, the call
    returns only after it has reported every solved Sudoku in which the
    rows chosen so far are placed, each of them once, so the search goes
    on after a report and reports every solution.  In any state at all
    with [root->right == root], a call is the call of [printSolution] and
    nothing more; when it returns, the 81 entries of the trace were
    written, one grid has been added to the output, whose cells hold the
    digits of the entries that decode to them, and the matrix and the
    trace are unchanged. *)
Theorem search_reports_and_returns n k s R Lv V :
  SInv s k R Lv V → (length Lv + 30 <= n)%nat →
  ∃ s', search n k s = Ok s' ∧
    heap s' = heap s ∧ root s' = root s ∧
    (∀ t, (t < Z.to_nat k)%nat → solution s' !! t = solution s !! t) ∧
    (right_ (heap s) (PCol (root s)) = PCol (root s) →
       k = grid_size ∧ solution s' = solution s ∧
       ∃ g, out s' = out s ++ [g] ∧ nine_by_nine g ∧
         (∀ t r, (t < 81)%nat → solution s !! t = Some (Some r) → placed g r) ∧
         (∀ i j, 0 <= i < 9 → 0 <= j < 9 →
            ∃ t r, (t < 81)%nat ∧ solution s !! t = Some (Some r) ∧
                   r / 81 = i ∧ (r / 9) mod 9 = j)) ∧
    (∃ new, out s' = out s ++ new ∧ NoDup new ∧
       ∀ g, g ∈ new ↔ valid_sudoku g ∧ ∀ r, r ∈ R → placed g r) ∧
    ∀ m d sx, right_ (heap sx) (PCol (root sx)) = PCol (root sx) →
      search (S m) d sx = printSolution sx ∧
      ∀ sx', printSolution sx = Ok sx' →
        heap sx' = heap sx ∧ solution sx' = solution sx ∧ root sx' = root sx ∧
        row_count sx' = row_count sx ∧
        ∃ L g, length L = 81%nat ∧
          (∀ t r, L !! t = Some r → solution sx !! t = Some (Some r)) ∧
          out sx' = out sx ++ [g] ∧ nine_by_nine g ∧
          ∀ i j, 0 <= i < 9 → 0 <= j < 9 →
            ∃ v, cellval L None i j = Some v ∧ cell_at g i j = v + 1.
Proof.
  intros HS Hn.
  destruct (search_total print_total n k s R Lv V HS Hn)
    as (s' & Hs & Hh & Hr & _ & _ & Hsol & new & Hout & Hnd & Hnew).
  exists s'. split; [exact Hs|]. split; [exact Hh|]. split; [exact Hr|].
  split; [exact Hsol|]. split.
  - intros Hempty. pose proof (SInv_empty_ring _ _ _ _ _ HS Hempty) as ->.
    destruct (SInv_full _ _ _ _ HS) as [HlenR Hk].
    destruct n as [|n]; [lia|]. cbn [search] in Hs.
    rewrite decide_True in Hs by exact Hempty.
    destruct (print_decodes s k R V HS) as (lines & Hp & Hv & Hpl & Hcells & _).
    rewrite Hp in Hs. injection Hs as <-. cbn [solution out].
    split; [exact Hk|]. split; [reflexivity|].
    exists lines. split; [reflexivity|]. split; [exact (proj1 Hv)|]. split.
    + intros t r Ht Hget.
      destruct (lookup_lt_is_Some_2 R t) as [r0 Hr0]; [lia|].
      pose proof (si_trace _ _ _ _ _ HS t r0 Hr0) as Hget0.
      rewrite Hget0 in Hget. injection Hget as <-.
      apply Hpl. by eapply list_elem_of_lookup_2.
    + intros i j Hi Hj. destruct (Hcells i j Hi Hj) as (e & He & Hin).
      apply list_elem_of_lookup in Hin as [t Ht].
      exists t, (81 * i + 9 * j + e).
      split; [apply lookup_lt_Some in Ht; lia|].
      split; [exact (si_trace _ _ _ _ _ HS t _ Ht)|].
      split; Z.div_mod_to_equations; lia.
  - split; [exists new; split; [exact Hout|]; split; [exact Hnd|exact Hnew]|].
    intros m d sx Hempty. split.
    + cbn [search]. by rewrite decide_True by exact Hempty.
    + intros sx' Hp. exact (printSolution_decodes sx sx' Hp).
Qed.

Lemma compatible_solved_grid : clues_compatible solved_grid.
Proof. apply (bool_decide_unpack _). vm_compute. exact I. Defined.

Lemma contract_solved_grid : digits_grid solved_grid.
Proof. apply (bool_decide_unpack _). vm_compute. exact I. Defined.

(** The state in which the clues of [solved_grid] are loaded satisfies
    the invariant, at depth 81. *)
Lemma SInv_solved : ∃ Lv V, SInv solved_state 81 (clues solved_grid) Lv V.
Proof.
  destruct (place_clues_total 400 (clues solved_grid) (0, s0) [] _ _ SInv_s0)
    as (zs & Lv & V & Hpc & HS & _).
  - intros r Hr. exact (clues_range solved_grid r contract_solved_grid Hr).
  - exact compatible_solved_grid.
  - lia.
  - exists Lv, V.
    pose proof contract_solved_grid as [[Hlen Hlines] _].
    pose proof (load_grid_spec 400 solved_grid solved_grid 0 (0, s0)
                  ltac:(lia) eq_refl Hlines) as Hload.
    change (length solved_grid) with 9%nat in Hload.
    fold (clues solved_grid) in Hload. rewrite Hpc in Hload.
    assert (E : solved_state = zs.2) by (unfold solved_state; by rewrite Hload).
    rewrite E. pose proof (si_k _ _ _ _ _ HS) as Hk.
    change (Z.of_nat (length ([] ++ clues solved_grid))) with 81 in Hk.
    rewrite Hk in HS. exact HS.
Qed.

Lemma search_reports_and_returns_witness :
  right_ (heap solved_state) (PCol (root solved_state)) = PCol (root solved_state) ∧
  ∃ Lv V, SInv solved_state 81 (clues solved_grid) Lv V ∧ (length Lv + 30 <= 354)%nat ∧
  ∃ s', search 354 81 solved_state = Ok s' ∧
    heap s' = heap solved_state ∧ root s' = root solved_state ∧
    (∀ t, (t < Z.to_nat 81)%nat → solution s' !! t = solution solved_state !! t) ∧
    (right_ (heap solved_state) (PCol (root solved_state)) = PCol (root solved_state) →
       81 = grid_size ∧ solution s' = solution solved_state ∧
       ∃ g, out s' = out solved_state ++ [g] ∧ nine_by_nine g ∧
         (∀ t r, (t < 81)%nat → solution solved_state !! t = Some (Some r) → placed g r) ∧
         (∀ i j, 0 <= i < 9 → 0 <= j < 9 →
            ∃ t r, (t < 81)%nat ∧ solution solved_state !! t = Some (Some r) ∧
                   r / 81 = i ∧ (r / 9) mod 9 = j)) ∧
    (∃ new, out s' = out solved_state ++ new ∧ NoDup new ∧
       ∀ g, g ∈ new ↔ valid_sudoku g ∧ ∀ r, r ∈ clues solved_grid → placed g r) ∧
    ∀ m d sx, right_ (heap sx) (PCol (root sx)) = PCol (root sx) →
      search (S m) d sx = printSolution sx ∧
      ∀ sx', printSolution sx = Ok sx' →
        heap sx' = heap sx ∧ solution sx' = solution sx ∧ root sx' = root sx ∧
        row_count sx' = row_count sx ∧
        ∃ L g, length L = 81%nat ∧
          (∀ t r, L !! t = Some r → solution sx !! t = Some (Some r)) ∧
          out sx' = out sx ++ [g] ∧ nine_by_nine g ∧
          ∀ i j, 0 <= i < 9 → 0 <= j < 9 →
            ∃ v, cellval L None i j = Some v ∧ cell_at g i j = v + 1.
Proof.
  destruct SInv_solved as (Lv & V & HS).
  assert (Hn : (length Lv + 30 <= 354)%nat).
  { pose proof (Inv_live_length _ _ _ (si_inv _ _ _ _ _ HS)). lia. }
  split; [exact solved_state_empty|].
  exists Lv, V. split; [exact HS|]. split; [exact Hn|].
  exact (search_reports_and_returns 354 81 solved_state (clues solved_grid) Lv V HS Hn).
Defined.

(** * Loading the clues of any grid *)

(** ** [cover] in a matrix whose rings are out of step

    When two clues share a constraint, [loadGridAndSolve] covers a
    column that is covered already.  The matrix then no longer
    satisfies [Inv], but its rings still run through the rows in
    increasing order, and this is enough for the loops of [cover] to
    come back to the header. *)

Lemma cell_place x : is_cell x → below x = above x.
Proof. by destruct x. Qed.

Lemma ordered_h0 : ordered h0.
Proof.
  assert (H : Forall (ordered_at h0) all_ptrs).
  { apply (bool_decide_unpack _). vm_compute. exact I. }
  rewrite Forall_forall in H. intros x Hx. apply H; [|exact Hx].
  apply valid_all_ptrs. by apply is_cell_valid.
Qed.

Lemma ordered_unlink_cell h j : ordered h → is_cell j → ordered (unlink_cell j h).
Proof.
  intros Ho Hj x Hx. destruct (Ho x Hx) as [Hd Hu]. destruct (Ho j Hj) as [Hdj Huj].
  rewrite up_unlink_cell, down_unlink_cell.
  pose proof (cell_place j Hj) as Ej. pose proof (cell_place x Hx) as Ex.
  split; case_decide; subst; lia.
Qed.

Lemma ordered_unlink_all T : ∀ h,
  ordered h → (∀ t, t ∈ T → is_cell t) → ordered (unlink_all T h).
Proof.
  induction T as [|t T IH]; intros h Ho HT; [done|].
  rewrite unlink_all_cons. apply IH.
  - apply ordered_unlink_cell; [done|]. apply HT, list_elem_of_here.
  - intros t' Ht'. by apply HT, list_elem_of_further.
Qed.

Lemma ordered_unlink_header h c : ordered h → ordered (unlink_header c h).
Proof.
  intros Ho x Hx. rewrite up_unlink_header, down_unlink_header. by apply Ho.
Qed.

(** From a node of column [c] the [down] pointers lead to the header of
    [c], through cells of [c] in the order of their rows. *)
Lemma ring_from h c :
  shape h → ordered h → 0 <= c < column_size →
  ∀ n i, valid_ptr i → col_ h i = c → row_size - below i <= Z.of_nat n →
  ∃ I, path (down_ h) i I (PCol c) ∧ NoDup I ∧
       ∀ x, x ∈ I → is_cell x ∧ col_ h x = c ∧ below i <= below x.
Proof.
  intros Hs Ho Hc n. induction n as [|n IH]; intros i Hv Hcol Hn.
  - destruct i as [c'|r k]; [|simpl in Hn, Hv; consts; lia].
    exists []. rewrite (sh_col_hdr h Hs c' Hv) in Hcol. subst c'.
    split; [reflexivity|]. split; [apply NoDup_nil_2|]. intros x Hx. inversion Hx.
  - destruct i as [c'|r k].
    + exists []. rewrite (sh_col_hdr h Hs c' Hv) in Hcol. subst c'.
      split; [reflexivity|]. split; [apply NoDup_nil_2|]. intros x Hx. inversion Hx.
    + destruct (Ho (PCell r k) Hv) as [Hd _]. cbn [below] in Hd, Hn.
      destruct (IH (down_ h (PCell r k))) as (I & Hp & Hnd & HI).
      * by apply valid_down.
      * rewrite col_down; done.
      * lia.
      * exists (PCell r k :: I). split; [|split].
        -- cbn [path]. split; [reflexivity|]. split; [discriminate|exact Hp].
        -- apply NoDup_cons. split; [|exact Hnd]. intros Hin.
           destruct (HI _ Hin) as (_ & _ & Hle). cbn [below] in Hle. lia.
        -- intros x Hx. apply elem_of_cons in Hx as [->|Hx].
           ++ split; [exact Hv|]. split; [exact Hcol|]. lia.
           ++ destruct (HI x Hx) as (H1 & H2 & H3). split; [exact H1|].
              split; [exact H2|]. cbn [below]. lia.
Qed.

Lemma shape_col_eq h h' x : shape h → shape h' → is_cell x → col_ h' x = col_ h x.
Proof.
  intros Hs Hs' Hx. destruct x as [|r k]; [done|]. destruct Hx as [Hr Hk].
  pose proof (sh_col_cell h Hs r k Hr Hk) as E1.
  pose proof (sh_col_cell h' Hs' r k Hr Hk) as E2.
  rewrite E1 in E2. by injection E2.
Qed.

(** The cells of a column are the nine cells that the constructor has
    put there. *)
Lemma column_cell_V0 h x : shape h → is_cell x → x ∈ V0 (col_ h x).
Proof.
  intros Hs Hx. rewrite (shape_col_eq h0 h x shape_h0 Hs Hx).
  destruct x as [|r k]; [done|]. destruct Hx as [Hr Hk].
  assert (Hall : ∀ d, d ∈ row_items r → d ∈ seqZ 0 constraints).
  { intros d Hd.
    destruct (row_items_ok r Hr) as (_ & Hrange & _). rewrite Forall_forall in Hrange.
    apply elem_of_seqZ. specialize (Hrange d Hd). lia. }
  exact (avail_h0 r k Hr Hk Hall).
Qed.

Lemma weak_ring h c :
  shape h → ordered h → 0 <= c < constraints →
  ∃ I, path (down_ h) (down_ h (PCol c)) I (PCol c) ∧
       (∀ x, x ∈ I → is_cell x ∧ col_ h x = c) ∧ (length I <= 9)%nat.
Proof.
  intros Hs Ho Hc.
  assert (Hcc : 0 <= c < column_size) by (consts; lia).
  assert (Hv : valid_ptr (down_ h (PCol c))) by (by apply valid_down).
  destruct (ring_from h c Hs Ho Hcc 730 (down_ h (PCol c)) Hv) as (I & Hp & Hnd & HI).
  - rewrite col_down by done. by apply sh_col_hdr.
  - destruct (down_ h (PCol c)) as [c'|r k]; cbn [below]; simpl in Hv; consts; lia.
  - exists I. split; [exact Hp|]. split; [intros x Hx; destruct (HI x Hx); tauto|].
    rewrite <- (V0_length c Hc). apply submseteq_length, NoDup_submseteq; [exact Hnd|].
    intros x Hx. destruct (HI x Hx) as (H1 & <- & _). by apply column_cell_V0.
Qed.

(** [cover] returns for every constraint column, covered or not. *)
Lemma cover_weak h c n :
  shape h → ordered h → 0 <= c < constraints → (14 <= n)%nat →
  ∃ h', cover n c h = Ok h' ∧ shape h' ∧ ordered h'.
Proof.
  intros Hs Ho Hc Hn.
  assert (Hcc : 0 <= c < column_size) by (consts; lia).
  pose proof (shape_unlink_header h Hs c Hcc) as Hs1.
  pose proof (ordered_unlink_header h (PCol c) Ho) as Ho1.
  destruct (weak_ring _ c Hs1 Ho1 Hc) as (I & Hp & HI & Hlen).
  assert (Hm : ∀ t, t ∈ I ≫= mates → is_cell t).
  { intros t Ht. apply list_elem_of_bind in Ht as (x & Ht & Hx).
    destruct (HI x Hx) as [Hcx _]. by eapply mates_is_cell. }
  exists (unlink_all (I ≫= mates) (unlink_header (PCol c) h)). split; [|split].
  - unfold cover. apply cover_col_spec; [exact Hs1|exact Hcc|exact Hp|exact HI|lia].
  - by apply shape_unlink_all.
  - by apply ordered_unlink_all.
Qed.

Lemma cover_list_app fuel cs1 cs2 h :
  cover_list fuel (cs1 ++ cs2) h = cover_list fuel cs1 h ≫= cover_list fuel cs2.
Proof.
  revert h. induction cs1 as [|c cs1 IH]; intros h; [reflexivity|].
  cbn [app cover_list]. destruct (cover fuel c h) as [h1| |]; [|reflexivity..].
  change (Ok h1 ≫= ?f) with (f h1). cbv beta. apply IH.
Qed.

(** The four covers for one clue. *)
Lemma cover_four_weak fuel gr h :
  shape h → ordered h → 0 <= gr < row_size → (14 <= fuel)%nat →
  ∃ h', cover_four fuel gr h = Ok h' ∧ cover_list fuel (row_items gr) h = Ok h' ∧
        shape h' ∧ ordered h'.
Proof.
  intros Hs Ho Hgr Hfuel.
  destruct (row_items_ok gr Hgr) as (_ & Hrange & _).
  rewrite (row_items_columns h gr Hs Hgr) in Hrange |- *.
  unfold row_columns in Hrange |- *.
  change (seqZ 0 cells_per_row) with [0; 1; 2; 3] in Hrange |- *.
  cbn [fmap list_fmap] in Hrange |- *.
  apply Forall_cons in Hrange as [R0 Hrange]. apply Forall_cons in Hrange as [R1 Hrange].
  apply Forall_cons in Hrange as [R2 Hrange]. apply Forall_cons in Hrange as [R3 _].
  assert (C0 : is_cell (PCell gr 0)) by (split; [done|consts; lia]).
  assert (C1 : is_cell (PCell gr 1)) by (split; [done|consts; lia]).
  assert (C2 : is_cell (PCell gr 2)) by (split; [done|consts; lia]).
  assert (C3 : is_cell (PCell gr 3)) by (split; [done|consts; lia]).
  unfold cover_four. rewrite decide_True by done. cbn [cover_list].
  destruct (cover_weak h _ fuel Hs Ho R0 Hfuel) as (h1 & -> & Hs1 & Ho1).
  change (Ok h1 ≫= ?f) with (f h1). cbv beta.
  rewrite (shape_col_eq h h1 _ Hs Hs1 C1).
  destruct (cover_weak h1 _ fuel Hs1 Ho1 R1 Hfuel) as (h2 & -> & Hs2 & Ho2).
  change (Ok h2 ≫= ?f) with (f h2). cbv beta.
  rewrite (shape_col_eq h h2 _ Hs Hs2 C2).
  destruct (cover_weak h2 _ fuel Hs2 Ho2 R2 Hfuel) as (h3 & -> & Hs3 & Ho3).
  change (Ok h3 ≫= ?f) with (f h3). cbv beta.
  rewrite (shape_col_eq h h3 _ Hs Hs3 C3).
  destruct (cover_weak h3 _ fuel Hs3 Ho3 R3 Hfuel) as (h4 & -> & Hs4 & Ho4).
  exists h4. done.
Qed.

(** The clues of a list, one after the other: the loops return for any
    rows of the matrix, as long as the trace has room. *)
Lemma place_clues_weak fuel l : ∀ zs,
  shape (heap zs.2) → ordered (heap zs.2) → (∀ r, r ∈ l → 0 <= r < row_size) →
  0 <= zs.1 → zs.1 + Z.of_nat (length l) <= grid_size → (14 <= fuel)%nat →
  ∃ zs', place_clues fuel l zs = Ok zs' ∧
    cover_list fuel (l ≫= row_items) (heap zs.2) = Ok (heap zs'.2) ∧
    row_count zs'.2 = row_count zs.2 ∧
    ∀ t, (Z.to_nat zs.1 + length l <= t)%nat → solution zs'.2 !! t = solution zs.2 !! t.
Proof.
  induction l as [|gr l IH]; intros zs Hs Ho Hl Hz Hroom Hfuel.
  - exists zs. done.
  - cbn [length] in Hroom.
    destruct (cover_four_weak fuel gr (heap zs.2) Hs Ho) as (h1 & E4 & EL & Hs1 & Ho1);
      [apply Hl, list_elem_of_here|exact Hfuel|].
    cbn [place_clues]. unfold place_clue. rewrite E4.
    change (Ok h1 ≫= ?f) with (f h1). cbv beta.
    unfold set_solution. rewrite decide_True by lia.
    change (Ok ?x ≫= ?f) with (f x). cbv beta.
    cbn [with_heap row_count heap root solution out].
    set (s1 := mkSudoku (row_count zs.2) h1 (root zs.2)
                 (<[Z.to_nat zs.1 := Some gr]> (solution zs.2)) (out zs.2)).
    destruct (IH (zs.1 + 1, s1)) as (zs' & Hpc & Hcl & Hrc & Hrest).
    + exact Hs1.
    + exact Ho1.
    + intros r Hr. by apply Hl, list_elem_of_further.
    + cbn [fst]. lia.
    + cbn [fst]. lia.
    + exact Hfuel.
    + exists zs'. split; [exact Hpc|]. split; [|split].
      * rewrite bind_cons, cover_list_app, EL. exact Hcl.
      * exact Hrc.
      * intros t Ht. cbn [length] in Ht. rewrite Hrest by (cbn [fst]; lia).
        cbn [snd]. unfold s1. cbn [solution]. apply list_lookup_insert_ne. lia.
Qed.

(** ** The rows of the clues *)

Lemma row_items_spec r : 0 <= r < row_size → row_items r = spec_columns r.
Proof.
  intros Hr. unfold row_items, spec_columns. consts.
  rewrite !Z.quot_div_nonneg, !Z.rem_mod_nonneg by (try apply Z.div_pos; lia).
  rewrite !Z.quot_div_nonneg by (try apply Z.mod_pos_bound; try apply Z.div_pos; lia).
  apply (f_equal2 cons); [|apply (f_equal2 cons); [|apply (f_equal2 cons);
    [|apply (f_equal2 cons); [|reflexivity]]]]; Z.div_mod_to_equations; lia.
Qed.

Lemma bind_row_items_spec (l : list Z) :
  (∀ r, r ∈ l → 0 <= r < row_size) → l ≫= row_items = l ≫= spec_columns.
Proof.
  induction l as [|r l IH]; intros Hl; [reflexivity|].
  rewrite !bind_cons, IH by (intros; by apply Hl, list_elem_of_further).
  by rewrite row_items_spec by apply Hl, list_elem_of_here.
Qed.

(** The clues, cell by cell. *)
Lemma clues_rows grid : nine_by_nine grid → clues grid = clue_rows grid.
Proof.
  intros [Hlen Hlines].
  do 9 (destruct grid as [|? grid]; [discriminate Hlen|]).
  destruct grid; [|discriminate Hlen].
  repeat (apply Forall_cons in Hlines as [? Hlines]).
  repeat match goal with
         | H : length ?l = 9%nat |- _ =>
             do 9 (destruct l as [|? l]; [discriminate H|]);
             destruct l; [|discriminate H]; clear H
         end.
  reflexivity.
Qed.

Lemma clues_length grid : nine_by_nine grid → (length (clues grid) <= 81)%nat.
Proof.
  intros [Hlen Hlines]. unfold clues. rewrite grid_clues_length.
  etransitivity; [apply length_filter|].
  rewrite (length_concat_lines grid 9 Hlines), Hlen. done.
Qed.

(** C6.  For every grid of nine lines of nine numbers from 0 to 9,
    the two loops of [loadGridAndSolve] on the constructed solver
    return, whether the clues agree with each other or not.  The
    candidate rows that they handle are the rows
    [81*i + 9*j + v - 1] of the nonzero cells [(i, j)] with value [v],
    line by line ([clue_rows]); their number is the number of nonzero
    cells.  The matrix that the loops leave is the one that the calls
    of [cover] for the four constraint columns of these rows, in this
    order, produce from the constructed matrix; the row of the clue
    number [t] stands in the trace at the index [t], and the rest of the
    trace is as it was; then [search] is called at the depth that is the
    number of the clues.  When no two clues share a constraint, the
    columns that are live after the loops are the constraint columns of
    no clue, a candidate row is still present in its columns when it
    shares no constraint with a clue and only then, and every live
    column counts the cells of its ring. *)
Theorem loadGridAndSolve_places_clues fuel grid :
  digits_grid grid → (14 <= fuel)%nat →
  ∃ s1,
    load_grid fuel 9 grid 0 (0, s0) = Ok (Z.of_nat (length (clues grid)), s1) ∧
    loadGridAndSolve fuel grid s0 = search fuel (Z.of_nat (length (clues grid))) s1 ∧
    clues grid = clue_rows grid ∧
    length (clues grid) = length (filter (λ v, v ≠ 0) (concat grid)) ∧
    cover_list fuel (clues grid ≫= spec_columns) h0 = Ok (heap s1) ∧
    (∀ t r, clues grid !! t = Some r → solution s1 !! t = Some (Some r)) ∧
    (∀ t, (length (clues grid) <= t < 81)%nat → solution s1 !! t = Some None) ∧
    root s1 = root s0 ∧ row_count s1 = row_count s0 ∧ out s1 = out s0 ∧
    (clues_compatible grid →
       (∀ c, 0 <= c < constraints →
          live (heap s1) c ↔ c ∉ clues grid ≫= spec_columns) ∧
       (∀ ρ κ, 0 <= ρ < row_size → 0 <= κ < cells_per_row →
          (live (heap s1) (col_ (heap s1) (PCell ρ κ)) ∧
           PCell ρ κ ∈ col_cells (heap s1) (col_ (heap s1) (PCell ρ κ)))
          ↔ ∀ d, d ∈ spec_columns ρ → d ∉ clues grid ≫= spec_columns) ∧
       (∀ c, live (heap s1) c →
          get_count (heap s1) c = Z.of_nat (length (col_cells (heap s1) c)))).
Proof.
  intros Hd Hfuel. pose proof Hd as [[Hlen Hlines] _].
  pose proof (load_grid_spec fuel grid grid 0 (0, s0) ltac:(lia) eq_refl Hlines) as Hload.
  rewrite Hlen in Hload. fold (clues grid) in Hload.
  assert (Hrange : ∀ r, r ∈ clues grid → 0 <= r < row_size).
  { intros r Hr. exact (clues_range grid r Hd Hr). }
  pose proof (clues_length grid (conj Hlen Hlines)) as Hle.
  pose proof (bind_row_items_spec (clues grid) Hrange) as Hcols.
  destruct constructed_s0 as (Hroot & Hrc & Hsol & Hout0 & _).
  assert (Hlen0 : length (solution s0) = Z.to_nat grid_size).
  { rewrite Hsol. apply length_replicate. }
  destruct (place_clues_weak fuel (clues grid) (0, s0) shape_h0 ordered_h0 Hrange)
    as ([z s1] & Hpc & Hcl & Hrc1 & Hrest).
  { cbn [fst]. lia. }
  { cbn [fst]. unfold grid_size. lia. }
  { exact Hfuel. }
  destruct (place_clues_trace fuel (clues grid) (0, s0) (z, s1) Hpc)
    as (Hz & _ & Hroot1 & Hout1 & _ & Htr).
  { cbn [fst]. lia. }
  { exact Hlen0. }
  cbn [fst snd] in Hz, Hroot1, Hout1, Htr, Hcl, Hrc1, Hrest.
  assert (Ez : z = Z.of_nat (length (clues grid))) by lia. subst z.
  exists s1. split; [by rewrite Hload|].
  split; [unfold loadGridAndSolve; by rewrite Hload, Hpc|].
  split; [exact (clues_rows grid (conj Hlen Hlines))|].
  split; [apply grid_clues_length|].
  split; [rewrite <- Hcols; exact Hcl|].
  split; [intros t r Ht; exact (Htr t r Ht)|].
  split.
  { intros t Ht. rewrite Hrest by lia. rewrite Hsol.
    apply lookup_replicate_2. unfold grid_size. lia. }
  split; [exact Hroot1|]. split; [exact Hrc1|]. split; [exact Hout1|].
  intros Hc.
  destruct (place_clues_total fuel (clues grid) (0, s0) [] _ _ SInv_s0 Hrange Hc Hfuel)
    as ([z' s1'] & Lv & V & Hpc' & HS & _).
  rewrite Hpc in Hpc'. injection Hpc' as <- <-.
  cbn [fst snd] in HS. rewrite app_nil_l in HS.
  pose proof (si_inv _ _ _ _ _ HS) as HI.
  rewrite <- Hcols. split; [|split].
  - intros c Hcr. rewrite (Inv_live _ _ _ HI). exact (si_live _ _ _ _ _ HS c Hcr).
  - intros ρ κ Hρ Hκ. rewrite <- (row_items_spec ρ Hρ).
    exact (SInv_present s1 _ _ Lv V ρ κ HS Hρ Hκ).
  - intros c Hl. apply (Inv_live _ _ _ HI) in Hl.
    rewrite (Inv_col_cells _ _ _ _ HI Hl).
    by destruct (inv_vring _ _ _ HI c Hl) as (_ & _ & _ & ? & _).
Qed.

Lemma loadGridAndSolve_places_clues_witness :
  digits_grid main_grid ∧ (14 <= 14)%nat ∧ clues_compatible main_grid ∧
  ∃ s1,
    load_grid 14 9 main_grid 0 (0, s0) = Ok (Z.of_nat (length (clues main_grid)), s1) ∧
    loadGridAndSolve 14 main_grid s0 = search 14 (Z.of_nat (length (clues main_grid))) s1 ∧
    clues main_grid = clue_rows main_grid ∧
    length (clues main_grid) = length (filter (λ v, v ≠ 0) (concat main_grid)) ∧
    cover_list 14 (clues main_grid ≫= spec_columns) h0 = Ok (heap s1) ∧
    (∀ t r, clues main_grid !! t = Some r → solution s1 !! t = Some (Some r)) ∧
    (∀ t, (length (clues main_grid) <= t < 81)%nat → solution s1 !! t = Some None) ∧
    root s1 = root s0 ∧ row_count s1 = row_count s0 ∧ out s1 = out s0 ∧
    (clues_compatible main_grid →
       (∀ c, 0 <= c < constraints →
          live (heap s1) c ↔ c ∉ clues main_grid ≫= spec_columns) ∧
       (∀ ρ κ, 0 <= ρ < row_size → 0 <= κ < cells_per_row →
          (live (heap s1) (col_ (heap s1) (PCell ρ κ)) ∧
           PCell ρ κ ∈ col_cells (heap s1) (col_ (heap s1) (PCell ρ κ)))
          ↔ ∀ d, d ∈ spec_columns ρ → d ∉ clues main_grid ≫= spec_columns) ∧
       (∀ c, live (heap s1) c →
          get_count (heap s1) c = Z.of_nat (length (col_cells (heap s1) c)))).
Proof.
  split; [exact digits_main_grid|]. split; [lia|]. split; [exact compatible_main_grid|].
  apply (loadGridAndSolve_places_clues 14 main_grid); [exact digits_main_grid|lia].
Defined.

(** * The depth of the search, and grids without solution *)

(** The loading of compatible clues leaves a state of the search. *)
Lemma load_SInv fuel grid :
  digits_grid grid → clues_compatible grid → (14 <= fuel)%nat →
  ∃ s1 Lv V,
    load_grid fuel 9 grid 0 (0, s0) = Ok (Z.of_nat (length (clues grid)), s1) ∧
    SInv s1 (Z.of_nat (length (clues grid))) (clues grid) Lv V ∧ out s1 = [].
Proof.
  intros Hd Hc Hfuel. pose proof Hd as [[Hlen Hlines] _].
  pose proof (load_grid_spec fuel grid grid 0 (0, s0) ltac:(lia) eq_refl Hlines) as Hload.
  rewrite Hlen in Hload. fold (clues grid) in Hload.
  destruct (place_clues_total fuel (clues grid) (0, s0) [] _ _ SInv_s0)
    as ([z s1] & Lv & V & Hpc & HS & Hout).
  - intros r Hr. exact (clues_range grid r Hd Hr).
  - exact Hc.
  - exact Hfuel.
  - cbn [fst snd] in HS, Hout. rewrite app_nil_l in HS.
    pose proof (si_k _ _ _ _ _ HS) as Hk. subst z.
    destruct constructed_s0 as (_ & _ & _ & Hout0 & _).
    exists s1, Lv, V. split; [by rewrite Hload|]. split; [exact HS|].
    rewrite Hout. exact Hout0.
Qed.

(** The depth and the number of the live columns. *)
Lemma SInv_depth s k R Lv V :
  SInv s k R Lv V →
  0 <= k <= grid_size ∧ Z.of_nat (length Lv) = constraints - 4 * k ∧
  (k = grid_size ↔ right_ (heap s) (PCol (root s)) = PCol (root s)).
Proof.
  intros HS. pose proof (SInv_count _ _ _ _ _ HS) as Hcount.
  pose proof (si_k _ _ _ _ _ HS) as Hk.
  split; [consts; lia|]. split; [consts; lia|]. split.
  - intros E. assert (Lv = []) as -> by (apply nil_length_inv; consts; lia).
    pose proof (Inv_header_path _ _ _ (si_inv _ _ _ _ _ HS)) as Hpath.
    rewrite (si_root _ _ _ _ _ HS). exact Hpath.
  - intros Hempty. pose proof (SInv_empty_ring _ _ _ _ _ HS Hempty) as ->.
    destruct (SInv_full _ _ _ _ HS) as [_ ->]. reflexivity.
Qed.

(** C9, amended.  On a grid of the input contract whose clues are
    compatible, the loading leaves a state of the search (one that
    satisfies [SInv]) at the depth that is the number of the clues, and
    the search returns.  In every state of the search the depth [k] is
    at most 81 and [4 * k] of the 324 constraint columns are covered; the
    depth is 81 when the header ring is empty and only then, and there
    [search] prints and returns.  The call returns, and so does the body
    of [search] with any function in the place of the recursive call that
    returns on the states of the search at the depth [k + 1 <= 81] with
    four more columns covered: the body makes no other recursive
    call. *)
Theorem search_depth_bounded fuel grid :
  digits_grid grid → clues_compatible grid → (354 <= fuel)%nat →
  (∃ s1 Lv V s',
      load_grid fuel 9 grid 0 (0, s0) = Ok (Z.of_nat (length (clues grid)), s1) ∧
      SInv s1 (Z.of_nat (length (clues grid))) (clues grid) Lv V ∧
      search fuel (Z.of_nat (length (clues grid))) s1 = Ok s') ∧
  ∀ n k s R Lv V, SInv s k R Lv V → (length Lv + 30 <= n)%nat →
    0 <= k <= grid_size ∧
    Z.of_nat (length Lv) = constraints - 4 * k ∧
    (k = grid_size ↔ right_ (heap s) (PCol (root s)) = PCol (root s)) ∧
    (∃ s', search n k s = Ok s') ∧
    search (S n) k s = search_step (search n (k + 1)) n k s ∧
    ∀ rec,
      (∀ s1 R1 Lv1 V1, SInv s1 (k + 1) R1 Lv1 V1 → k + 1 <= grid_size →
         (length Lv1 + 4 = length Lv)%nat →
         ∃ s2, rec s1 = Ok s2 ∧ search_post s1 s2 (k + 1) R1) →
      ∃ s', search_step rec n k s = Ok s' ∧ search_post s s' k R.
Proof.
  intros Hd Hc Hfuel. split.
  - destruct (load_SInv fuel grid Hd Hc ltac:(lia)) as (s1 & Lv & V & Hload & HS & _).
    pose proof (Inv_live_length _ _ _ (si_inv _ _ _ _ _ HS)) as HL.
    destruct (search_total print_total fuel _ _ _ _ _ HS ltac:(lia)) as (s' & Hs & _).
    exists s1, Lv, V, s'. split; [exact Hload|]. split; [exact HS|exact Hs].
  - intros n k s R Lv V HS Hn.
    destruct (SInv_depth _ _ _ _ _ HS) as (H1 & H2 & H3).
    split; [exact H1|]. split; [exact H2|]. split; [exact H3|]. split; [|split].
    + destruct (search_total print_total n k s R Lv V HS Hn) as (s' & Hs & _).
      by exists s'.
    + reflexivity.
    + intros rec Hrec.
      apply (search_step_total print_total rec n k s R Lv V HS); [lia|].
      intros s1 R1 Lv1 V1 HS1 Hlen1 _.
      destruct (SInv_depth _ _ _ _ _ HS1) as (G1 & G2 & _).
      apply (Hrec s1 R1 Lv1 V1 HS1); [lia|]. consts. lia.
Qed.

Lemma search_depth_bounded_witness :
  digits_grid main_grid ∧ clues_compatible main_grid ∧ (354 <= 354)%nat ∧
  (∃ s1 Lv V s',
      load_grid 354 9 main_grid 0 (0, s0) = Ok (Z.of_nat (length (clues main_grid)), s1) ∧
      SInv s1 (Z.of_nat (length (clues main_grid))) (clues main_grid) Lv V ∧
      search 354 (Z.of_nat (length (clues main_grid))) s1 = Ok s') ∧
  ∀ n k s R Lv V, SInv s k R Lv V → (length Lv + 30 <= n)%nat →
    0 <= k <= grid_size ∧
    Z.of_nat (length Lv) = constraints - 4 * k ∧
    (k = grid_size ↔ right_ (heap s) (PCol (root s)) = PCol (root s)) ∧
    (∃ s', search n k s = Ok s') ∧
    search (S n) k s = search_step (search n (k + 1)) n k s ∧
    ∀ rec,
      (∀ s1 R1 Lv1 V1, SInv s1 (k + 1) R1 Lv1 V1 → k + 1 <= grid_size →
         (length Lv1 + 4 = length Lv)%nat →
         ∃ s2, rec s1 = Ok s2 ∧ search_post s1 s2 (k + 1) R1) →
      ∃ s', search_step rec n k s = Ok s' ∧ search_post s s' k R.
Proof.
  split; [exact digits_main_grid|]. split; [exact compatible_main_grid|]. split; [lia|].
  apply (search_depth_bounded 354 main_grid);
    [exact digits_main_grid|exact compatible_main_grid|lia].
Defined.

(** ** Conflicting clues *)

Lemma overrun_root : root overrun_state = column_size - 1.
Proof. vm_compute. reflexivity. Qed.

Lemma overrun_col : col_ (heap overrun_state) (PCol 238) = 238.
Proof. vm_compute. reflexivity. Qed.

Lemma digits_overrun_grid : digits_grid overrun_grid.
Proof. apply (bool_decide_unpack _). vm_compute. exact I. Qed.

(** At the depth 81 with a live column, the body of [search] stores
    [solution[81]] before any recursive call. *)
Lemma overrun_step rec n :
  (31 <= n)%nat → search_step rec n 81 overrun_state = Undef.
Proof.
  intros Hn. assert (Hle : (30 <= n)%nat) by lia.
  unfold search_step. rewrite overrun_root. change (PCol (column_size - 1)) with rootp.
  rewrite decide_False by exact overrun_ring.
  rewrite (approx_Ok _ _ _ (choose_mono 30 n _ _ _ _ Hle) (proj1 overrun_choose)).
  change (Ok ?a ≫= ?f) with (f a). cbv beta.
  rewrite overrun_col.
  destruct overrun_cover as (h1 & Hcov & Hdown).
  rewrite (approx_Ok _ _ _ (cover_mono 30 n 238 _ Hle) Hcov).
  change (Ok ?a ≫= ?f) with (f a). cbv beta.
  rewrite Hdown. destruct n as [|n]; [lia|]. cbn [search_rows].
  rewrite decide_False by discriminate.
  unfold set_solution. rewrite decide_False by (unfold grid_size; lia). reflexivity.
Qed.

(** C9 fails as it is stated.  [overrun_grid] is a grid of nine lines
    of nine digits in which two clues conflict.  Its loading records 81
    clues and leaves a header ring that is not empty, so [search] is
    entered at the depth 81 with a live column; its body stores
    [solution[81]], past the end of the trace, whatever the recursive call
    at the depth 82 would do, and the call has no result. *)
Lemma search_overruns_trace :
  digits_grid overrun_grid ∧
  load_grid 400 9 overrun_grid 0 (0, s0) = Ok (81, overrun_state) ∧
  right_ (heap overrun_state) (PCol (root overrun_state)) ≠ PCol (root overrun_state) ∧
  (∀ rec n, (31 <= n)%nat → search_step rec n 81 overrun_state = Undef) ∧
  ∀ n s', search n 81 overrun_state ≠ Ok s'.
Proof.
  split; [exact digits_overrun_grid|]. split; [exact overrun_loaded|]. split; [|split].
  - rewrite overrun_root. exact overrun_ring.
  - exact overrun_step.
  - intros n s' H.
    pose proof (approx_Ok _ _ _ (search_mono n (S (n + 31)) 81 overrun_state ltac:(lia)) H) as H'.
    rewrite search_unfold, overrun_step in H' by lia. discriminate H'.
Qed.

(** ** Grids without solution *)

Lemma unsatisfiable_overrun_grid : unsatisfiable overrun_grid.
Proof.
  intros g [_ Hv] Hk. rewrite Forall_seqZ in Hv.
  destruct (Hv 1 ltac:(lia)) as (Hrow & _ & _).
  pose proof (once_each_at _ 9 Hrow ltac:(lia)) as H9.
  unfold grid_row in H9.
  change (seqZ 0 9) with [0; 1; 2; 3; 4; 5; 6; 7; 8] in H9.
  cbn [fmap list_fmap] in H9.
  rewrite (keeps_clues_at overrun_grid g 1 0 Hk), (keeps_clues_at overrun_grid g 1 1 Hk),
    (keeps_clues_at overrun_grid g 1 2 Hk), (keeps_clues_at overrun_grid g 1 3 Hk),
    (keeps_clues_at overrun_grid g 1 4 Hk), (keeps_clues_at overrun_grid g 1 5 Hk),
    (keeps_clues_at overrun_grid g 1 6 Hk), (keeps_clues_at overrun_grid g 1 7 Hk),
    (keeps_clues_at overrun_grid g 1 8 Hk)
    in H9 by first [lia | (vm_compute; intros ?; discriminate)].
  vm_compute in H9. discriminate H9.
Qed.

(** C8, amended.  On a grid of the input contract whose clues are
    compatible and that has no solution, the loading and the search
    return, nothing has been printed, and the matrix is as the loading
    left it: the failure shows in nothing but the empty output.  In a
    state of the search in which a live column has count 0, the scan
    chooses a column of count 0; after [cover] its header is alone in its
    ring, so the row loop makes no iteration, [uncover] restores the
    matrix, and the call returns the solver as it found it. *)
Theorem unsatisfiable_returns_silently fuel grid :
  digits_grid grid → clues_compatible grid → unsatisfiable grid → (354 <= fuel)%nat →
  (∃ s1 s',
      load_grid fuel 9 grid 0 (0, s0) = Ok (Z.of_nat (length (clues grid)), s1) ∧
      search fuel (Z.of_nat (length (clues grid))) s1 = Ok s' ∧
      loadGridAndSolve fuel grid s0 = Ok s' ∧
      out s' = [] ∧ heap s' = heap s1 ∧ root s' = root s1) ∧
  ∀ n k s R Lv V c, SInv s k R Lv V → c ∈ Lv → get_count (heap s) c = 0 →
    (length Lv + 30 <= n)%nat →
    ∃ c' h1,
      choose n (PCol (root s)) (right_ (heap s) (PCol (root s)))
        (right_ (heap s) (PCol (root s))) (heap s) = Ok (PCol c') ∧
      get_count (heap s) c' = 0 ∧
      cover n c' (heap s) = Ok h1 ∧ down_ h1 (PCol c') = PCol c' ∧
      uncover n c' h1 = Ok (heap s) ∧
      (∀ rec, search_step rec n k s = Ok s) ∧
      search (S n) k s = Ok s.
Proof.
  intros Hd Hc Hu Hfuel. split.
  - destruct (load_SInv fuel grid Hd Hc ltac:(lia)) as (s1 & Lv & V & Hload & HS & Hout1).
    pose proof (Inv_live_length _ _ _ (si_inv _ _ _ _ _ HS)) as HL.
    destruct (search_total print_total fuel _ _ _ _ _ HS ltac:(lia))
      as (s' & Hs & Hh & Hr & _ & _ & _ & new & Hnew & _ & Hgood).
    exists s1, s'. split; [exact Hload|]. split; [exact Hs|].
    split; [unfold loadGridAndSolve; by rewrite Hload|].
    split; [|split; [exact Hh|exact Hr]].
    rewrite Hnew, Hout1, app_nil_l.
    destruct new as [|g l]; [reflexivity|]. exfalso.
    destruct (proj1 (Hgood g) (list_elem_of_here _ _)) as [Hv Hpl].
    apply (Hu g Hv). by apply placed_keeps_clues.
  - intros n k s R Lv V c HS Hcl Hzero Hn.
    destruct (dead_end_step n k s R Lv V c HS Hcl Hzero ltac:(lia))
      as (c' & Hch & _ & Hz & Hcov & Hdown & Hunc & Hstep).
    exists c', (cover_result (heap s) V c').
    rewrite (si_root _ _ _ _ _ HS). change (PCol (column_size - 1)) with rootp.
    split; [exact Hch|]. split; [exact Hz|]. split; [exact Hcov|]. split; [exact Hdown|].
    split; [exact Hunc|]. split; [exact Hstep|].
    rewrite search_unfold. apply Hstep.
Qed.

Lemma unsatisfiable_returns_silently_witness :
  digits_grid dead_end_grid ∧ clues_compatible dead_end_grid ∧
  unsatisfiable dead_end_grid ∧ (354 <= 354)%nat ∧
  (∃ s1 s',
      load_grid 354 9 dead_end_grid 0 (0, s0)
        = Ok (Z.of_nat (length (clues dead_end_grid)), s1) ∧
      search 354 (Z.of_nat (length (clues dead_end_grid))) s1 = Ok s' ∧
      loadGridAndSolve 354 dead_end_grid s0 = Ok s' ∧
      out s' = [] ∧ heap s' = heap s1 ∧ root s' = root s1) ∧
  ∀ n k s R Lv V c, SInv s k R Lv V → c ∈ Lv → get_count (heap s) c = 0 →
    (length Lv + 30 <= n)%nat →
    ∃ c' h1,
      choose n (PCol (root s)) (right_ (heap s) (PCol (root s)))
        (right_ (heap s) (PCol (root s))) (heap s) = Ok (PCol c') ∧
      get_count (heap s) c' = 0 ∧
      cover n c' (heap s) = Ok h1 ∧ down_ h1 (PCol c') = PCol c' ∧
      uncover n c' h1 = Ok (heap s) ∧
      (∀ rec, search_step rec n k s = Ok s) ∧
      search (S n) k s = Ok s.
Proof.
  split; [exact digits_dead_end_grid|]. split; [exact compatible_dead_end_grid|].
  split; [exact unsatisfiable_dead_end_grid|]. split; [lia|].
  apply (unsatisfiable_returns_silently 354 dead_end_grid);
    [exact digits_dead_end_grid|exact compatible_dead_end_grid|
     exact unsatisfiable_dead_end_grid|lia].
Defined.

(** C8 fails as it is stated.  [overrun_grid] holds the digit 9 twice
    in its second line, so it has no solution; the run on it does not
    return. *)
Lemma conflicting_row_no_return :
  digits_grid overrun_grid ∧
  cell_at overrun_grid 1 4 = 9 ∧ cell_at overrun_grid 1 7 = 9 ∧
  unsatisfiable overrun_grid ∧
  ∀ fuel l, run fuel overrun_grid ≠ Ok l.
Proof.
  split; [exact digits_overrun_grid|]. split; [reflexivity|]. split; [reflexivity|].
  split; [exact unsatisfiable_overrun_grid|].
  intros fuel l H.
  pose proof (approx_Ok _ _ _ (run_mono fuel (fuel + 20) overrun_grid ltac:(lia)) H) as H'.
  rewrite (run_from 20 (fuel + 20) overrun_grid Undef ltac:(lia) overrun_run_20) in H'
    by discriminate.
  discriminate H'.
Qed.
